(** * SongLang: a shallow embedding of the graph and the tree-walking interpreter

    The development follows [runtime/Node.ts], [runtime/Graph.ts] and
    [runtime/Interpreter.ts], with the AST of [parser/Expression.ts] and
    [parser/Statement.ts].

    Modelling choices, fixed once for the whole file:
    - A [SongNode] object is owned by the graph's [nodes] map under its own
      name; nodes are only ever made by [getOrCreateNode] and never removed by
      the interpreter, so a node reference is represented by the node's name.
    - JavaScript numbers are represented by exact rationals ([Q]): no rounding,
      no NaN, no infinities.
    - Mutable containers that can be reached from several places (the [Set] of
      [_Abilities], the arrays of [_Roles] and [_Items]) live in a heap and are
      referred to by their index, so aliasing is visible.
    - Source positions (line, column) and the text of error messages are
      dropped; an exception keeps its class and, for [SongError], its type.
    - Recursion of the source that is not structural (over parents, through
      stored [_DoBody] bodies) is bounded by a fuel argument; running out of
      fuel is the completion [Diverge], kept apart from thrown exceptions.
      (A JavaScript engine ends unbounded recursion with a stack overflow,
      at a depth the language does not fix; no [catch] of the model sees it.)
    - [toUpperCase] is the ASCII one, and [String(n)] of a number that is not
      an integer is its decimal expansion cut after 16 fractional digits.
    - Where the source casts a stored property to a container type
      ([as Set<string> | null] and the like) and the stored value has another
      runtime type, the model throws [JsTypeError]. *)

From Stdlib Require Import Ascii String QArith Qround Qabs.
From stdpp Require Import base strings gmap list pretty.

Set Warnings "-register-all".

Open Scope string_scope.
Open Scope list_scope.

(** ** AST: parser/Expression.ts *)

Inductive BinaryOperator :=
  | Add | Subtract | Multiply | Divide | Modulo
  | Equal | NotEqual | LessThan | GreaterThan | LessEqual | GreaterEqual
  | And | Or.

Inductive UnaryOperator := Negate | Not.

Inductive Expression :=
  | ENumber (value : Q)
  | EString (value : string)
  | EIdentifier (name : string)
  | EPropertyAccess (object : Expression) (property : string)
  | EBinary (left : Expression) (operator : BinaryOperator) (right : Expression)
  | EUnary (operator : UnaryOperator) (operand : Expression)
  | EGrouping (inner : Expression)
  | ERandom (min max : Expression).

(** ** AST: parser/Statement.ts *)

Inductive LosesType := LosesAuto | LosesIs.

Inductive DebugTarget := DebugGraph | DebugTokens | DebugAst.

Record QueryPattern := { isWildcard : bool; variableName : option string }.

(** The [unknown] entries of [arguments], [value] and [targetValue]: what the
    parser puts there (a number, a string or an identifier's lexeme) or null. *)
Inductive Literal :=
  | LNull
  | LNumber (n : Q)
  | LString (s : string).

Inductive Statement :=
  | SRelation (subject relation : string) (arguments : list Literal)
  | SHasExpression (subject property : string) (valueExpression : Expression)
  | SExpressionPrint (subject : Expression)
  | SExpressionHas (subject : Expression) (property : string) (value : Literal)
      (valueExpression : option Expression)
  | SRoleDefinition (subject roleName : string)
  | SDoBlock (subject : string) (body : list Statement)
  | SCan (subject ability : string)
  | SLoses (subject target : string) (type : LosesType)
  | SDebug (target : DebugTarget)
  | SWhen (condition : Statement) (body : list Statement)
  | SWhenExpression (w : WhenExpressionStatement)
  | SChance (percent : Expression) (body : list Statement)
      (elseBody : option (list Statement))
  | SAll (typeName : string) (queryVariable : option string)
      (action : option Statement)
  | SEach (collection variable : string) (body : list Statement)
  | SQuery (subject : QueryPattern) (relation : string) (target : option string)
      (targetValue : Literal) (whereCondition : option Expression)
with WhenExpressionStatement :=
  | WhenExpr (subject : string) (condition : Expression) (body : list Statement)
      (elseBody : option (list Statement))
      (elseWhen : option WhenExpressionStatement).

(** ** Runtime values *)

Inductive Value :=
  | VNull
  | VNumber (n : Q)
  | VString (s : string)
  | VBoolean (b : bool)
  | VNode (name : string)
  | VStringSet (ref : nat)
  | VRoleList (ref : nat)
  | VNodeList (ref : nat)
  | VStatementList (body : list Statement).

(** ** runtime/SongError.ts *)

Inductive ErrorType :=
  | NodeNotFound | PropertyNotFound | TypeMismatch | InvalidCondition
  | DivisionByZero | InvalidOperand | CannotPerform | SyntaxError
  | UnexpectedToken | RuntimeError.

Inductive Exception :=
  | SongError (type : ErrorType)
  | InterpreterError
  | JsTypeError.

(** How a call ends: with a value, with a thrown exception, or never. *)
Inductive Completion (A : Type) :=
  | Normal (a : A)
  | Throw (e : Exception)
  | Diverge.
Arguments Normal {A} a.
Arguments Throw {A} e.
Arguments Diverge {A}.

(** ** Insertion-ordered maps (JavaScript [Map]) as association lists *)

Module OMap.
Section OMap.
Context {V : Type}.

Fixpoint get (m : list (string * V)) (k : string) : option V :=
  match m with
  | [] => None
  | (k', v) :: rest => if String.eqb k' k then Some v else get rest k
  end.

Definition has (m : list (string * V)) (k : string) : bool :=
  match get m k with Some _ => true | None => false end.

(** [Map.prototype.set]: an existing key keeps its position. *)
Fixpoint set (m : list (string * V)) (k : string) (v : V) : list (string * V) :=
  match m with
  | [] => [(k, v)]
  | (k', v') :: rest =>
      if String.eqb k' k then (k', v) :: rest else (k', v') :: set rest k v
  end.

Fixpoint delete (m : list (string * V)) (k : string) : list (string * V) :=
  match m with
  | [] => []
  | (k', v') :: rest =>
      if String.eqb k' k then rest else (k', v') :: delete rest k
  end.

Definition keys (m : list (string * V)) : list string := map fst m.
End OMap.
End OMap.

(** ** runtime/Node.ts: the fields of a [SongNode] *)

Record SongNode := {
  parents : list string;
  properties : list (string * Value)
}.

(** ** The interpreter's state: the graph, the heap of shared containers and
    the fields of [Interpreter] *)

Record Interpreter := {
  nodes : list (string * SongNode);
  heap : list (list string);
  context : gmap string Value;
  whenSubject : option string;
  output : list string;
  randomIndex : nat;
  randomSource : nat -> Q
}.

Definition set_nodes (g : list (string * SongNode)) (s : Interpreter) : Interpreter :=
  {| nodes := g; heap := heap s; context := context s;
     whenSubject := whenSubject s; output := output s;
     randomIndex := randomIndex s; randomSource := randomSource s |}.

Definition set_heap (h : list (list string)) (s : Interpreter) : Interpreter :=
  {| nodes := nodes s; heap := h; context := context s;
     whenSubject := whenSubject s; output := output s;
     randomIndex := randomIndex s; randomSource := randomSource s |}.

Definition set_context (c : gmap string Value) (s : Interpreter) : Interpreter :=
  {| nodes := nodes s; heap := heap s; context := c;
     whenSubject := whenSubject s; output := output s;
     randomIndex := randomIndex s; randomSource := randomSource s |}.

Definition set_whenSubject (w : option string) (s : Interpreter) : Interpreter :=
  {| nodes := nodes s; heap := heap s; context := context s;
     whenSubject := w; output := output s;
     randomIndex := randomIndex s; randomSource := randomSource s |}.

Definition set_output (o : list string) (s : Interpreter) : Interpreter :=
  {| nodes := nodes s; heap := heap s; context := context s;
     whenSubject := whenSubject s; output := o;
     randomIndex := randomIndex s; randomSource := randomSource s |}.

Definition set_randomIndex (i : nat) (s : Interpreter) : Interpreter :=
  {| nodes := nodes s; heap := heap s; context := context s;
     whenSubject := whenSubject s; output := output s;
     randomIndex := i; randomSource := randomSource s |}.

(** A fresh interpreter: [new Graph()], empty context, no WHEN subject. *)
Definition newInterpreter (random : nat -> Q) : Interpreter :=
  {| nodes := []; heap := []; context := ∅; whenSubject := None;
     output := []; randomIndex := 0; randomSource := random |}.

(** ** runtime/Graph.ts *)

Module Graph.
Definition getNode (g : list (string * SongNode)) (name : string) : option SongNode :=
  OMap.get g name.

Definition hasNode (g : list (string * SongNode)) (name : string) : bool :=
  OMap.has g name.

(** [getOrCreateNode] returns the node called [name]; the graph gains an
    empty node when there was none. *)
Definition getOrCreateNode (g : list (string * SongNode)) (name : string)
  : list (string * SongNode) :=
  match OMap.get g name with
  | Some _ => g
  | None => g ++ [(name, {| parents := []; properties := [] |})]
  end.

Definition allNodes (g : list (string * SongNode)) : list string := OMap.keys g.

Definition count (g : list (string * SongNode)) : nat := length g.
End Graph.

(** ** runtime/Node.ts: the methods, on a node given by name in a graph *)

Module Node.
Definition parentsOf (g : list (string * SongNode)) (n : string) : list string :=
  match OMap.get g n with Some nd => parents nd | None => [] end.

Definition propertiesOf (g : list (string * SongNode)) (n : string)
  : list (string * Value) :=
  match OMap.get g n with Some nd => properties nd | None => [] end.

Definition update (g : list (string * SongNode)) (n : string)
    (f : SongNode -> SongNode) : list (string * SongNode) :=
  match OMap.get g n with
  | Some nd => OMap.set g n (f nd)
  | None => g
  end.

Definition hasOwnProperty (g : list (string * SongNode)) (n name : string) : bool :=
  OMap.has (propertiesOf g n) name.

(** The loop of [getProperty] over the parents: the first answer that is
    not null. *)
Definition firstNonNull (lookup : string -> option Value)
  : list string -> option Value :=
  fix loop (ps : list string) : option Value :=
    match ps with
    | [] => Some VNull
    | p :: rest =>
        match lookup p with
        | None => None
        | Some VNull => loop rest
        | Some v => Some v
        end
    end.

(** [getProperty]: own properties first, then the parents in order, depth
    first. *)
Fixpoint getProperty (fuel : nat) (g : list (string * SongNode)) (n name : string)
  : option Value :=
  match fuel with
  | O => None
  | S fuel' =>
      match OMap.get (propertiesOf g n) name with
      | Some v => Some v
      | None =>
          firstNonNull (fun p => getProperty fuel' g p name) (parentsOf g n)
      end
  end.

Definition setProperty (g : list (string * SongNode)) (n name : string) (v : Value)
  : list (string * SongNode) :=
  update g n (fun nd =>
    {| parents := parents nd; properties := OMap.set (properties nd) name v |}).

Definition removeProperty (g : list (string * SongNode)) (n name : string)
  : list (string * SongNode) :=
  update g n (fun nd =>
    {| parents := parents nd; properties := OMap.delete (properties nd) name |}).

Definition includes (l : list string) (x : string) : bool :=
  existsb (String.eqb x) l.

(** [addParent]: push unless already included. *)
Definition addParent (g : list (string * SongNode)) (n parent : string)
  : list (string * SongNode) :=
  update g n (fun nd =>
    {| parents := if includes (parents nd) parent then parents nd
                  else parents nd ++ [parent];
       properties := properties nd |}).

(** [indexOf] then [splice(index, 1)]: the first occurrence goes. *)
Fixpoint spliceFirst (l : list string) (x : string) : list string :=
  match l with
  | [] => []
  | y :: rest => if String.eqb y x then rest else y :: spliceFirst rest x
  end.

Definition removeParent (g : list (string * SongNode)) (n parent : string)
  : list (string * SongNode) :=
  update g n (fun nd =>
    {| parents := spliceFirst (parents nd) parent;
       properties := properties nd |}).

(** The loop of [is] over the parents: true at the first parent that
    answers true. *)
Definition anyParent (check : string -> option bool)
  : list string -> option bool :=
  fix loop (ps : list string) : option bool :=
    match ps with
    | [] => Some false
    | p :: rest =>
        match check p with
        | None => None
        | Some true => Some true
        | Some false => loop rest
        end
    end.

(** [is(typeName)]; the name [is] is reserved here, hence the underscore. *)
Fixpoint is_ (fuel : nat) (g : list (string * SongNode)) (n typeName : string)
  : option bool :=
  match fuel with
  | O => None
  | S fuel' =>
      if String.eqb n typeName then Some true
      else anyParent (fun p => is_ fuel' g p typeName) (parentsOf g n)
  end.
End Node.

(** ** JavaScript strings and numbers *)

Module Js.
Definition quote : string := String (ascii_of_nat 34) EmptyString.

Definition upperChar (c : ascii) : ascii :=
  let n := nat_of_ascii c in
  if (97 <=? n)%nat && (n <=? 122)%nat then ascii_of_nat (n - 32) else c.

(** [toUpperCase] on the ASCII letters that identifiers are made of. *)
Fixpoint toUpperCase (s : string) : string :=
  match s with
  | EmptyString => EmptyString
  | String c rest => String (upperChar c) (toUpperCase rest)
  end.

Definition startsWithUnderscore (s : string) : bool :=
  match s with
  | String c _ => Ascii.eqb c (ascii_of_nat 95)
  | EmptyString => false
  end.

Definition join (sep : string) (l : list string) : string := String.concat sep l.

Definition floor (x : Q) : Q := inject_Z (Qfloor x).

Definition trunc (x : Q) : Q :=
  if Qle_bool 0 x then inject_Z (Qfloor x) else inject_Z (Qceiling x).

(** The remainder operator [%]: the result takes the sign of the dividend. *)
Definition remainder (a b : Q) : Q := (a - b * trunc (a / b))%Q.

Fixpoint fractionDigits (n : nat) (r d : Z) : string :=
  match n with
  | O => ""
  | S k =>
      if (r =? 0)%Z then ""
      else pretty (r * 10 / d)%Z +:+ fractionDigits k ((r * 10) mod d)%Z d
  end.

(** [String(n)] for a number: integers in decimal; other rationals by their
    decimal expansion, cut after 16 fractional digits. *)
Definition numberToString (q : Q) : string :=
  let n := Qnum (Qred q) in
  let d := Zpos (Qden (Qred q)) in
  if (d =? 1)%Z then pretty n
  else
    (if (n <? 0)%Z then "-" else "")
    +:+ pretty (Z.abs n / d)%Z +:+ "." +:+ fractionDigits 16 (Z.abs n mod d)%Z d.

Definition mapOption {A B} (f : A -> option B) : list A -> option (list B) :=
  fix go (l : list A) : option (list B) :=
    match l with
    | [] => Some []
    | x :: rest =>
        match f x with
        | None => None
        | Some y =>
            match go rest with None => None | Some ys => Some (y :: ys) end
        end
    end.
End Js.

(** [SongNode.toString] and [String(value)] (also the coercion inside a
    template literal). A node prints its properties, whose values may be nodes
    again. *)
Fixpoint toStringValue (fuel : nat) (g : list (string * SongNode))
    (h : list (list string)) (v : Value) : option string :=
  match fuel with
  | O => None
  | S fuel' =>
      match v with
      | VNull => Some "null"
      | VNumber n => Some (Js.numberToString n)
      | VString s => Some s
      | VBoolean b => Some (if b then "true" else "false")
      | VNode n =>
          match
            Js.mapOption
              (fun kv : string * Value =>
                 match
                   match snd kv with
                   | VString s => Some (Js.quote +:+ s +:+ Js.quote)
                   | other => toStringValue fuel' g h other
                   end
                 with
                 | None => None
                 | Some val => Some (fst kv +:+ "=" +:+ val)
                 end)
              (Node.propertiesOf g n)
          with
          | None => None
          | Some propsArr =>
              let parentsStr :=
                match Node.parentsOf g n with
                | [] => ""
                | ps => " IS " +:+ Js.join ", " ps
                end in
              Some ("Node(" +:+ n +:+ parentsStr +:+ ") { "
                    +:+ Js.join ", " propsArr +:+ " }")
          end
      | VStringSet _ => Some "[object Set]"
      | VRoleList r => Some (Js.join "," (default [] (h !! r)))
      | VNodeList r =>
          match
            Js.mapOption (fun n => toStringValue fuel' g h (VNode n))
              (default [] (h !! r))
          with
          | None => None
          | Some strs => Some (Js.join "," strs)
          end
      | VStatementList body =>
          Some (Js.join "," (map (fun _ => "[object Object]") body))
      end
  end.

(** ** Identity of stored statement lists

    A [_DoBody] value is the [body] array of a [DoBlockStatement]; [===] on
    two of them compares object identity, which the tree-shaped AST does not
    carry. Identity is approximated by structural equality. *)

Module Same.
Definition list_eqb {A} (eqb : A -> A -> bool) : list A -> list A -> bool :=
  fix go (l1 l2 : list A) : bool :=
    match l1, l2 with
    | [], [] => true
    | x :: r1, y :: r2 => eqb x y && go r1 r2
    | _, _ => false
    end.

Definition option_eqb {A} (eqb : A -> A -> bool) (o1 o2 : option A) : bool :=
  match o1, o2 with
  | None, None => true
  | Some x, Some y => eqb x y
  | _, _ => false
  end.

Definition number (a b : Q) : bool :=
  Z.eqb (Qnum a) (Qnum b) && Pos.eqb (Qden a) (Qden b).

Definition binop (a b : BinaryOperator) : bool :=
  match a, b with
  | Add, Add | Subtract, Subtract | Multiply, Multiply | Divide, Divide
  | Modulo, Modulo | Equal, Equal | NotEqual, NotEqual | LessThan, LessThan
  | GreaterThan, GreaterThan | LessEqual, LessEqual
  | GreaterEqual, GreaterEqual | And, And | Or, Or => true
  | _, _ => false
  end.

Definition unop (a b : UnaryOperator) : bool :=
  match a, b with
  | Negate, Negate | Not, Not => true
  | _, _ => false
  end.

Fixpoint expression (a b : Expression) : bool :=
  match a, b with
  | ENumber x, ENumber y => number x y
  | EString x, EString y => String.eqb x y
  | EIdentifier x, EIdentifier y => String.eqb x y
  | EPropertyAccess o1 p1, EPropertyAccess o2 p2 =>
      expression o1 o2 && String.eqb p1 p2
  | EBinary l1 o1 r1, EBinary l2 o2 r2 =>
      expression l1 l2 && binop o1 o2 && expression r1 r2
  | EUnary o1 e1, EUnary o2 e2 => unop o1 o2 && expression e1 e2
  | EGrouping e1, EGrouping e2 => expression e1 e2
  | ERandom a1 b1, ERandom a2 b2 => expression a1 a2 && expression b1 b2
  | _, _ => false
  end.

Definition literal (a b : Literal) : bool :=
  match a, b with
  | LNull, LNull => true
  | LNumber x, LNumber y => number x y
  | LString x, LString y => String.eqb x y
  | _, _ => false
  end.

Definition losesType (a b : LosesType) : bool :=
  match a, b with
  | LosesAuto, LosesAuto | LosesIs, LosesIs => true
  | _, _ => false
  end.

Definition debugTarget (a b : DebugTarget) : bool :=
  match a, b with
  | DebugGraph, DebugGraph | DebugTokens, DebugTokens
  | DebugAst, DebugAst => true
  | _, _ => false
  end.

Definition pattern (a b : QueryPattern) : bool :=
  Bool.eqb (isWildcard a) (isWildcard b)
  && option_eqb String.eqb (variableName a) (variableName b).

Fixpoint statement (a b : Statement) {struct a} : bool :=
  match a, b with
  | SRelation s1 r1 a1, SRelation s2 r2 a2 =>
      String.eqb s1 s2 && String.eqb r1 r2 && list_eqb literal a1 a2
  | SHasExpression s1 p1 e1, SHasExpression s2 p2 e2 =>
      String.eqb s1 s2 && String.eqb p1 p2 && expression e1 e2
  | SExpressionPrint e1, SExpressionPrint e2 => expression e1 e2
  | SExpressionHas e1 p1 v1 x1, SExpressionHas e2 p2 v2 x2 =>
      expression e1 e2 && String.eqb p1 p2 && literal v1 v2
      && option_eqb expression x1 x2
  | SRoleDefinition s1 r1, SRoleDefinition s2 r2 =>
      String.eqb s1 s2 && String.eqb r1 r2
  | SDoBlock s1 b1, SDoBlock s2 b2 =>
      String.eqb s1 s2 && list_eqb statement b1 b2
  | SCan s1 a1, SCan s2 a2 => String.eqb s1 s2 && String.eqb a1 a2
  | SLoses s1 t1 k1, SLoses s2 t2 k2 =>
      String.eqb s1 s2 && String.eqb t1 t2 && losesType k1 k2
  | SDebug t1, SDebug t2 => debugTarget t1 t2
  | SWhen c1 b1, SWhen c2 b2 => statement c1 c2 && list_eqb statement b1 b2
  | SWhenExpression w1, SWhenExpression w2 => whenExpression w1 w2
  | SChance p1 b1 e1, SChance p2 b2 e2 =>
      expression p1 p2 && list_eqb statement b1 b2
      && option_eqb (list_eqb statement) e1 e2
  | SAll t1 q1 a1, SAll t2 q2 a2 =>
      String.eqb t1 t2 && option_eqb String.eqb q1 q2
      && option_eqb statement a1 a2
  | SEach c1 v1 b1, SEach c2 v2 b2 =>
      String.eqb c1 c2 && String.eqb v1 v2 && list_eqb statement b1 b2
  | SQuery s1 r1 t1 v1 w1, SQuery s2 r2 t2 v2 w2 =>
      pattern s1 s2 && String.eqb r1 r2 && option_eqb String.eqb t1 t2
      && literal v1 v2 && option_eqb expression w1 w2
  | _, _ => false
  end
with whenExpression (a b : WhenExpressionStatement) {struct a} : bool :=
  match a, b with
  | WhenExpr s1 c1 b1 e1 w1, WhenExpr s2 c2 b2 e2 w2 =>
      String.eqb s1 s2 && expression c1 c2 && list_eqb statement b1 b2
      && option_eqb (list_eqb statement) e1 e2
      && option_eqb whenExpression w1 w2
  end.
End Same.

(** ** The interpreter monad: state passing with exceptions and divergence *)

Definition M (A : Type) : Type := Interpreter -> Completion A * Interpreter.

Definition ret {A} (a : A) : M A := fun s => (Normal a, s).

Definition throw {A} (e : Exception) : M A := fun s => (Throw e, s).

Definition diverge {A} : M A := fun s => (Diverge, s).

Definition bind {A B} (m : M A) (k : A -> M B) : M B :=
  fun s =>
    match m s with
    | (Normal a, s') => k a s'
    | (Throw e, s') => (Throw e, s')
    | (Diverge, s') => (Diverge, s')
    end.

Declare Scope interp_scope.
Delimit Scope interp_scope with interp.
Notation "x <- m ;; k" := (bind m (fun x => k))
  (at level 100, m at next level, right associativity) : interp_scope.
Notation "m ;; k" := (bind m (fun _ => k))
  (at level 100, right associativity) : interp_scope.
Open Scope interp_scope.

(** Reading and updating the state. *)
Definition gets {A} (f : Interpreter -> A) : M A := fun s => (Normal (f s), s).

Definition modify (f : Interpreter -> Interpreter) : M unit :=
  fun s => (Normal tt, f s).

(** A read-only computation that may need more fuel than it was given. *)
Definition walk {A} (f : Interpreter -> option A) : M A :=
  fun s => match f s with Some a => (Normal a, s) | None => (Diverge, s) end.

(** [try { m } finally { fin }]. *)
Definition tryFinally {A} (m : M A) (fin : M unit) : M A :=
  fun s =>
    match m s with
    | (Diverge, s') => (Diverge, s')
    | (r, s') =>
        match fin s' with
        | (Normal _, s'') => (r, s'')
        | (Throw e, s'') => (Throw e, s'')
        | (Diverge, s'') => (Diverge, s'')
        end
    end.

(** [try { m } catch { handler }]: every thrown exception is caught. *)
Definition tryCatch {A} (m : M A) (handler : M A) : M A :=
  fun s =>
    match m s with
    | (Throw _, s') => handler s'
    | r => r
    end.

(** [for (const x of xs) body(x)] over a list fixed before the loop. *)
Definition forEach {A} (body : A -> M unit) : list A -> M unit :=
  fix go (xs : list A) : M unit :=
    match xs with
    | [] => ret tt
    | x :: rest => body x ;; go rest
    end.

(** ** Primitive effects *)

Definition onOutput (line : string) : M unit :=
  modify (fun s => set_output (output s ++ [line]) s).

(** [Math.random()]: the next draw of the random source. *)
Definition Math_random : M Q :=
  fun s => (Normal (randomSource s (randomIndex s)),
            set_randomIndex (S (randomIndex s)) s).

Definition contextGet (name : string) : M (option Value) :=
  gets (fun s => context s !! name).

Definition contextSet (name : string) (v : Value) : M unit :=
  modify (fun s => set_context (<[name := v]> (context s)) s).

Definition contextDelete (name : string) : M unit :=
  modify (fun s => set_context (delete name (context s)) s).

Definition heapGet (r : nat) : M (list string) :=
  gets (fun s => default [] (heap s !! r)).

Definition heapSet (r : nat) (l : list string) : M unit :=
  modify (fun s => set_heap (<[r := l]> (heap s)) s).

(** A new [Set] or array. *)
Definition heapAlloc (l : list string) : M nat :=
  fun s => (Normal (length (heap s)), set_heap (heap s ++ [l]) s).

Definition graphGetNode (name : string) : M (option string) :=
  gets (fun s => if Graph.hasNode (nodes s) name then Some name else None).

Definition graphGetOrCreateNode (name : string) : M string :=
  fun s => (Normal name, set_nodes (Graph.getOrCreateNode (nodes s) name) s).

Definition graphAllNodes : M (list string) :=
  gets (fun s => Graph.allNodes (nodes s)).

Definition nodeSetProperty (n name : string) (v : Value) : M unit :=
  modify (fun s => set_nodes (Node.setProperty (nodes s) n name v) s).

Definition nodeRemoveProperty (n name : string) : M unit :=
  modify (fun s => set_nodes (Node.removeProperty (nodes s) n name) s).

Definition nodeAddParent (n parent : string) : M unit :=
  modify (fun s => set_nodes (Node.addParent (nodes s) n parent) s).

Definition nodeRemoveParent (n parent : string) : M unit :=
  modify (fun s => set_nodes (Node.removeParent (nodes s) n parent) s).

Definition nodeOwnProperty (n name : string) : M (option Value) :=
  gets (fun s => OMap.get (Node.propertiesOf (nodes s) n) name).

Definition nodeParents (n : string) : M (list string) :=
  gets (fun s => Node.parentsOf (nodes s) n).

Definition nodeProperties (n : string) : M (list (string * Value)) :=
  gets (fun s => Node.propertiesOf (nodes s) n).

(** The casts of stored properties to container types. *)
Definition asStringSet (v : Value) : M (option nat) :=
  match v with
  | VNull => ret None
  | VStringSet r => ret (Some r)
  | _ => throw JsTypeError
  end.

Definition asRoleList (v : Value) : M (option nat) :=
  match v with
  | VNull => ret None
  | VRoleList r => ret (Some r)
  | _ => throw JsTypeError
  end.

Definition asNodeList (v : Value) : M (option nat) :=
  match v with
  | VNull => ret None
  | VNodeList r => ret (Some r)
  | _ => throw JsTypeError
  end.

Definition asStatementList (v : Value) : M (option (list Statement)) :=
  match v with
  | VNull => ret None
  | VStatementList body => ret (Some body)
  | _ => throw JsTypeError
  end.

(** [Set.prototype.add] and [delete], on the insertion-ordered elements. *)
Definition setAdd (l : list string) (x : string) : list string :=
  if Node.includes l x then l else l ++ [x].

Definition setDelete (l : list string) (x : string) : list string :=
  Node.spliceFirst l x.

(** ** runtime/Interpreter.ts: expression evaluation *)

Section Evaluator.
(** The bound on the depth of the walks over parents and stored values. *)
Variable fuel : nat.

Definition nodeGetProperty (n name : string) : M Value :=
  walk (fun s => Node.getProperty fuel (nodes s) n name).

Definition nodeIs (n typeName : string) : M bool :=
  walk (fun s => Node.is_ fuel (nodes s) n typeName).

(** [String(value)], also the coercion of a template literal. *)
Definition toStr (v : Value) : M string :=
  walk (fun s => toStringValue fuel (nodes s) (heap s) v).

Definition isTruthy (value : Value) : bool :=
  match value with
  | VNull => false
  | VBoolean b => b
  | VNumber n => negb (Qeq_bool n 0)
  | VString s => negb (String.eqb s "")
  | VNode _ => true
  | _ => true
  end.

(** The message of the last case interpolates the value. *)
Definition toNumber (value : Value) : M Q :=
  match value with
  | VNumber n => ret n
  | VBoolean b => ret (if b then 1 else 0)%Q
  | VNull => throw (SongError TypeMismatch)
  | other => toStr other ;; throw (SongError TypeMismatch)
  end.

Definition isString (v : Value) : bool :=
  match v with VString _ => true | _ => false end.

Definition add (left right : Value) : M Value :=
  if isString left || isString right then
    l <- toStr left ;;
    r <- toStr right ;;
    ret (VString (l +:+ r))
  else
    l <- toNumber left ;;
    r <- toNumber right ;;
    ret (VNumber (l + r)).

Definition compare (left right : Value) : M Z :=
  l <- toNumber left ;;
  r <- toNumber right ;;
  if Qlt_le_dec l r then ret (-1)%Z
  else if Qlt_le_dec r l then ret 1%Z
  else ret 0%Z.

(** [left === right] on two values that are not null. *)
Definition strictEquals (left right : Value) : bool :=
  match left, right with
  | VNumber a, VNumber b => Qeq_bool a b
  | VString a, VString b => String.eqb a b
  | VBoolean a, VBoolean b => Bool.eqb a b
  | VNode a, VNode b => String.eqb a b
  | VStringSet a, VStringSet b => Nat.eqb a b
  | VRoleList a, VRoleList b => Nat.eqb a b
  | VNodeList a, VNodeList b => Nat.eqb a b
  | VStatementList a, VStatementList b => Same.list_eqb Same.statement a b
  | _, _ => false
  end.

Definition equals (left right : Value) : bool :=
  match left, right with
  | VNull, VNull => true
  | VNull, _ | _, VNull => false
  | _, _ => strictEquals left right
  end.

Definition resolveIdentifier (name : string) : M Value :=
  c <- contextGet name ;;
  match c with
  | Some v => ret v
  | None =>
      node <- graphGetNode name ;;
      match node with
      | Some n => ret (VNode n)
      | None =>
          w <- gets whenSubject ;;
          match w with
          | Some subj =>
              propValue <- nodeGetProperty subj name ;;
              match propValue with
              | VNull => throw (SongError NodeNotFound)
              | v => ret v
              end
          | None => throw (SongError NodeNotFound)
          end
      end
  end.

(** The arithmetic and comparison cases of [evaluateBinary], both operands
    already evaluated. [And] and [Or] never reach this switch. *)
Definition binaryOperation (operator : BinaryOperator) (leftVal rightVal : Value)
  : M Value :=
  match operator with
  | Add => add leftVal rightVal
  | Subtract =>
      l <- toNumber leftVal ;; r <- toNumber rightVal ;; ret (VNumber (l - r))
  | Multiply =>
      l <- toNumber leftVal ;; r <- toNumber rightVal ;; ret (VNumber (l * r))
  | Divide =>
      divisor <- toNumber rightVal ;;
      if Qeq_bool divisor 0 then throw (SongError DivisionByZero)
      else l <- toNumber leftVal ;; ret (VNumber (l / divisor))
  | Modulo =>
      divisor <- toNumber rightVal ;;
      if Qeq_bool divisor 0 then throw (SongError DivisionByZero)
      else l <- toNumber leftVal ;; ret (VNumber (Js.remainder l divisor))
  | Equal => ret (VBoolean (equals leftVal rightVal))
  | NotEqual => ret (VBoolean (negb (equals leftVal rightVal)))
  | LessThan =>
      c <- compare leftVal rightVal ;; ret (VBoolean (c <? 0)%Z)
  | GreaterThan =>
      c <- compare leftVal rightVal ;; ret (VBoolean (0 <? c)%Z)
  | LessEqual =>
      c <- compare leftVal rightVal ;; ret (VBoolean (c <=? 0)%Z)
  | GreaterEqual =>
      c <- compare leftVal rightVal ;; ret (VBoolean (0 <=? c)%Z)
  | And | Or => throw InterpreterError
  end.

(** [Math.floor(Math.random() * (max - min + 1)) + min]. *)
Definition randomInRange (u min max : Q) : Q :=
  (Js.floor (u * (max - min + 1)) + min)%Q.

Fixpoint evaluateExpression (expr : Expression) : M Value :=
  match expr with
  | ENumber value => ret (VNumber value)
  | EString value => ret (VString value)
  | EIdentifier name => resolveIdentifier name
  | EPropertyAccess object property =>
      obj <- evaluateExpression object ;;
      match obj with
      | VNode n =>
          value <- nodeGetProperty n property ;;
          match value with
          | VNull => throw (SongError PropertyNotFound)
          | v => ret v
          end
      | _ => throw (SongError TypeMismatch)
      end
  | EBinary lhs And rhs =>
      l <- evaluateExpression lhs ;;
      if negb (isTruthy l) then ret (VBoolean false)
      else r <- evaluateExpression rhs ;; ret (VBoolean (isTruthy r))
  | EBinary lhs Or rhs =>
      l <- evaluateExpression lhs ;;
      if isTruthy l then ret (VBoolean true)
      else r <- evaluateExpression rhs ;; ret (VBoolean (isTruthy r))
  | EBinary lhs operator rhs =>
      leftVal <- evaluateExpression lhs ;;
      rightVal <- evaluateExpression rhs ;;
      binaryOperation operator leftVal rightVal
  | EUnary Negate operand =>
      v <- evaluateExpression operand ;;
      n <- toNumber v ;;
      ret (VNumber (- n))
  | EUnary Not operand =>
      v <- evaluateExpression operand ;;
      ret (VBoolean (negb (isTruthy v)))
  | EGrouping inner => evaluateExpression inner
  | ERandom min max =>
      minValue <- evaluateExpression min ;;
      maxValue <- evaluateExpression max ;;
      lo <- toNumber minValue ;;
      hi <- toNumber maxValue ;;
      u <- Math_random ;;
      ret (VNumber (randomInRange u (Js.floor lo) (Js.floor hi)))
  end.
End Evaluator.

(** ** runtime/Interpreter.ts: helpers on the entries of [arguments] *)

(** [value === null || value === undefined]; an index past the end of
    [arguments] reads [undefined], here [None]. *)
Definition nullish (o : option Literal) : bool :=
  match o with
  | None | Some LNull => true
  | Some _ => false
  end.

(** [String(x)] for an entry of [arguments]. *)
Definition literalString (o : option Literal) : string :=
  match o with
  | None => "undefined"
  | Some LNull => "null"
  | Some (LNumber n) => Js.numberToString n
  | Some (LString s) => s
  end.

Definition literalValue (l : Literal) : Value :=
  match l with
  | LNull => VNull
  | LNumber n => VNumber n
  | LString s => VString s
  end.

(** [Math.abs(a - b) < 0.0001]. *)
Definition closeTo (a b : Q) : bool :=
  if Qlt_le_dec (Qabs (a - b)) (1 # 10000) then true else false.

(** The tail of [evaluateHasCondition] and [matchesHasQuery]: a wanted
    literal against a stored value that is not null. *)
Definition matchesLiteral (wanted : Literal) (propValue : Value) : bool :=
  match wanted, propValue with
  | LNumber a, VNumber b => closeTo a b
  | LString a, VString b => String.eqb a b
  | _, _ => false
  end.

Definition isNull (v : Value) : bool :=
  match v with VNull => true | _ => false end.

Definition filterM {A} (p : A -> M bool) : list A -> M (list A) :=
  fix go (xs : list A) : M (list A) :=
    match xs with
    | [] => ret []
    | x :: rest =>
        keep <- p x ;;
        kept <- go rest ;;
        ret (if keep then x :: kept else kept)
    end.

(** The loop of [nodeCan] over the parents. *)
Definition anyM {A} (check : A -> M bool) : list A -> M bool :=
  fix loop (xs : list A) : M bool :=
    match xs with
    | [] => ret false
    | x :: rest => b <- check x ;; if b : bool then ret true else loop rest
    end.

(** [nodeCan]: the node's [_Abilities] (looked up with inheritance), then
    every parent in turn. *)
Fixpoint nodeCan (fuel : nat) (node ability : string) : M bool :=
  match fuel with
  | O => diverge
  | S fuel' =>
      v <- nodeGetProperty fuel node "_Abilities" ;;
      abilities <- asStringSet v ;;
      has <- match abilities with
             | Some r => l <- heapGet r ;; ret (Node.includes l ability)
             | None => ret false
             end ;;
      if has : bool then ret true
      else
        ps <- nodeParents node ;;
        anyM (fun p => nodeCan fuel' p ability) ps
  end.

(** ** runtime/Interpreter.ts: statements

    [execute] stands for [this.execute] one level of nesting further down; the
    knot is tied by [executeStatement] below. *)

Section Statements.
Variable fuel : nat.
Variable execute : list Statement -> M unit.

Definition resolveNode (name : string) : M string :=
  contextValue <- contextGet name ;;
  match contextValue with
  | Some (VNode n) => ret n
  | _ => graphGetOrCreateNode name
  end.

Definition resolveNodeOrNull (name : string) : M (option string) :=
  contextValue <- contextGet name ;;
  match contextValue with
  | Some (VNode n) => ret (Some n)
  | _ => graphGetNode name
  end.

(** A string that names an existing node is stored as a reference to it. *)
Definition promoteLiteral (value : Literal) : M Value :=
  match value with
  | LString s =>
      node <- graphGetNode s ;;
      match node with
      | Some n => ret (VNode n)
      | None => ret (VString s)
      end
  | other => ret (literalValue other)
  end.

Definition executeIs (subject : string) (arguments : list Literal) : M unit :=
  let objName := arguments !! 0%nat in
  if nullish objName then throw InterpreterError
  else
    parent <- resolveNode (literalString objName) ;;
    nodeAddParent subject parent.

Definition executeHas (subject : string) (arguments : list Literal) : M unit :=
  let propName := arguments !! 0%nat in
  if nullish propName then throw InterpreterError
  else
    value <- promoteLiteral (default LNull (arguments !! 1%nat)) ;;
    nodeSetProperty subject (literalString propName) value.

Definition executeHasExpression (subject property : string)
    (valueExpression : Expression) : M unit :=
  subject <- resolveNode subject ;;
  value <- evaluateExpression fuel valueExpression ;;
  nodeSetProperty subject property value.

Definition executePrint (subject : string) : M unit :=
  name <- nodeGetProperty fuel subject "Name" ;;
  if isNull name then onOutput subject
  else line <- toStr fuel name ;; onOutput line.

Definition executeExpressionPrint (subject : Expression) : M unit :=
  value <- evaluateExpression fuel subject ;;
  match value with
  | VNode n =>
      name <- nodeGetProperty fuel n "Name" ;;
      if isNull name then onOutput n
      else line <- toStr fuel name ;; onOutput line
  | VNull => onOutput "null"
  | other => line <- toStr fuel other ;; onOutput line
  end.

Definition executeExpressionHas (subject : Expression) (property : string)
    (value : Literal) (valueExpression : option Expression) : M unit :=
  subjectValue <- evaluateExpression fuel subject ;;
  match subjectValue with
  | VNode n =>
      v <- match valueExpression with
           | Some e => evaluateExpression fuel e
           | None => promoteLiteral value
           end ;;
      nodeSetProperty n property v
  | _ => throw InterpreterError
  end.

Definition executeRoleDefinition (subject roleName : string) : M unit :=
  subject <- graphGetOrCreateNode subject ;;
  v <- nodeGetProperty fuel subject "_Roles" ;;
  roles <- asRoleList v ;;
  r <- match roles with
       | Some r => ret r
       | None =>
           r <- heapAlloc [] ;;
           nodeSetProperty subject "_Roles" (VRoleList r) ;;
           ret r
       end ;;
  l <- heapGet r ;;
  if Node.includes l roleName then ret tt
  else heapSet r (l ++ [roleName]).

(** The loop [for (let i = 1; i < roles.length && i <= arguments.length; i++)]
    pairs [roles[i]] with [arguments[i - 1]]. *)
Definition bindRoleArguments (roles : list string) (arguments : list Literal)
  : M unit :=
  forEach
    (fun ra : string * Literal =>
       let argName := literalString (Some (snd ra)) in
       if String.eqb argName "" then ret tt
       else
         node <- graphGetOrCreateNode argName ;;
         contextSet (fst ra) (VNode node))
    (combine (tl roles) arguments).

Definition executeCustomRelation (subject relation : string)
    (arguments : list Literal) : M unit :=
  relationNode <- graphGetNode relation ;;
  match relationNode with
  | None =>
      match arguments with
      | [] => ret tt
      | _ :: _ =>
          objNode <- graphGetOrCreateNode (literalString (arguments !! 0%nat)) ;;
          nodeSetProperty subject ("_" +:+ relation) (VString objNode)
      end
  | Some relationNode =>
      isRelation <- nodeIs fuel relationNode "RELATION" ;;
      if negb isRelation then throw InterpreterError
      else
        v <- nodeGetProperty fuel relationNode "_DoBody" ;;
        doBody <- asStatementList v ;;
        match doBody with
        | None => ret tt
        | Some doBody =>
            rv <- nodeGetProperty fuel relationNode "_Roles" ;;
            roles <- asRoleList rv ;;
            match roles with
            | None => execute doBody
            | Some r =>
                l <- heapGet r ;;
                match l with
                | [] => execute doBody
                | role0 :: _ =>
                    contextSet role0 (VNode subject) ;;
                    bindRoleArguments l arguments ;;
                    execute doBody ;;
                    l' <- heapGet r ;;
                    forEach contextDelete l'
                end
            end
        end
  end.

Definition executeRelation (subject relation : string)
    (arguments : list Literal) : M unit :=
  subject <- resolveNode subject ;;
  let upper := Js.toUpperCase relation in
  if String.eqb upper "IS" then executeIs subject arguments
  else if String.eqb upper "HAS" then executeHas subject arguments
  else if String.eqb upper "PRINT" then executePrint subject
  else executeCustomRelation subject relation arguments.

Definition executeDoBlock (subject : string) (body : list Statement) : M unit :=
  subject <- resolveNode subject ;;
  nodeSetProperty subject "_DoBody" (VStatementList body).

Definition executeCan (subject ability : string) : M unit :=
  subject <- resolveNode subject ;;
  v <- nodeGetProperty fuel subject "_Abilities" ;;
  abilities <- asStringSet v ;;
  r <- match abilities with
       | Some r => ret r
       | None =>
           r <- heapAlloc [] ;;
           nodeSetProperty subject "_Abilities" (VStringSet r) ;;
           ret r
       end ;;
  l <- heapGet r ;;
  heapSet r (setAdd l ability).

Definition removeOwnProperty (subject target : string) : M unit :=
  own <- gets (fun s => Node.hasOwnProperty (nodes s) subject target) ;;
  if own : bool then nodeRemoveProperty subject target else ret tt.

Definition executeLoses (subject target : string) (type : LosesType) : M unit :=
  subject <- resolveNode subject ;;
  match type with
  | LosesIs =>
      parent <- resolveNodeOrNull target ;;
      match parent with
      | Some p => nodeRemoveParent subject p
      | None => ret tt
      end
  | LosesAuto =>
      v <- nodeGetProperty fuel subject "_Abilities" ;;
      abilities <- asStringSet v ;;
      match abilities with
      | Some r =>
          l <- heapGet r ;;
          if Node.includes l target then heapSet r (setDelete l target)
          else removeOwnProperty subject target
      | None => removeOwnProperty subject target
      end
  end.

Definition evaluateHasCondition (node : string) (arguments : list Literal)
  : M bool :=
  let propName := arguments !! 0%nat in
  if nullish propName then ret false
  else
    propValue <- nodeGetProperty fuel node (literalString propName) ;;
    let relValue := arguments !! 1%nat in
    if nullish relValue then ret (negb (isNull propValue))
    else if isNull propValue then ret false
    else ret (matchesLiteral (default LNull relValue) propValue).

(** [arguments[0] !== null]: [undefined] passes this test. *)
Definition notNull (o : option Literal) : bool :=
  match o with Some LNull => false | _ => true end.

Definition evaluateCondition (condition : Statement) : M bool :=
  match condition with
  | SRelation subject relation arguments =>
      node <- graphGetNode subject ;;
      match node with
      | None => ret false
      | Some node =>
          let upper := Js.toUpperCase relation in
          let arg0 := arguments !! 0%nat in
          if String.eqb upper "HAS" then evaluateHasCondition node arguments
          else if String.eqb upper "IS" then
            if notNull arg0 then nodeIs fuel node (literalString arg0)
            else ret false
          else if String.eqb upper "CAN" then
            if notNull arg0 then nodeCan fuel node (literalString arg0)
            else ret false
          else ret false
      end
  | _ => ret false
  end.

Definition executeWhen (condition : Statement) (body : list Statement) : M unit :=
  holds <- evaluateCondition condition ;;
  if holds : bool then execute body else ret tt.

Fixpoint executeWhenExpression (stmt : WhenExpressionStatement) : M unit :=
  match stmt with
  | WhenExpr subject condition body elseBody elseWhen =>
      subjectNode <- graphGetNode subject ;;
      match subjectNode with
      | Some n => contextSet subject (VNode n)
      | None => ret tt
      end ;;
      previousWhenSubject <- gets whenSubject ;;
      modify (set_whenSubject subjectNode) ;;
      tryFinally
        (result <- evaluateExpression fuel condition ;;
         if isTruthy result then execute body
         else
           match elseWhen with
           | Some w => executeWhenExpression w
           | None =>
               match elseBody with
               | Some b => execute b
               | None => ret tt
               end
           end)
        (modify (set_whenSubject previousWhenSubject) ;;
         match subjectNode with
         | Some _ => contextDelete subject
         | None => ret tt
         end)
  end.

Definition executeChance (percent : Expression) (body : list Statement)
    (elseBody : option (list Statement)) : M unit :=
  percentValue <- evaluateExpression fuel percent ;;
  percent <- toNumber fuel percentValue ;;
  u <- Math_random ;;
  let roll := Js.floor (u * 100) in
  if Qlt_le_dec roll percent then execute body
  else
    match elseBody with
    | Some b => execute b
    | None => ret tt
    end.

Definition getQueryResults (variableName : string) : M (list string) :=
  resultNode <- graphGetNode variableName ;;
  match resultNode with
  | None => ret []
  | Some n =>
      isResult <- nodeIs fuel n "QueryResult" ;;
      if isResult : bool then
        v <- nodeGetProperty fuel n "_Items" ;;
        items <- asNodeList v ;;
        match items with
        | Some r => heapGet r
        | None => ret []
        end
      else ret []
  end.

Definition executeActionOnNode (node : string) (action : Statement) : M unit :=
  match action with
  | SRelation _ relation arguments => executeRelation node relation arguments
  | _ => ret tt
  end.

Definition executeAll (typeName : string) (queryVariable : option string)
    (action : option Statement) : M unit :=
  let run (matchingNodes : list string) : M unit :=
    match action with
    | None =>
        let target := match queryVariable with
                      | Some q => "?" +:+ q
                      | None => typeName
                      end in
        onOutput ("ALL " +:+ target +:+ ": " +:+ pretty (length matchingNodes)
                  +:+ " nodes found")
    | Some a => forEach (fun node => executeActionOnNode node a) matchingNodes
    end in
  match queryVariable with
  | Some q =>
      matchingNodes <- getQueryResults q ;;
      match matchingNodes with
      | [] => onOutput ("ALL ?" +:+ q
                        +:+ ": No query results found (run query first)")
      | _ :: _ => run matchingNodes
      end
  | None =>
      all <- graphAllNodes ;;
      matchingNodes <- filterM (fun n => nodeIs fuel n typeName) all ;;
      run matchingNodes
  end.

Definition executeEach (collection variable : string) (body : list Statement)
  : M unit :=
  collectionNode <- graphGetNode collection ;;
  match collectionNode with
  | None => throw InterpreterError
  | Some c =>
      children <-
        gets (fun s =>
                List.filter (fun n => Node.includes (Node.parentsOf (nodes s) n) c)
                  (Graph.allNodes (nodes s))) ;;
      forEach
        (fun child =>
           contextSet variable (VNode child) ;;
           execute body ;;
           contextDelete variable)
        children
  end.

Definition matchesIsQuery (node : string) (target : option string) : M bool :=
  match target with
  | None => ret true
  | Some t => nodeIs fuel node t
  end.

Definition matchesHasQuery (node : string) (target : option string)
    (targetValue : Literal) : M bool :=
  match target with
  | None =>
      props <- nodeProperties node ;;
      ret (0 <? length props)%nat
  | Some t =>
      propValue <- nodeGetProperty fuel node t ;;
      if isNull propValue then ret false
      else
        match targetValue with
        | LNull => ret true
        | wanted => ret (matchesLiteral wanted propValue)
        end
  end.

Definition matchesCanQuery (node : string) (target : option string) : M bool :=
  match target with
  | None =>
      v <- nodeGetProperty fuel node "_Abilities" ;;
      abilities <- asStringSet v ;;
      match abilities with
      | Some r => l <- heapGet r ;; ret (0 <? length l)%nat
      | None => ret false
      end
  | Some t => nodeCan fuel node t
  end.

Definition findMatchingNodes (relation : string) (target : option string)
    (targetValue : Literal) : M (list string) :=
  all <- graphAllNodes ;;
  filterM
    (fun node =>
       if String.eqb relation "IS" then matchesIsQuery node target
       else if String.eqb relation "HAS" then
         matchesHasQuery node target targetValue
       else if String.eqb relation "CAN" then matchesCanQuery node target
       else ret false)
    all.

(** What the WHERE loop pushes: a boolean that is true, or a number that is
    not zero. *)
Definition whereAccepts (conditionResult : Value) : bool :=
  match conditionResult with
  | VBoolean b => b
  | VNumber n => negb (Qeq_bool n 0)
  | _ => false
  end.

(** One turn of the loop of [filterByWhereCondition]: bind, then
    [try { evaluate; test } catch { } finally { unbind }]. *)
Definition whereCandidate (varName : string) (whereCondition : Expression)
    (node : string) : M bool :=
  contextSet varName (VNode node) ;;
  tryFinally
    (tryCatch
       (conditionResult <- evaluateExpression fuel whereCondition ;;
        ret (whereAccepts conditionResult))
       (ret false))
    (contextDelete varName).

Definition filterByWhereCondition (candidates : list string)
    (subject : QueryPattern) (whereCondition : Expression) : M (list string) :=
  let varName := default "_" (variableName subject) in
  filterM (whereCandidate varName whereCondition) candidates.

Definition reportMatches (matchingNodes : list string) : M unit :=
  forEach (fun node => onOutput ("  - " +:+ node)) matchingNodes.

Definition executeQuery (subject : QueryPattern) (relation : string)
    (target : option string) (targetValue : Literal)
    (whereCondition : option Expression) : M unit :=
  found <- findMatchingNodes relation target targetValue ;;
  matchingNodes <- match whereCondition with
                   | Some e => filterByWhereCondition found subject e
                   | None => ret found
                   end ;;
  match isWildcard subject, variableName subject with
  | false, Some varName =>
      resultNode <- graphGetOrCreateNode varName ;;
      queryResultType <- graphGetOrCreateNode "QueryResult" ;;
      ps <- nodeParents resultNode ;;
      (if Node.includes ps queryResultType then ret tt
       else nodeAddParent resultNode queryResultType) ;;
      items <- heapAlloc matchingNodes ;;
      nodeSetProperty resultNode "_Items" (VNodeList items) ;;
      onOutput ("Query ?" +:+ varName +:+ ": " +:+ pretty (length matchingNodes)
                +:+ " nodes found") ;;
      reportMatches matchingNodes
  | _, _ =>
      onOutput ("Query: " +:+ pretty (length matchingNodes) +:+ " nodes found") ;;
      reportMatches matchingNodes
  end.
End Statements.

(** ** runtime/Interpreter.ts: DEBUG, and the dispatch of [executeStatement] *)

Definition mapM {A B} (f : A -> M B) : list A -> M (list B) :=
  fix go (xs : list A) : M (list B) :=
    match xs with
    | [] => ret []
    | x :: rest => y <- f x ;; ys <- go rest ;; ret (y :: ys)
    end.

Section Dispatch.
Variable fuel : nat.
Variable execute : list Statement -> M unit.

Definition formatNode (node : string) : M string :=
  ps <- nodeParents node ;;
  props <- nodeProperties node ;;
  visibleProps <-
    mapM
      (fun kv : string * Value =>
         val <- match snd kv with
                | VString s => ret (Js.quote +:+ s +:+ Js.quote)
                | VNode n => ret ("→" +:+ n)
                | other => toStr fuel other
                end ;;
         ret (fst kv +:+ "=" +:+ val))
      (List.filter (fun kv : string * Value => negb (Js.startsWithUnderscore (fst kv)))
         props) ;;
  itemsValue <- nodeOwnProperty node "_Items" ;;
  itemsRef <- asNodeList (default VNull itemsValue) ;;
  items <- match itemsRef with Some r => heapGet r | None => ret [] end ;;
  abilitiesValue <- nodeOwnProperty node "_Abilities" ;;
  abilitiesRef <- asStringSet (default VNull abilitiesValue) ;;
  abilities <- match abilitiesRef with Some r => heapGet r | None => ret [] end ;;
  ret ("Node(" +:+ node +:+ ")"
       +:+ match ps with
           | [] => ""
           | _ => " IS " +:+ Js.join ", " ps
           end
       +:+ match visibleProps with
           | [] => ""
           | _ => " { " +:+ Js.join ", " visibleProps +:+ " }"
           end
       +:+ match items with
           | [] => ""
           | _ => " CONTAINS [" +:+ Js.join ", " items +:+ "]"
           end
       +:+ match abilities with
           | [] => ""
           | _ => " CAN [" +:+ Js.join ", " abilities +:+ "]"
           end).

Definition dumpGraph : M unit :=
  onOutput "--- Graph State ---" ;;
  count <- gets (fun s => Graph.count (nodes s)) ;;
  if (count =? 0)%nat then onOutput "(empty)"
  else
    all <- graphAllNodes ;;
    forEach (fun node => line <- formatNode node ;; onOutput line) all ;;
    onOutput "-------------------".

Definition executeDebug (target : DebugTarget) : M unit :=
  match target with
  | DebugGraph => dumpGraph
  | DebugTokens => onOutput "DEBUG Tokens는 아직 구현되지 않았습니다."
  | DebugAst => onOutput "DEBUG Ast는 아직 구현되지 않았습니다."
  end.

(** The [switch (stmt.kind)] of [executeStatement]. *)
Definition dispatch (stmt : Statement) : M unit :=
  match stmt with
  | SRelation subject relation arguments =>
      executeRelation fuel execute subject relation arguments
  | SHasExpression subject property valueExpression =>
      executeHasExpression fuel subject property valueExpression
  | SRoleDefinition subject roleName =>
      executeRoleDefinition fuel subject roleName
  | SDoBlock subject body => executeDoBlock subject body
  | SCan subject ability => executeCan fuel subject ability
  | SLoses subject target type => executeLoses fuel subject target type
  | SDebug target => executeDebug target
  | SWhen condition body => executeWhen fuel execute condition body
  | SWhenExpression w => executeWhenExpression fuel execute w
  | SAll typeName queryVariable action =>
      executeAll fuel execute typeName queryVariable action
  | SEach collection variable body => executeEach execute collection variable body
  | SQuery subject relation target targetValue whereCondition =>
      executeQuery fuel subject relation target targetValue whereCondition
  | SExpressionPrint subject => executeExpressionPrint fuel subject
  | SExpressionHas subject property value valueExpression =>
      executeExpressionHas fuel subject property value valueExpression
  | SChance percent body elseBody =>
      executeChance fuel execute percent body elseBody
  end.
End Dispatch.

(** [executeStatement] with its nesting depth bounded by [fuel]; a stored
    [_DoBody] that calls its own relation runs the bound down. *)
Fixpoint executeStatement (fuel : nat) (stmt : Statement) : M unit :=
  match fuel with
  | O => diverge
  | S fuel' => dispatch fuel' (forEach (executeStatement fuel')) stmt
  end.

(** [execute(statements)]. *)
Definition execute (fuel : nat) (statements : list Statement) : M unit :=
  forEach (executeStatement fuel) statements.

(** The states an interpreter can be in: fresh, or after a call of [execute]
    (however that call ended) on a state it could be in. *)
Inductive reachable : Interpreter -> Prop :=
  | reachable_new random : reachable (newInterpreter random)
  | reachable_execute fuel statements s :
      reachable s -> reachable (snd (execute fuel statements s)).

(** ** runtime/Graph.ts: [toJSON]

    The snapshot of the graph that the web view draws. A node's [_Abilities]
    is a [Set] held by reference, so the snapshot is taken of the graph and
    the store of sets and arrays together. The [properties] object of a node
    is read as a finite map: the order in which a JavaScript object
    enumerates its keys is not modelled. *)

Module GraphJson.
(** What [Array.from] can find in a stored value. *)
Inductive Element : Type :=
  | ElString (s : string)
  | ElNode (n : string)
  | ElStatement (stmt : Statement).

Record NodeData : Type :=
  { id : string;
    name : string;
    properties : gmap string Value;
    abilities : list Element }.

Record EdgeData : Type :=
  { source : string;
    target : string;
    type : string }.

Record GraphData : Type :=
  { nodes : list NodeData;
    edges : list EdgeData }.

(** [abilitiesSet ? Array.from(abilitiesSet) : []]. The cast to a [Set] is
    not checked: a string yields its characters, an array its elements, and a
    number, a boolean or a node yields nothing. *)
Definition arrayFrom (h : list (list string)) (v : Value) : list Element :=
  match v with
  | VStringSet r | VRoleList r => map ElString (default [] (h !! r))
  | VNodeList r => map ElNode (default [] (h !! r))
  | VStatementList body => map ElStatement body
  | VString s => map (fun c => ElString (String c EmptyString)) (list_ascii_of_string s)
  | VNull | VNumber _ | VBoolean _ | VNode _ => []
  end.

Definition isNodeValue (v : Value) : bool :=
  match v with VNode _ => true | _ => false end.

(** The loop [for (const [key, value] of node.properties)]. *)
Definition exportProperties (entries : list (string * Value)) : gmap string Value :=
  foldl
    (fun (exported : gmap string Value) (kv : string * Value) =>
       if negb (Js.startsWithUnderscore (fst kv)) && negb (isNodeValue (snd kv))
       then <[fst kv := snd kv]> exported
       else exported)
    ∅ entries.

Definition toJSON (g : list (string * SongNode)) (h : list (list string)) : GraphData :=
  {| nodes :=
       map (fun n =>
              {| id := n;
                 name := n;
                 properties := exportProperties (Node.propertiesOf g n);
                 abilities :=
                   arrayFrom h
                     (default VNull (OMap.get (Node.propertiesOf g n) "_Abilities")) |})
         (Graph.allNodes g);
     edges :=
       flat_map (fun n =>
                   map (fun p => {| source := n; target := p; type := "IS" |})
                     (Node.parentsOf g n))
         (Graph.allNodes g) |}.
End GraphJson.

(** * Vocabulary of the properties

    What the statements below are phrased with: sample programs, resolved
    names, the states single statements lead to, and relations between
    states. *)

(** ** Sample programs and random sources *)

Definition noRandom : nat -> Q := fun _ => 0%Q.

Definition halfRandom : nat -> Q := fun _ => (1 # 2)%Q.

Definition run (fuel : nat) (statements : list Statement) : Interpreter :=
  snd (execute fuel statements (newInterpreter noRandom)).

Definition IS (subject type : string) : Statement :=
  SRelation subject "IS" [LString type].

Definition queryVar (name : string) : QueryPattern :=
  {| isWildcard := false; variableName := Some name |}.

(** The graph after [X IS X]: X is its own parent. *)
Definition selfIs : Interpreter := run 2 [IS "X" "X"].

(** [Attack IS RELATION], [Attack HAS Attacker (Node)] and a body. *)
Definition defineAttack (body : list Statement) : Interpreter :=
  run 3 [IS "Attack" "RELATION";
         SRoleDefinition "Attack" "Attacker";
         SDoBlock "Attack" body].

Definition rankOrcMonster (n : string) : nat :=
  if String.eqb n "Orc" then 1 else 0.

(** ** Graphs without cycles *)

(** A rank that strictly drops along every IS edge stored in the graph. *)
Definition ranked (rank : string -> nat) (g : list (string * SongNode)) : bool :=
  forallb
    (fun entry : string * SongNode =>
       forallb (fun p => rank p <? rank (fst entry))%nat (parents (snd entry)))
    g.

(** ** Resolved names and the states after single statements *)

(** [resolveNode]: the node a name stands for, and the state once the name
    has been resolved (a node may have been created). *)
Definition resolveName (s : Interpreter) (name : string) : string :=
  match context s !! name with Some (VNode n) => n | _ => name end.

Definition resolveState (s : Interpreter) (name : string) : Interpreter :=
  match context s !! name with
  | Some (VNode n) => s
  | _ => set_nodes (Graph.getOrCreateNode (nodes s) name) s
  end.

(** [resolveNodeOrNull]: the context first, then [getNode]. *)
Definition resolveNameOrNull (s : Interpreter) (name : string) : option string :=
  match context s !! name with
  | Some (VNode n) => Some n
  | _ => if Graph.hasNode (nodes s) name then Some name else None
  end.

(** The state after [subject IS type]. *)
Definition afterIs (s : Interpreter) (subject type : string) : Interpreter :=
  let s' := resolveState (resolveState s subject) type in
  set_nodes (Node.addParent (nodes s') (resolveName s subject) (resolveName s type)) s'.

(** The state after [subject LOSES IS target]. *)
Definition afterLosesIs (s : Interpreter) (subject target : string) : Interpreter :=
  let s' := resolveState s subject in
  match resolveNameOrNull s' target with
  | Some p => set_nodes (Node.removeParent (nodes s') (resolveName s subject) p) s'
  | None => s'
  end.

(** The state after [subject HAS property], no value given. *)
Definition afterHasNothing (s : Interpreter) (subject property : string)
  : Interpreter :=
  let s' := resolveState s subject in
  set_nodes (Node.setProperty (nodes s') (resolveName s subject) property VNull) s'.

(** ** Evaluating a WHERE expression *)

(** Expression evaluation leaves the state alone, but for the draws it
    consumes. *)
Definition onlyDraws {A} (m : M A) : Prop :=
  forall s, exists k, snd (m s) = set_randomIndex k s.

(** The state in which a candidate's WHERE expression is evaluated: the
    query variable bound to the candidate. *)
Definition bindVar (varName node : string) (s : Interpreter) : Interpreter :=
  set_context (<[varName := VNode node]> (context s)) s.

(** ... at some position of the random source. *)
Definition turnOf (s : Interpreter) (varName node : string) (t : Interpreter) : Prop :=
  exists k, t = set_randomIndex k (bindVar varName node s).

(** A candidate is kept when its evaluation ends with a value that the loop
    pushes; a thrown exception drops it. *)
Definition kept (c : Completion Value) : bool :=
  match c with
  | Normal v => whereAccepts v
  | _ => false
  end.

(** ** Changes of parents lists *)

(** The two ways a parents list changes: a name that is not in it is pushed
    at its end, or one entry is spliced out; the other entries keep their
    order. *)
Inductive parentsStep : list string -> list string -> Prop :=
  | parents_push l p : ~ In p l -> parentsStep l (l ++ [p])
  | parents_splice l1 p l2 : parentsStep (l1 ++ p :: l2) (l1 ++ l2).

(** Every parents list of [s'] comes from the one in [s] by such steps. *)
Definition evolves (s s' : Interpreter) : Prop :=
  forall n, rtc parentsStep (Node.parentsOf (nodes s) n) (Node.parentsOf (nodes s') n).

Definition preserves {A} (m : M A) : Prop := forall s, evolves s (snd (m s)).

(** [p] is in the parents list of [n]. *)
Definition parentEdge (g : list (string * SongNode)) (n p : string) : Prop :=
  In p (Node.parentsOf g n).

(** [m] is [n] itself or is reached from [n] along IS edges. *)
Definition ancestorOrSelf (g : list (string * SongNode)) : string -> string -> Prop :=
  rtc (parentEdge g).

Definition rankPlayerEntity (n : string) : nat :=
  if String.eqb n "Player" then 1 else 0.

Definition playerEntity : Interpreter :=
  run 2 [IS "Player" "Entity"; SRelation "Entity" "HAS" [LString "HP"; LNumber 10]].

(** [m] takes every state to one that is [R]-related to it; with [always]
    false this is asked only of the runs of [m] that end (normally or with an
    exception). *)
Definition stepwise {A} (always : bool) (R : Interpreter -> Interpreter -> Prop)
    (m : M A) : Prop :=
  forall s, (always = false -> fst (m s) <> Diverge) -> R s (snd (m s)).

Definition sameWhenSubject (s s' : Interpreter) : Prop :=
  whenSubject s' = whenSubject s.

(** The node names of [s'] are those of [s], in the same order, followed by
    new ones; and they stay pairwise distinct. *)
Definition nodesGrow (s s' : Interpreter) : Prop :=
  (exists added, Graph.allNodes (nodes s') = Graph.allNodes (nodes s) ++ added)
  /\ (NoDup (Graph.allNodes (nodes s)) -> NoDup (Graph.allNodes (nodes s'))).

(** The lines of [s'] are those of [s] followed by new ones. *)
Definition outputGrows (s s' : Interpreter) : Prop :=
  exists lines, output s' = output s ++ lines.

(** No node has two own properties of the same name. *)
Definition distinctKeys (s : Interpreter) : Prop :=
  forall n, NoDup (OMap.keys (Node.propertiesOf (nodes s) n)).

Definition isNode (s : Interpreter) (n : string) : Prop :=
  Graph.hasNode (nodes s) n = true.

(** What a value can refer to: a node, or a [Set] or array. *)
Inductive Ref : Type :=
  | NodeRef (n : string)
  | HeapRef (r : nat).

Definition live (s : Interpreter) (ref : Ref) : Prop :=
  match ref with
  | NodeRef n => isNode s n
  | HeapRef r => r < length (heap s)
  end.

Definition valueRefs (v : Value) : list Ref :=
  match v with
  | VNode n => [NodeRef n]
  | VStringSet r | VRoleList r | VNodeList r => [HeapRef r]
  | _ => []
  end.

Definition optionRefs (o : option string) : list Ref :=
  match o with Some n => [NodeRef n] | None => [] end.

Definition nodeRefs (l : list string) : list Ref := map NodeRef l.

(** Every reference held in a parents list, in a property, in the context or
    in [whenSubject] is to a node of the graph or to an allocated [Set] or
    array. *)
Definition closed (s : Interpreter) : Prop :=
  (forall n p, In p (Node.parentsOf (nodes s) n) -> isNode s p)
  /\ (forall n k v, In (k, v) (Node.propertiesOf (nodes s) n) ->
                    Forall (live s) (valueRefs v))
  /\ (forall k v, context s !! k = Some v -> Forall (live s) (valueRefs v))
  /\ (forall m, whenSubject s = Some m -> isNode s m).

(** [m], run in a closed state where the references in [known] are live,
    leaves a closed state where what was live still is; and when it returns
    [a], the references in [post a] are live. *)
Definition refsafe {A} (known : list Ref) (m : M A) (post : A -> list Ref)
  : Prop :=
  forall s, closed s -> Forall (live s) known ->
    closed (snd (m s))
    /\ (forall ref, live s ref -> live (snd (m s)) ref)
    /\ (forall a, fst (m s) = Normal a -> Forall (live (snd (m s))) (post a)).

Abbreviation nothing := (fun _ => @nil Ref).

(** What [HAS] stores for a literal: a string that names a node of the graph
    becomes a reference to that node. *)
Definition promoted (s : Interpreter) (value : Literal) : Value :=
  match value with
  | LString t => if Graph.hasNode (nodes s) t then VNode t else VString t
  | other => literalValue other
  end.

(** The quotient or remainder that the operator computes. *)
Definition quotient (op : BinaryOperator) (l d : Q) : Q :=
  match op with
  | Modulo => Js.remainder l d
  | _ => (l / d)%Q
  end.

(** * Properties *)

(** ** Sample runs *)

Example numberToString_examples :
  map Js.numberToString [100; 5 # 2; -(1 # 4); 0; -7]%Q
  = ["100"; "2.5"; "-0.25"; "0"; "-7"].
Proof. vm_compute. reflexivity. Qed.

Example print_uses_name_property :
  output (run 5 [IS "Player" "Entity";
                 SRelation "Player" "HAS" [LString "Name"; LString "Hero"];
                 SRelation "Player" "PRINT" []])
  = ["Hero"].
Proof. vm_compute. reflexivity. Qed.

Example query_is_counts_the_type_itself :
  output (run 5 [IS "Orc" "Monster"; IS "Goblin" "Monster";
                 SQuery {| isWildcard := false; variableName := Some "m" |}
                   "IS" (Some "Monster") LNull None])
  = ["Query ?m: 3 nodes found"; "  - Orc"; "  - Monster"; "  - Goblin"].
Proof. vm_compute. reflexivity. Qed.

(** Scenarios S3, S4 and S6 of the specification. *)
Example scenario_S3 :
  output (run 5 [SRelation "Goblin" "HAS" [LString "HP"; LNumber 50];
                 SHasExpression "Goblin" "HP"
                   (EBinary (EPropertyAccess (EIdentifier "Goblin") "HP")
                      Subtract (ENumber 10));
                 SExpressionPrint (EPropertyAccess (EIdentifier "Goblin") "HP")])
  = ["40"].
Proof. vm_compute. reflexivity. Qed.

Example scenario_S4 :
  output (run 5 [SRelation "Player" "HAS" [LString "HP"; LNumber 0];
                 SWhenExpression
                   (WhenExpr "Player" (EBinary (EIdentifier "HP") Equal (ENumber 0))
                      [SRelation "Player" "PRINT" []]
                      (Some [SRelation "Player" "HAS" [LString "HP"; LNumber 1]])
                      None)])
  = ["Player"].
Proof. vm_compute. reflexivity. Qed.

Example scenario_S6 :
  output (run 5 [SCan "Knight" "ATTACK"; IS "Squire" "Knight";
                 SQuery (queryVar "w") "CAN" (Some "ATTACK") LNull None])
  = ["Query ?w: 2 nodes found"; "  - Knight"; "  - Squire"].
Proof. vm_compute. reflexivity. Qed.

Example debug_graph :
  output (run 5 [IS "Player" "Entity";
                 SRelation "Player" "HAS" [LString "HP"; LNumber 100];
                 SCan "Knight" "ATTACK";
                 SDebug DebugGraph])
  = ["--- Graph State ---";
     "Node(Player) IS Entity { HP=100 }";
     "Node(Entity)";
     "Node(Knight) CAN [ATTACK]";
     "-------------------"].
Proof. vm_compute. reflexivity. Qed.

(** A relation whose body calls the relation itself uses up any bound on
    the depth. *)
Example self_calling_relation :
  fst (execute 40 [IS "Loop" "RELATION";
                   SDoBlock "Loop" [SRelation "x" "Loop" []];
                   SRelation "x" "Loop" []]
         (newInterpreter noRandom))
  = Diverge.
Proof. vm_compute. reflexivity. Qed.

(** ** Association lists and the node methods *)

Section OMapFacts.
Context {V : Type}.
Implicit Types (m : list (string * V)) (k : string).

Lemma get_set_eq m k v : OMap.get (OMap.set m k v) k = Some v.
Proof.
  induction m as [|[k' v'] m IH]; simpl.
  - by rewrite String.eqb_refl.
  - destruct (String.eqb k' k) eqn:E; simpl; rewrite E; auto.
Qed.

Lemma get_set_ne m k k' v :
  k <> k' -> OMap.get (OMap.set m k v) k' = OMap.get m k'.
Proof.
  intros Hne. induction m as [|[k0 v0] m IH]; simpl.
  - destruct (String.eqb_spec k k'); congruence.
  - destruct (String.eqb_spec k0 k) as [->|]; simpl.
    + destruct (String.eqb_spec k k'); congruence.
    + destruct (String.eqb_spec k0 k'); auto.
Qed.

Lemma get_app_None m m' k :
  OMap.get m k = None -> OMap.get (m ++ m') k = OMap.get m' k.
Proof.
  induction m as [|[k0 v0] m IH]; simpl; auto.
  destruct (String.eqb k0 k); auto. discriminate.
Qed.

Lemma get_app_Some m m' k v :
  OMap.get m k = Some v -> OMap.get (m ++ m') k = Some v.
Proof.
  induction m as [|[k0 v0] m IH]; simpl; try discriminate.
  destruct (String.eqb k0 k); auto.
Qed.
End OMapFacts.

Section NodeFacts.
Implicit Types (g : list (string * SongNode)) (n p : string).

Lemma includes_In l x : Node.includes l x = true <-> In x l.
Proof.
  unfold Node.includes. rewrite existsb_exists. split.
  - intros (y & Hy & E). apply String.eqb_eq in E. by subst.
  - intros H. exists x. split; auto. apply String.eqb_refl.
Qed.

Lemma includes_false l x : Node.includes l x = false <-> ~ In x l.
Proof.
  rewrite <- includes_In. destruct (Node.includes l x); split; congruence.
Qed.

Lemma spliceFirst_push l x : ~ In x l -> Node.spliceFirst (l ++ [x]) x = l.
Proof.
  induction l as [|y l IH]; simpl; intros H.
  - by rewrite String.eqb_refl.
  - destruct (String.eqb_spec y x) as [->|]; [tauto|]. f_equal. tauto.
Qed.

Lemma spliceFirst_absent l x : ~ In x l -> Node.spliceFirst l x = l.
Proof.
  induction l as [|y l IH]; simpl; intros H; auto.
  destruct (String.eqb_spec y x) as [->|]; [tauto|]. f_equal. tauto.
Qed.

Lemma spliceFirst_split l x :
  In x l -> exists l1 l2, l = l1 ++ x :: l2 /\ Node.spliceFirst l x = l1 ++ l2.
Proof.
  induction l as [|y l IH]; simpl; [tauto|]. intros H.
  destruct (String.eqb_spec y x) as [->|Hne].
  - by exists [], l.
  - destruct H as [?|H]; [congruence|].
    destruct (IH H) as (l1 & l2 & -> & E). exists (y :: l1), l2.
    simpl. by rewrite E.
Qed.

Lemma parentsOf_getOrCreateNode g n m :
  Node.parentsOf (Graph.getOrCreateNode g n) m = Node.parentsOf g m.
Proof.
  unfold Node.parentsOf, Graph.getOrCreateNode.
  destruct (OMap.get g n) eqn:En; auto.
  destruct (OMap.get g m) eqn:Em.
  - by rewrite (get_app_Some _ _ _ _ Em).
  - rewrite (get_app_None _ _ _ Em). simpl.
    by destruct (String.eqb n m).
Qed.

Lemma get_update g n f m :
  OMap.get (Node.update g n f) m
  = if String.eqb n m then option_map f (OMap.get g n) else OMap.get g m.
Proof.
  unfold Node.update. destruct (String.eqb_spec n m) as [->|Hne].
  - destruct (OMap.get g m) eqn:E; simpl; auto. apply get_set_eq.
  - destruct (OMap.get g n); auto. by apply get_set_ne.
Qed.

Lemma parentsOf_update g n f m :
  Node.parentsOf (Node.update g n f) m
  = if String.eqb n m
    then match OMap.get g n with Some nd => parents (f nd) | None => [] end
    else Node.parentsOf g m.
Proof.
  unfold Node.parentsOf. rewrite get_update.
  destruct (String.eqb n m); auto. by destruct (OMap.get g n).
Qed.

Lemma parentsOf_setProperty g n k v m :
  Node.parentsOf (Node.setProperty g n k v) m = Node.parentsOf g m.
Proof.
  unfold Node.setProperty. rewrite parentsOf_update.
  by destruct (String.eqb_spec n m) as [->|].
Qed.

Lemma parentsOf_removeProperty g n k m :
  Node.parentsOf (Node.removeProperty g n k) m = Node.parentsOf g m.
Proof.
  unfold Node.removeProperty. rewrite parentsOf_update.
  by destruct (String.eqb_spec n m) as [->|].
Qed.

Lemma parentsOf_addParent_other g n p m :
  n <> m -> Node.parentsOf (Node.addParent g n p) m = Node.parentsOf g m.
Proof.
  intros H. unfold Node.addParent. rewrite parentsOf_update.
  by destruct (String.eqb_spec n m).
Qed.

Lemma parentsOf_addParent_same g n p :
  Node.parentsOf (Node.addParent g n p) n
  = match OMap.get g n with
    | Some nd => if Node.includes (parents nd) p then parents nd
                 else parents nd ++ [p]
    | None => []
    end.
Proof.
  unfold Node.addParent. rewrite parentsOf_update.
  by rewrite String.eqb_refl.
Qed.

Lemma parentsOf_removeParent_other g n p m :
  n <> m -> Node.parentsOf (Node.removeParent g n p) m = Node.parentsOf g m.
Proof.
  intros H. unfold Node.removeParent. rewrite parentsOf_update.
  by destruct (String.eqb_spec n m).
Qed.

Lemma parentsOf_removeParent_same g n p :
  Node.parentsOf (Node.removeParent g n p) n
  = Node.spliceFirst (Node.parentsOf g n) p.
Proof.
  unfold Node.removeParent. rewrite parentsOf_update.
  rewrite String.eqb_refl. unfold Node.parentsOf.
  by destruct (OMap.get g n).
Qed.
End NodeFacts.

(** ** The ancestry test [is] and cycles of IS edges *)

Lemma get_In {V} (m : list (string * V)) k v :
  OMap.get m k = Some v -> In (k, v) m.
Proof.
  induction m as [|[k' v'] m IH]; simpl; [discriminate|].
  destruct (String.eqb_spec k' k) as [->|]; [intros [= ->]|]; auto.
Qed.

Lemma ranked_parents rank g n p :
  ranked rank g = true -> In p (Node.parentsOf g n) -> (rank p < rank n)%nat.
Proof.
  unfold ranked, Node.parentsOf. intros R Hp.
  destruct (OMap.get g n) as [nd|] eqn:E; [|destruct Hp].
  apply get_In in E. rewrite forallb_forall in R.
  specialize (R _ E). simpl in R. rewrite forallb_forall in R.
  apply Nat.ltb_lt. by apply R.
Qed.

Lemma anyParent_settles (check : nat -> string -> option bool) k ps :
  (forall p, In p ps -> exists b, forall fuel, (k <= fuel)%nat -> check fuel p = Some b) ->
  exists b, forall fuel, (k <= fuel)%nat -> Node.anyParent (check fuel) ps = Some b.
Proof.
  induction ps as [|p ps IH]; intros H.
  - by exists false.
  - destruct (H p) as [b Hb]; [by left|].
    destruct IH as [b' Hb']; [intros q Hq; apply H; by right|].
    exists (if b then true else b'). intros fuel Hf. simpl.
    rewrite (Hb fuel Hf). destruct b; auto.
Qed.

Lemma is_settles rank g typeName :
  ranked rank g = true ->
  forall k n, (rank n < k)%nat ->
  exists b, forall fuel, (k <= fuel)%nat -> Node.is_ fuel g n typeName = Some b.
Proof.
  intros R. induction k as [|k IH]; intros n Hn; [lia|].
  destruct (String.eqb n typeName) eqn:E.
  - exists true. intros [|fuel] Hf; [lia|]. simpl. by rewrite E.
  - destruct (anyParent_settles (fun fuel p => Node.is_ fuel g p typeName) k
                (Node.parentsOf g n)) as [b Hb].
    + intros p Hp. apply IH. pose proof (ranked_parents _ _ _ _ R Hp). lia.
    + exists b. intros [|fuel] Hf; [lia|]. simpl. rewrite E. apply Hb. lia.
Qed.

Example selfIs_parents : Node.parentsOf (nodes selfIs) "X" = ["X"].
Proof. vm_compute. reflexivity. Qed.

(** C1, as stated, fails: after the direct self-IS [X IS X], a state reached
    by executing one statement, the test [X.is("Y")] has no result, whatever
    the bound on the recursion depth. *)
Lemma is_after_self_IS_never_returns :
  reachable selfIs /\
  forall fuel, Node.is_ fuel (nodes selfIs) "X" "Y" = None.
Proof.
  split.
  - apply (reachable_execute 2 [IS "X" "X"]). constructor.
  - induction fuel as [|fuel IH]; [reflexivity|].
    change (Node.is_ (S fuel) (nodes selfIs) "X" "Y")
      with (Node.anyParent (fun p => Node.is_ fuel (nodes selfIs) p "Y") ["X"]).
    simpl. by rewrite IH.
Qed.

(** A node answers true to its own name, cycle or not. *)
Lemma is_own_name (g : list (string * SongNode)) (n : string) (fuel : nat) :
  Node.is_ (S fuel) g n n = Some true.
Proof. simpl. by rewrite String.eqb_refl. Qed.

(** C1, amended: on a graph whose IS edges admit a strictly decreasing rank
    (so they form no cycle), [n.is(t)] returns a boolean for every node and
    every type name, the same one for every sufficient bound on the depth. *)
Theorem is_returns_without_cycles (g : list (string * SongNode))
    (rank : string -> nat) (n t : string) :
  ranked rank g = true ->
  exists b, forall fuel, (rank n < fuel)%nat -> Node.is_ fuel g n t = Some b.
Proof.
  intros R.
  destruct (is_settles rank g t R (S (rank n)) n) as [b Hb]; [lia|].
  exists b. intros fuel Hf. apply Hb. lia.
Qed.

Lemma is_returns_without_cycles_witness :
  ranked rankOrcMonster (nodes (run 2 [IS "Orc" "Monster"])) = true /\
  exists b, forall fuel, (rankOrcMonster "Orc" < fuel)%nat ->
    Node.is_ fuel (nodes (run 2 [IS "Orc" "Monster"])) "Orc" "Monster" = Some b.
Proof.
  split; [reflexivity|].
  apply (is_returns_without_cycles
           (nodes (run 2 [IS "Orc" "Monster"])) rankOrcMonster "Orc" "Monster").
  reflexivity.
Defined.

(** ** Running single statements *)

Lemma resolveNode_run name s :
  resolveNode name s = (Normal (resolveName s name), resolveState s name).
Proof.
  unfold resolveNode, resolveName, resolveState, bind, contextGet, gets.
  destruct (context s !! name) as [[]|]; reflexivity.
Qed.

Lemma context_resolveState s name : context (resolveState s name) = context s.
Proof. unfold resolveState. by destruct (context s !! name) as [[]|]. Qed.

Lemma resolveName_resolveState s name name' :
  resolveName (resolveState s name) name' = resolveName s name'.
Proof. unfold resolveName. by rewrite context_resolveState. Qed.

Lemma parentsOf_resolveState s name m :
  Node.parentsOf (nodes (resolveState s name)) m = Node.parentsOf (nodes s) m.
Proof.
  unfold resolveState.
  destruct (context s !! name) as [[]|]; simpl; auto using parentsOf_getOrCreateNode.
Qed.

Lemma hasNode_getOrCreateNode_same g n :
  Graph.hasNode (Graph.getOrCreateNode g n) n = true.
Proof.
  unfold Graph.hasNode, OMap.has, Graph.getOrCreateNode.
  destruct (OMap.get g n) eqn:E; [by rewrite E|].
  rewrite (get_app_None _ _ _ E). simpl. by rewrite String.eqb_refl.
Qed.

Lemma hasNode_getOrCreateNode g n m :
  Graph.hasNode g m = true -> Graph.hasNode (Graph.getOrCreateNode g n) m = true.
Proof.
  unfold Graph.hasNode, OMap.has, Graph.getOrCreateNode.
  destruct (OMap.get g n); auto.
  destruct (OMap.get g m) eqn:E; [|discriminate].
  by rewrite (get_app_Some _ _ _ _ E).
Qed.

Lemma hasNode_update g n f m :
  Graph.hasNode (Node.update g n f) m = Graph.hasNode g m.
Proof.
  unfold Graph.hasNode, OMap.has. rewrite get_update.
  destruct (String.eqb_spec n m) as [->|]; auto.
  by destruct (OMap.get g m).
Qed.

Lemma hasNode_resolveState s name m :
  Graph.hasNode (nodes s) m = true ->
  Graph.hasNode (nodes (resolveState s name)) m = true.
Proof.
  unfold resolveState.
  destruct (context s !! name) as [[]|]; simpl; auto using hasNode_getOrCreateNode.
Qed.

Lemma executeIs_run fuel subject type s :
  executeStatement (S fuel) (IS subject type) s = (Normal tt, afterIs s subject type).
Proof.
  simpl. unfold executeRelation. unfold bind at 1. rewrite resolveNode_run.
  simpl. unfold executeIs. simpl. unfold bind at 1. rewrite resolveNode_run.
  by rewrite resolveName_resolveState.
Qed.

Lemma resolveNodeOrNull_run name s :
  resolveNodeOrNull name s = (Normal (resolveNameOrNull s name), s).
Proof.
  unfold resolveNodeOrNull, resolveNameOrNull, bind, contextGet, gets, graphGetNode.
  destruct (context s !! name) as [[]|]; reflexivity.
Qed.

Lemma executeLosesIs_run fuel subject target s :
  executeStatement (S fuel) (SLoses subject target LosesIs) s
  = (Normal tt, afterLosesIs s subject target).
Proof.
  simpl. unfold executeLoses. unfold bind at 1. rewrite resolveNode_run.
  unfold bind. rewrite resolveNodeOrNull_run. unfold afterLosesIs.
  by destruct (resolveNameOrNull _ target).
Qed.

Lemma context_afterIs s subject type : context (afterIs s subject type) = context s.
Proof. unfold afterIs. simpl. by rewrite !context_resolveState. Qed.

Lemma resolveName_afterIs s subject type name :
  resolveName (afterIs s subject type) name = resolveName s name.
Proof. unfold resolveName. by rewrite context_afterIs. Qed.

(** After [subject IS type] the parent is found again by [LOSES IS type]. *)
Lemma resolveNameOrNull_afterIs s subject type :
  resolveNameOrNull (resolveState (afterIs s subject type) subject) type
  = Some (resolveName s type).
Proof.
  unfold resolveNameOrNull, resolveName.
  rewrite context_resolveState, context_afterIs.
  assert (H : (forall n, context s !! type <> Some (VNode n)) ->
              Graph.hasNode
                (nodes (resolveState (afterIs s subject type) subject)) type = true).
  { intros Hctx. apply hasNode_resolveState. unfold afterIs. simpl.
    unfold Node.addParent. rewrite hasNode_update. unfold resolveState at 1.
    rewrite context_resolveState.
    destruct (context s !! type) as [[]|] eqn:E; simpl;
      try apply hasNode_getOrCreateNode_same.
    by destruct (Hctx name). }
  destruct (context s !! type) as [[]|]; auto; by rewrite H.
Qed.

Lemma splice_after_addParent g n p :
  ~ In p (Node.parentsOf g n) ->
  Node.spliceFirst (Node.parentsOf (Node.addParent g n p) n) p = Node.parentsOf g n.
Proof.
  intros H. rewrite parentsOf_addParent_same. unfold Node.parentsOf in *.
  destruct (OMap.get g n) as [nd|]; auto.
  apply includes_false in H as E. rewrite E. by apply spliceFirst_push.
Qed.

(** ** LOSES IS after IS *)

(** C3, as stated, fails for a parents list that already contains T: the IS
    changes nothing and the LOSES IS then removes T. *)
Lemma loses_is_after_redundant_is_drops_parent :
  let s := run 2 [IS "Squire" "Knight"] in
  let s' := snd (execute 2 [IS "Squire" "Knight";
                            SLoses "Squire" "Knight" LosesIs] s) in
  Node.parentsOf (nodes s) "Squire" = ["Knight"] /\
  Node.parentsOf (nodes s') "Squire" = [] /\
  Node.parentsOf (nodes s') "Squire" <> Node.parentsOf (nodes s) "Squire".
Proof. vm_compute. repeat split; discriminate. Qed.

(** C3, amended: when the parents list of S does not already contain T,
    [S IS T] followed by [S LOSES IS T] ends normally and leaves the parents
    list of S as it was. S and T are resolved as the interpreter resolves
    them: through the context first. *)
Theorem loses_is_after_is_restores (fuel : nat) (s : Interpreter)
    (subject type : string) :
  ~ In (resolveName s type) (Node.parentsOf (nodes s) (resolveName s subject)) ->
  exists s',
    execute (S fuel) [IS subject type; SLoses subject type LosesIs] s
    = (Normal tt, s')
    /\ Node.parentsOf (nodes s') (resolveName s subject)
       = Node.parentsOf (nodes s) (resolveName s subject).
Proof.
  intros Hnew. eexists. split.
  - unfold execute, forEach. unfold bind at 1. rewrite executeIs_run.
    unfold bind at 1. rewrite executeLosesIs_run. reflexivity.
  - unfold afterLosesIs.
    rewrite resolveNameOrNull_afterIs, resolveName_afterIs. simpl.
    rewrite parentsOf_removeParent_same, parentsOf_resolveState.
    unfold afterIs. simpl.
    rewrite splice_after_addParent; by rewrite !parentsOf_resolveState.
Qed.

Lemma loses_is_after_is_restores_witness :
  exists s',
    execute 1 [IS "Squire" "Knight"; SLoses "Squire" "Knight" LosesIs]
      (newInterpreter noRandom) = (Normal tt, s')
    /\ Node.parentsOf (nodes s') "Squire" = [].
Proof.
  apply (loses_is_after_is_restores 0 (newInterpreter noRandom) "Squire" "Knight").
  vm_compute. tauto.
Defined.

(** ** The legacy WHEN on a subject that is not in the graph *)

Lemma graphGetNode_None s name :
  Graph.getNode (nodes s) name = None -> graphGetNode name s = (Normal None, s).
Proof.
  unfold graphGetNode, gets, Graph.hasNode, OMap.has, Graph.getNode.
  by intros ->.
Qed.

Lemma graphGetNode_Some s name :
  Graph.hasNode (nodes s) name = true -> graphGetNode name s = (Normal (Some name), s).
Proof. unfold graphGetNode, gets. by intros ->. Qed.

(** C10: a legacy WHEN whose condition is a relation statement on a subject
    that names no node of the graph evaluates its condition to false, and
    executing it ends normally in the very same state: no body, no error, no
    node created. Executing a relation statement, by contrast, resolves its
    subject with [getOrCreateNode]. *)
Theorem when_on_unknown_subject (fuel : nat) (s : Interpreter)
    (subject relation : string) (arguments : list Literal) (body : list Statement) :
  Graph.getNode (nodes s) subject = None ->
  evaluateCondition fuel (SRelation subject relation arguments) s = (Normal false, s)
  /\ executeStatement (S fuel)
       (SWhen (SRelation subject relation arguments) body) s = (Normal tt, s)
  /\ (context s !! subject = None ->
      Graph.hasNode (nodes (snd (resolveNode subject s))) subject = true).
Proof.
  intros Hnone.
  assert (E : evaluateCondition fuel (SRelation subject relation arguments) s
              = (Normal false, s)).
  { unfold evaluateCondition, bind. by rewrite graphGetNode_None. }
  split; [exact E|]. split.
  - simpl. unfold executeWhen, bind. by rewrite E.
  - intros Hctx. rewrite resolveNode_run. unfold resolveState. rewrite Hctx.
    apply hasNode_getOrCreateNode_same.
Qed.

Lemma when_on_unknown_subject_witness :
  evaluateCondition 1 (SRelation "Ghost" "HAS" [LString "HP"])
    (newInterpreter noRandom) = (Normal false, newInterpreter noRandom)
  /\ executeStatement 2
       (SWhen (SRelation "Ghost" "HAS" [LString "HP"])
          [SRelation "Ghost" "PRINT" []])
       (newInterpreter noRandom) = (Normal tt, newInterpreter noRandom)
  /\ (context (newInterpreter noRandom) !! "Ghost" = None ->
      Graph.hasNode (nodes (snd (resolveNode "Ghost" (newInterpreter noRandom))))
        "Ghost" = true).
Proof.
  apply (when_on_unknown_subject 1 (newInterpreter noRandom) "Ghost" "HAS"
           [LString "HP"] [SRelation "Ghost" "PRINT" []]).
  reflexivity.
Defined.

(** ** HAS without a value, then HAS as a legacy WHEN condition *)

Lemma propertiesOf_setProperty_same g n k v :
  Graph.hasNode g n = true ->
  OMap.get (Node.propertiesOf (Node.setProperty g n k v) n) k = Some v.
Proof.
  unfold Graph.hasNode, OMap.has, Node.propertiesOf, Node.setProperty.
  intros H. rewrite get_update, String.eqb_refl.
  destruct (OMap.get g n); [|discriminate]. simpl. apply get_set_eq.
Qed.

Lemma hasNode_resolveState_same s name :
  (forall n, context s !! name <> Some (VNode n)) ->
  Graph.hasNode (nodes (resolveState s name)) name = true.
Proof.
  intros H. unfold resolveState.
  destruct (context s !! name) as [[]|] eqn:E; simpl;
    try apply hasNode_getOrCreateNode_same.
  by destruct (H name0).
Qed.

Lemma resolveName_graph s name :
  (forall n, context s !! name <> Some (VNode n)) -> resolveName s name = name.
Proof.
  intros H. unfold resolveName.
  destruct (context s !! name) as [[]|] eqn:E; auto. by destruct (H name0).
Qed.

Lemma getProperty_own fuel g n name v :
  OMap.get (Node.propertiesOf g n) name = Some v ->
  Node.getProperty (S fuel) g n name = Some v.
Proof. simpl. by intros ->. Qed.

Lemma executeHasNothing_run fuel subject property s :
  executeStatement (S fuel) (SRelation subject "HAS" [LString property]) s
  = (Normal tt, afterHasNothing s subject property).
Proof.
  simpl. unfold executeRelation. unfold bind at 1. by rewrite resolveNode_run.
Qed.

(** C6, as stated, fails: after [Player HAS Shield] the property is stored as
    null, and the legacy condition [Player HAS Shield] is false, so the body
    of the WHEN does not run (nothing is printed). *)
Lemma has_condition_false_after_valueless_has :
  let s := run 2 [SRelation "Player" "HAS" [LString "Shield"]] in
  evaluateCondition 5 (SRelation "Player" "HAS" [LString "Shield"]) s
  = (Normal false, s)
  /\ output (snd (executeStatement 5
                   (SWhen (SRelation "Player" "HAS" [LString "Shield"])
                      [SRelation "Player" "PRINT" []]) s)) = [].
Proof. vm_compute. split; reflexivity. Qed.

(** C6, amended: after [X HAS P] with no value, P is an own property of X
    holding null; the legacy condition [X HAS P] with no value tests for a
    value that is not null, so it evaluates to false and a following
    [X HAS P WHEN DO body END] leaves the state as it is. X is a name the
    context does not bind to a node. *)
Theorem has_without_value_is_not_seen_by_when (fuel : nat) (s : Interpreter)
    (x p : string) (body : list Statement) :
  (forall n, context s !! x <> Some (VNode n)) ->
  exists s1,
    executeStatement (S fuel) (SRelation x "HAS" [LString p]) s = (Normal tt, s1)
    /\ OMap.get (Node.propertiesOf (nodes s1) x) p = Some VNull
    /\ evaluateCondition (S fuel) (SRelation x "HAS" [LString p]) s1
       = (Normal false, s1)
    /\ executeStatement (S (S fuel)) (SWhen (SRelation x "HAS" [LString p]) body) s1
       = (Normal tt, s1).
Proof.
  intros Hctx. exists (afterHasNothing s x p).
  assert (Hown : OMap.get (Node.propertiesOf (nodes (afterHasNothing s x p)) x) p
                 = Some VNull).
  { unfold afterHasNothing. simpl. rewrite (resolveName_graph _ _ Hctx).
    apply propertiesOf_setProperty_same. by apply hasNode_resolveState_same. }
  assert (Hnode : Graph.hasNode (nodes (afterHasNothing s x p)) x = true).
  { unfold afterHasNothing. simpl. unfold Node.setProperty.
    rewrite hasNode_update. by apply hasNode_resolveState_same. }
  assert (Hcond : evaluateCondition (S fuel) (SRelation x "HAS" [LString p])
                    (afterHasNothing s x p)
                  = (Normal false, afterHasNothing s x p)).
  { unfold evaluateCondition. unfold bind at 1. rewrite (graphGetNode_Some _ _ Hnode).
    change (String.eqb (Js.toUpperCase "HAS") "HAS") with true.
    unfold evaluateHasCondition, bind, nodeGetProperty, walk.
    change ([LString p] !! 0%nat) with (Some (LString p)).
    change ([LString p] !! 1%nat) with (@None Literal).
    cbn [nullish literalString].
    by rewrite (getProperty_own _ _ _ _ _ Hown). }
  split; [apply executeHasNothing_run|]. split; [exact Hown|].
  split; [exact Hcond|].
  change (executeWhen (S fuel) (forEach (executeStatement (S fuel)))
            (SRelation x "HAS" [LString p]) body (afterHasNothing s x p)
          = (Normal tt, afterHasNothing s x p)).
  unfold executeWhen, bind. by rewrite Hcond.
Qed.

Lemma has_without_value_is_not_seen_by_when_witness :
  exists s1,
    executeStatement 1 (SRelation "Player" "HAS" [LString "Shield"])
      (newInterpreter noRandom) = (Normal tt, s1)
    /\ OMap.get (Node.propertiesOf (nodes s1) "Player") "Shield" = Some VNull
    /\ evaluateCondition 1 (SRelation "Player" "HAS" [LString "Shield"]) s1
       = (Normal false, s1)
    /\ executeStatement 2
         (SWhen (SRelation "Player" "HAS" [LString "Shield"])
            [SRelation "Player" "PRINT" []]) s1
       = (Normal tt, s1).
Proof.
  apply (has_without_value_is_not_seen_by_when 0 (newInterpreter noRandom)
           "Player" "Shield" [SRelation "Player" "PRINT" []]).
  intros n. vm_compute. discriminate.
Defined.

(** ** CHANCE and RANDOM *)

Lemma floor_nonneg (x : Q) : (0 <= x)%Q -> (0 <= Qfloor x)%Z.
Proof. intros H. change 0%Z with (Qfloor 0). by apply Qfloor_resp_le. Qed.

Lemma floor_below (x : Q) (n : Z) : (x < inject_Z n)%Q -> (Qfloor x < n)%Z.
Proof.
  intros H. rewrite Zlt_Qlt. eapply Qle_lt_trans; [apply Qfloor_le|exact H].
Qed.

(** [Math.floor(Math.random() * 100)] is an integer from 0 to 99. *)
Lemma roll_range (u : Q) :
  (0 <= u)%Q -> (u < 1)%Q -> (0 <= Qfloor (u * 100) <= 99)%Z.
Proof.
  intros H0 H1. split.
  - apply floor_nonneg. apply Qmult_le_0_compat; [exact H0|discriminate].
  - assert (Qfloor (u * 100) < 100)%Z; [|lia].
    apply floor_below. change (inject_Z 100) with (1 * 100)%Q.
    apply Qmult_lt_compat_r; [reflexivity|exact H1].
Qed.

(** C8: whatever the draw in [0,1), [CHANCE 0 DO body END] behaves as its
    else branch alone (as nothing, when there is none), and
    [CHANCE 100 DO body END] behaves as its body; the only other effect is
    that one draw has been consumed. *)
Theorem chance_0_never_chance_100_always (fuel : nat) (s : Interpreter)
    (body : list Statement) (elseBody : option (list Statement)) :
  (0 <= randomSource s (randomIndex s))%Q ->
  (randomSource s (randomIndex s) < 1)%Q ->
  executeStatement (S fuel) (SChance (ENumber 0) body elseBody) s
  = match elseBody with
    | Some b => execute fuel b (set_randomIndex (S (randomIndex s)) s)
    | None => (Normal tt, set_randomIndex (S (randomIndex s)) s)
    end
  /\ executeStatement (S fuel) (SChance (ENumber 100) body elseBody) s
     = execute fuel body (set_randomIndex (S (randomIndex s)) s).
Proof.
  intros H0 H1. pose proof (roll_range _ H0 H1) as [Hlo Hhi].
  split.
  - change (executeChance fuel (forEach (executeStatement fuel)) (ENumber 0)
              body elseBody s
            = match elseBody with
              | Some b => execute fuel b (set_randomIndex (S (randomIndex s)) s)
              | None => (Normal tt, set_randomIndex (S (randomIndex s)) s)
              end).
    unfold executeChance, bind. cbn [evaluateExpression ret toNumber Math_random].
    destruct (Qlt_le_dec _ _) as [Hlt|Hle]; [|by destruct elseBody].
    exfalso. unfold Js.floor in Hlt. change 0%Q with (inject_Z 0) in Hlt.
    rewrite <- Zlt_Qlt in Hlt. lia.
  - change (executeChance fuel (forEach (executeStatement fuel)) (ENumber 100)
              body elseBody s
            = execute fuel body (set_randomIndex (S (randomIndex s)) s)).
    unfold executeChance, bind. cbn [evaluateExpression ret toNumber Math_random].
    destruct (Qlt_le_dec _ _) as [Hlt|Hle]; [reflexivity|].
    exfalso.
    assert (Hle' : (inject_Z 100
                    <= inject_Z (Qfloor (randomSource s (randomIndex s) * 100)))%Q)
      by exact Hle.
    rewrite <- Zle_Qle in Hle'. lia.
Qed.

Lemma chance_0_never_chance_100_always_witness :
  executeStatement 2
    (SChance (ENumber 0) [SRelation "Hit" "PRINT" []] None)
    (newInterpreter halfRandom)
  = (Normal tt, set_randomIndex 1 (newInterpreter halfRandom))
  /\ executeStatement 2
       (SChance (ENumber 100) [SRelation "Hit" "PRINT" []] None)
       (newInterpreter halfRandom)
     = execute 1 [SRelation "Hit" "PRINT" []]
         (set_randomIndex 1 (newInterpreter halfRandom)).
Proof.
  apply (chance_0_never_chance_100_always 1 (newInterpreter halfRandom)
           [SRelation "Hit" "PRINT" []] None).
  - vm_compute. discriminate.
  - vm_compute. reflexivity.
Defined.

(** [Math.floor(u * (max - min + 1)) + min] for integers [min <= max] and a
    draw [u] in [0,1) is an integer from [min] to [max]. *)
Lemma randomInRange_bounds (u : Q) (lo hi : Z) :
  (0 <= u)%Q -> (u < 1)%Q -> (lo <= hi)%Z ->
  exists r : Z,
    (randomInRange u (inject_Z lo) (inject_Z hi) == inject_Z r)%Q
    /\ (lo <= r <= hi)%Z.
Proof.
  intros H0 H1 Hle.
  set (width := (inject_Z hi - inject_Z lo + 1)%Q).
  assert (Hw : (width == inject_Z (hi - lo + 1))%Q).
  { unfold width, Z.sub. rewrite !inject_Z_plus, inject_Z_opp. reflexivity. }
  exists (Qfloor (u * width) + lo)%Z. split.
  - unfold randomInRange, Js.floor. fold width. by rewrite inject_Z_plus.
  - assert (0 <= Qfloor (u * width))%Z.
    { apply floor_nonneg. apply Qmult_le_0_compat; [exact H0|].
      rewrite Hw. change 0%Q with (inject_Z 0). rewrite <- Zle_Qle. lia. }
    assert (Qfloor (u * width) < hi - lo + 1)%Z; [|lia].
    apply floor_below. rewrite <- Hw.
    rewrite <- (Qmult_1_l width) at 2.
    apply Qmult_lt_compat_r; [|exact H1].
    rewrite Hw. change 0%Q with (inject_Z 0). rewrite <- Zlt_Qlt. lia.
Qed.




(** ** Role bindings of a user-defined relation *)

Lemma bind_normal {A B} (m : M A) (k : A -> M B) s a s1 :
  m s = (Normal a, s1) -> bind m k s = k a s1.
Proof. unfold bind. by intros ->. Qed.

Lemma bind_ret {A B} (a : A) (k : A -> M B) s : bind (ret a) k s = k a s.
Proof. reflexivity. Qed.

(** The loop [for (const role of roles) this.context.delete(role)]. *)
Lemma forEach_contextDelete roles : forall s,
  exists s',
    forEach contextDelete roles s = (Normal tt, s')
    /\ heap s' = heap s
    /\ (forall name, context s !! name = None -> context s' !! name = None)
    /\ (forall role, In role roles -> context s' !! role = None).
Proof.
  induction roles as [|role roles IH]; intros s.
  - exists s. repeat split; auto. intros role [].
  - destruct (IH (set_context (delete role (context s)) s))
      as (s' & Hrun & Hheap & Hkeep & Hgone).
    exists s'. split; [|split; [exact Hheap|split]].
    + cbn [forEach]. unfold bind, contextDelete, modify. exact Hrun.
    + intros name Hname. apply Hkeep. simpl.
      destruct (decide (role = name)) as [->|Hne].
      * apply lookup_delete_eq.
      * by rewrite lookup_delete_ne.
    + intros x [<-|Hx]; [|by apply Hgone].
      apply Hkeep. simpl. apply lookup_delete_eq.
Qed.

(** When the body of a relation with declared roles ends normally, every name
    then in the relation's [_Roles] is unbound. *)
Lemma roles_unbound_after_normal_body (fuel : nat) (exec : list Statement -> M unit)
    (subject relation : string) (arguments : list Literal) (s s' : Interpreter)
    (body : list Statement) (r : nat) (role0 : string) (roles : list string) :
  Graph.hasNode (nodes s) relation = true ->
  Node.is_ fuel (nodes s) relation "RELATION" = Some true ->
  Node.getProperty fuel (nodes s) relation "_DoBody" = Some (VStatementList body) ->
  Node.getProperty fuel (nodes s) relation "_Roles" = Some (VRoleList r) ->
  heap s !! r = Some (role0 :: roles) ->
  executeCustomRelation fuel exec subject relation arguments s = (Normal tt, s') ->
  forall role, In role (default [] (heap s' !! r)) -> context s' !! role = None.
Proof.
  intros Hnode His Hbody Hroles Hheap Hrun role Hrole.
  assert (E1 : nodeIs fuel relation "RELATION" s = (Normal true, s))
    by (unfold nodeIs, walk; by rewrite His).
  assert (E2 : nodeGetProperty fuel relation "_DoBody" s
               = (Normal (VStatementList body), s))
    by (unfold nodeGetProperty, walk; by rewrite Hbody).
  assert (E3 : nodeGetProperty fuel relation "_Roles" s = (Normal (VRoleList r), s))
    by (unfold nodeGetProperty, walk; by rewrite Hroles).
  assert (E4 : heapGet r s = (Normal (role0 :: roles), s))
    by (unfold heapGet, gets; by rewrite Hheap).
  unfold executeCustomRelation in Hrun.
  rewrite (bind_normal _ _ _ _ _ (graphGetNode_Some _ _ Hnode)) in Hrun.
  rewrite (bind_normal _ _ _ _ _ E1) in Hrun. cbn [negb] in Hrun.
  rewrite (bind_normal _ _ _ _ _ E2) in Hrun.
  unfold asStatementList in Hrun. rewrite bind_ret in Hrun.
  rewrite (bind_normal _ _ _ _ _ E3) in Hrun.
  unfold asRoleList in Hrun. rewrite bind_ret in Hrun.
  rewrite (bind_normal _ _ _ _ _ E4) in Hrun.
  unfold bind at 1, contextSet at 1, modify at 1 in Hrun.
  unfold bind at 1 in Hrun.
  destruct (bindRoleArguments _ _ _) as [[[]|e|] s2]; try discriminate.
  unfold bind at 1 in Hrun.
  destruct (exec body s2) as [[[]|e|] s3]; try discriminate.
  unfold bind at 1, heapGet at 1, gets in Hrun.
  destruct (forEach_contextDelete (default [] (heap s3 !! r)) s3)
    as (s4 & Hdel & Hheap4 & _ & Hgone).
  rewrite Hdel in Hrun. injection Hrun as <-.
  apply Hgone. by rewrite <- Hheap4.
Qed.

(** When the body ends normally the role is unbound again. *)
Example attack_role_unbound_after_normal_body :
  let r := execute 3 [SRelation "Player" "Attack" []]
             (defineAttack [SRelation "Attacker" "PRINT" []]) in
  fst r = Normal tt
  /\ output (snd r) = ["Player"]
  /\ context (snd r) !! "Attacker" = None.
Proof. vm_compute. repeat split; reflexivity. Qed.

(** C2 on the exception path: the body [Ghost.HP PRINT] throws NodeNotFound
    out of [executeCustomRelation]; the loop that deletes the roles is never
    reached and [Attacker] stays bound to [Player]. *)
Lemma role_stays_bound_after_throwing_body :
  let r := execute 3 [SRelation "Player" "Attack" []]
             (defineAttack
                [SExpressionPrint (EPropertyAccess (EIdentifier "Ghost") "HP")]) in
  fst r = Throw (SongError NodeNotFound)
  /\ context (snd r) !! "Attacker" = Some (VNode "Player").
Proof. vm_compute. split; reflexivity. Qed.

(** ** CAN on a node that inherits its abilities *)

(** [executeCan] when the inherited lookup of [_Abilities] finds nothing: a
    new set holding the ability becomes the subject's own property. *)
Lemma executeCan_creates_set (fuel : nat) (subject ability : string) (s : Interpreter) :
  let child := resolveName s subject in
  let s1 := resolveState s subject in
  Node.getProperty fuel (nodes s1) child "_Abilities" = Some VNull ->
  executeCan fuel subject ability s
  = (Normal tt,
     set_heap (heap s ++ [[ability]])
       (set_nodes
          (Node.setProperty (nodes s1) child "_Abilities"
             (VStringSet (length (heap s))))
          s1)).
Proof.
  intros child s1 Hget. unfold executeCan.
  rewrite (bind_normal _ _ _ _ _ (resolveNode_run _ _)). fold child s1.
  assert (E : nodeGetProperty fuel child "_Abilities" s1 = (Normal VNull, s1))
    by (unfold nodeGetProperty, walk; by rewrite Hget).
  rewrite (bind_normal _ _ _ _ _ E).
  assert (Hheap : heap s1 = heap s).
  { unfold s1, resolveState. by destruct (context s !! subject) as [[]|]. }
  unfold bind, asStringSet, ret, heapAlloc, nodeSetProperty, modify, heapGet,
    gets, heapSet. simpl. rewrite Hheap.
  assert (Hset : <[length (heap s) :=
                    setAdd (default [] ((heap s ++ [[]]) !! length (heap s))) ability]>
                  (heap s ++ [[]])
                = heap s ++ [[ability]]).
  { rewrite lookup_app_r, Nat.sub_diag by done.
    rewrite <- (Nat.add_0_r (length (heap s))) at 1. by rewrite insert_app_r. }
  unfold modify, set_heap, set_nodes. simpl. by rewrite Hset.
Qed.

(** [executeCan] when the inherited lookup of [_Abilities] finds a set, be
    it the subject's own or an ancestor's: the ability is added to that set
    and no node gets a new property. *)
Lemma executeCan_adds_to_found_set (fuel : nat) (subject ability : string)
    (s : Interpreter) (r : nat) :
  let child := resolveName s subject in
  let s1 := resolveState s subject in
  Node.getProperty fuel (nodes s1) child "_Abilities" = Some (VStringSet r) ->
  executeCan fuel subject ability s
  = (Normal tt,
     set_heap (<[r := setAdd (default [] (heap s !! r)) ability]> (heap s)) s1).
Proof.
  intros child s1 Hget. unfold executeCan.
  rewrite (bind_normal _ _ _ _ _ (resolveNode_run _ _)). fold child s1.
  assert (E : nodeGetProperty fuel child "_Abilities" s1
              = (Normal (VStringSet r), s1))
    by (unfold nodeGetProperty, walk; by rewrite Hget).
  rewrite (bind_normal _ _ _ _ _ E).
  assert (Hheap : heap s1 = heap s).
  { unfold s1, resolveState. by destruct (context s !! subject) as [[]|]. }
  unfold bind, asStringSet, ret, heapGet, gets, heapSet, modify. simpl.
  by rewrite Hheap.
Qed.

(** C4 on a child of a node that has abilities: [executeCan] fetches
    [_Abilities] with the inherited lookup, finds the parent's set and adds
    to it. The child gets no set of its own and the parent gains the
    ability. *)
Lemma can_on_child_adds_to_parent_set :
  let s := run 3 [SCan "Knight" "ATTACK";
                  IS "Squire" "Knight";
                  SCan "Squire" "DEFEND"] in
  Node.propertiesOf (nodes s) "Squire" = []
  /\ Node.propertiesOf (nodes s) "Knight" = [("_Abilities", VStringSet 0)]
  /\ heap s = [["ATTACK"; "DEFEND"]]
  /\ fst (nodeCan 3 "Knight" "DEFEND" s) = Normal true.
Proof. vm_compute. repeat split; reflexivity. Qed.

(** On a node without ancestors that have abilities the set is the node's
    own, created on first use. *)
Example can_creates_own_set :
  let s := run 3 [IS "Squire" "Knight"; SCan "Squire" "DEFEND"] in
  Node.propertiesOf (nodes s) "Squire" = [("_Abilities", VStringSet 0)]
  /\ Node.propertiesOf (nodes s) "Knight" = []
  /\ heap s = [["DEFEND"]].
Proof. vm_compute. repeat split; reflexivity. Qed.

(** ** The WHERE filter of a query *)

Lemma set_randomIndex_same s : s = set_randomIndex (randomIndex s) s.
Proof. by destruct s. Qed.

Lemma onlyDraws_ret {A} (a : A) : onlyDraws (ret a).
Proof. intros s. exists (randomIndex s). apply set_randomIndex_same. Qed.

Lemma onlyDraws_throw {A} e : onlyDraws (@throw A e).
Proof. intros s. exists (randomIndex s). apply set_randomIndex_same. Qed.

Lemma onlyDraws_gets {A} (f : Interpreter -> A) : onlyDraws (gets f).
Proof. intros s. exists (randomIndex s). apply set_randomIndex_same. Qed.

Lemma onlyDraws_walk {A} (f : Interpreter -> option A) : onlyDraws (walk f).
Proof.
  intros s. exists (randomIndex s). unfold walk.
  destruct (f s); apply set_randomIndex_same.
Qed.

Lemma onlyDraws_random : onlyDraws Math_random.
Proof. intros s. by exists (S (randomIndex s)). Qed.

Lemma onlyDraws_bind {A B} (m : M A) (k : A -> M B) :
  onlyDraws m -> (forall a, onlyDraws (k a)) -> onlyDraws (bind m k).
Proof.
  intros Hm Hk s. unfold bind. destruct (Hm s) as [i Hi].
  destruct (m s) as [[a|e|] s']; simpl in Hi; subst s'; try by exists i.
  destruct (Hk a (set_randomIndex i s)) as [j Hj]. exists j. by rewrite Hj.
Qed.

Create HintDb draws.
#[local] Hint Resolve onlyDraws_ret onlyDraws_throw onlyDraws_gets onlyDraws_walk
  onlyDraws_random : draws.

Ltac only_draws :=
  repeat first
    [ progress auto with draws
    | apply onlyDraws_bind; [|intros ?]
    | match goal with
      | |- onlyDraws (match ?x with _ => _ end) => destruct x
      | |- onlyDraws (if ?b then _ else _) => destruct b
      end ].

Lemma onlyDraws_toNumber fuel v : onlyDraws (toNumber fuel v).
Proof. unfold toNumber, toStr. only_draws. Qed.

Lemma onlyDraws_binaryOperation fuel op l r : onlyDraws (binaryOperation fuel op l r).
Proof.
  pose proof (onlyDraws_toNumber fuel).
  unfold binaryOperation, add, compare, toStr. only_draws.
Qed.

Lemma onlyDraws_evaluateExpression fuel e : onlyDraws (evaluateExpression fuel e).
Proof.
  pose proof (onlyDraws_toNumber fuel).
  pose proof (onlyDraws_binaryOperation fuel).
  induction e; cbn [evaluateExpression];
    unfold resolveIdentifier, contextGet, graphGetNode, nodeGetProperty;
    only_draws.
Qed.

(** One turn of the loop. *)
Lemma whereCandidate_run fuel varName e node s :
  exists k,
    let t := bindVar varName node s in
    whereCandidate fuel varName e node s
    = match fst (evaluateExpression fuel e t) with
      | Diverge => (Diverge, set_randomIndex k t)
      | c => (Normal (kept c),
              set_context (delete varName (context s)) (set_randomIndex k s))
      end.
Proof.
  destruct (onlyDraws_evaluateExpression fuel e (bindVar varName node s)) as [k Hk].
  exists k. simpl.
  unfold whereCandidate, bind at 1, contextSet, modify, tryFinally, tryCatch, bind.
  fold (bindVar varName node s).
  destruct (evaluateExpression fuel e (bindVar varName node s)) as [[v|x|] t];
    simpl in Hk |- *; subst t; unfold contextDelete, modify, set_context; simpl;
    by rewrite ?delete_insert_eq.
Qed.

Lemma turnOf_next s varName node t k :
  turnOf (set_context (delete varName (context s)) (set_randomIndex k s))
    varName node t ->
  turnOf s varName node t.
Proof.
  intros [j ->]. exists j. unfold bindVar, set_context, set_randomIndex. simpl.
  by rewrite insert_delete_eq.
Qed.

Lemma filterM_where fuel varName e candidates : forall s,
  match fst (filterM (whereCandidate fuel varName e) candidates s) with
  | Normal result =>
      exists turns,
        Forall2 (turnOf s varName) candidates turns
        /\ result
           = map fst
               (List.filter (fun nt : string * Interpreter =>
                          kept (fst (evaluateExpression fuel e (snd nt))))
                  (combine candidates turns))
  | Diverge =>
      exists node t,
        In node candidates /\ turnOf s varName node t
        /\ fst (evaluateExpression fuel e t) = Diverge
  | Throw _ => False
  end.
Proof.
  induction candidates as [|node rest IH]; intros s.
  - simpl. exists []. split; [constructor|reflexivity].
  - cbn [filterM]. unfold bind at 1.
    destruct (whereCandidate_run fuel varName e node s) as [k Hk].
    simpl in Hk. rewrite Hk. clear Hk.
    assert (Hturn : turnOf s varName node (bindVar varName node s)).
    { exists (randomIndex (bindVar varName node s)).
      apply set_randomIndex_same. }
    destruct (fst (evaluateExpression fuel e (bindVar varName node s))) eqn:Ev.
    + specialize (IH (set_context (delete varName (context s))
                        (set_randomIndex k s))).
      unfold bind.
      destruct (filterM _ rest _) as [[result|x|] s'] eqn:Erest; simpl in IH |- *.
      * destruct IH as (turns & Hturns & ->).
        exists (bindVar varName node s :: turns). split.
        -- constructor; [exact Hturn|].
           eapply Forall2_impl; [exact Hturns|]. intros n t. apply turnOf_next.
        -- simpl. rewrite Ev. simpl.
           destruct (whereAccepts a); reflexivity.
      * exact IH.
      * destruct IH as (n & t & Hin & Ht & Hd).
        exists n, t. split; [by right|]. split; [|exact Hd].
        eapply turnOf_next, Ht.
    + specialize (IH (set_context (delete varName (context s))
                        (set_randomIndex k s))).
      unfold bind.
      destruct (filterM _ rest _) as [[result|x|] s'] eqn:Erest; simpl in IH |- *.
      * destruct IH as (turns & Hturns & ->).
        exists (bindVar varName node s :: turns). split.
        -- constructor; [exact Hturn|].
           eapply Forall2_impl; [exact Hturns|]. intros n t. apply turnOf_next.
        -- simpl. rewrite Ev. reflexivity.
      * exact IH.
      * destruct IH as (n & t & Hin & Ht & Hd).
        exists n, t. split; [by right|]. split; [|exact Hd].
        eapply turnOf_next, Ht.
    + simpl. exists node, (bindVar varName node s).
      split; [by left|]. by split.
Qed.

(** C5, as stated, fails: in [?m IS Monster WHERE m] the WHERE expression
    evaluates to the candidate itself, a node reference, which is truthy; the
    candidate is dropped all the same, and so is one whose WHERE expression is
    a non-empty string. *)
Lemma where_drops_truthy_node_and_string :
  let s := run 2 [IS "Orc" "Monster"] in
  fst (evaluateExpression 3 (EIdentifier "m") (bindVar "m" "Orc" s))
  = Normal (VNode "Orc")
  /\ isTruthy (VNode "Orc") = true
  /\ fst (filterByWhereCondition 3 ["Orc"; "Monster"] (queryVar "m")
            (EIdentifier "m") s) = Normal []
  /\ isTruthy (VString "yes") = true
  /\ fst (filterByWhereCondition 3 ["Orc"; "Monster"] (queryVar "m")
            (EString "yes") s) = Normal []
  /\ output (snd (execute 3
                    [SQuery (queryVar "m") "IS" (Some "Monster") LNull
                       (Some (EIdentifier "m"))] s))
     = ["Query ?m: 0 nodes found"].
Proof. vm_compute. repeat split; reflexivity. Qed.

(** C5, amended: [filterByWhereCondition] never throws, and it returns unless
    the evaluation of the WHERE expression for some candidate does not
    return. Its result lists, in order, exactly the candidates whose
    evaluation, with the query variable (or ["_"]) bound to the candidate,
    ends with the boolean true or a number other than 0. A candidate whose
    evaluation ends with anything else (null, false, 0, any string, any node
    reference) or throws is left out. *)
Theorem where_keeps_true_and_nonzero (fuel : nat) (candidates : list string)
    (subject : QueryPattern) (whereCondition : Expression) (s : Interpreter) :
  let varName := default "_" (variableName subject) in
  match fst (filterByWhereCondition fuel candidates subject whereCondition s) with
  | Normal result =>
      exists turns,
        Forall2 (turnOf s varName) candidates turns
        /\ result
           = map fst
               (List.filter
                  (fun nt : string * Interpreter =>
                     kept (fst (evaluateExpression fuel whereCondition (snd nt))))
                  (combine candidates turns))
  | Diverge =>
      exists node t,
        In node candidates /\ turnOf s varName node t
        /\ fst (evaluateExpression fuel whereCondition t) = Diverge
  | Throw _ => False
  end
  /\ (forall b, kept (Normal (VBoolean b)) = b)
  /\ (forall n, kept (Normal (VNumber n)) = negb (Qeq_bool n 0))
  /\ kept (Normal VNull) = false
  /\ (forall str, kept (Normal (VString str)) = false)
  /\ (forall node, kept (Normal (VNode node)) = false)
  /\ (forall x, kept (Throw x) = false).
Proof.
  split; [apply filterM_where|]. repeat split.
Qed.

(** ** How parents lists change *)

Lemma evolves_refl s : evolves s s.
Proof. intros n. apply rtc_refl. Qed.

Lemma evolves_trans s1 s2 s3 : evolves s1 s2 -> evolves s2 s3 -> evolves s1 s3.
Proof. intros H1 H2 n. eapply rtc_trans; [apply H1|apply H2]. Qed.

Lemma evolves_same_parents s s' :
  (forall n, Node.parentsOf (nodes s') n = Node.parentsOf (nodes s) n) ->
  evolves s s'.
Proof. intros H n. rewrite H. apply rtc_refl. Qed.

Lemma parentsStep_NoDup l l' : parentsStep l l' -> NoDup l -> NoDup l'.
Proof.
  intros [l0 p Hp|l1 p l2] Hl.
  - apply NoDup_app. split; [exact Hl|]. split; [|apply NoDup_singleton].
    intros x Hx Hx'. apply list_elem_of_singleton in Hx' as ->.
    apply Hp. by apply list_elem_of_In.
  - apply NoDup_app in Hl as (H1 & H2 & H3). apply NoDup_cons in H3 as [_ H3].
    apply NoDup_app. split; [exact H1|]. split; [|exact H3].
    intros x Hx Hx'. apply (H2 x Hx). by right.
Qed.

Lemma rtc_parentsStep_NoDup l l' : rtc parentsStep l l' -> NoDup l -> NoDup l'.
Proof. induction 1; eauto using parentsStep_NoDup. Qed.

(** *** The combinators *)

Lemma preserves_ret {A} (a : A) : preserves (ret a).
Proof. intros s. apply evolves_refl. Qed.

Lemma preserves_throw {A} e : preserves (@throw A e).
Proof. intros s. apply evolves_refl. Qed.

Lemma preserves_diverge {A} : preserves (@diverge A).
Proof. intros s. apply evolves_refl. Qed.

Lemma preserves_gets {A} (f : Interpreter -> A) : preserves (gets f).
Proof. intros s. apply evolves_refl. Qed.

Lemma preserves_walk {A} (f : Interpreter -> option A) : preserves (walk f).
Proof. intros s. unfold walk. destruct (f s); apply evolves_refl. Qed.

Lemma preserves_modify f : (forall s, evolves s (f s)) -> preserves (modify f).
Proof. intros H s. apply H. Qed.

Lemma preserves_bind {A B} (m : M A) (k : A -> M B) :
  preserves m -> (forall a, preserves (k a)) -> preserves (bind m k).
Proof.
  intros Hm Hk s. unfold bind. specialize (Hm s).
  destruct (m s) as [[a|e|] s']; simpl in *; auto.
  eapply evolves_trans; [exact Hm|apply Hk].
Qed.

Lemma preserves_tryFinally {A} (m : M A) (fin : M unit) :
  preserves m -> preserves fin -> preserves (tryFinally m fin).
Proof.
  intros Hm Hf s. unfold tryFinally. specialize (Hm s).
  destruct (m s) as [[a|e|] s']; simpl in *; auto;
    specialize (Hf s'); destruct (fin s') as [[[]|e'|] s'']; simpl in *;
    eapply evolves_trans; eauto.
Qed.

Lemma preserves_tryCatch {A} (m handler : M A) :
  preserves m -> preserves handler -> preserves (tryCatch m handler).
Proof.
  intros Hm Hh s. unfold tryCatch. specialize (Hm s).
  destruct (m s) as [[a|e|] s']; simpl in *; auto.
  eapply evolves_trans; [exact Hm|apply Hh].
Qed.

Lemma preserves_forEach {A} (body : A -> M unit) xs :
  (forall x, preserves (body x)) -> preserves (forEach body xs).
Proof.
  intros H. induction xs as [|x xs IH]; simpl.
  - apply preserves_ret.
  - apply preserves_bind; auto.
Qed.

Lemma preserves_filterM {A} (p : A -> M bool) xs :
  (forall x, preserves (p x)) -> preserves (filterM p xs).
Proof.
  intros H. induction xs as [|x xs IH]; simpl.
  - apply preserves_ret.
  - apply preserves_bind; [auto|]. intros keep.
    apply preserves_bind; [exact IH|]. intros ?. apply preserves_ret.
Qed.

Lemma preserves_mapM {A B} (f : A -> M B) xs :
  (forall x, preserves (f x)) -> preserves (mapM f xs).
Proof.
  intros H. induction xs as [|x xs IH]; simpl.
  - apply preserves_ret.
  - apply preserves_bind; [auto|]. intros y.
    apply preserves_bind; [exact IH|]. intros ?. apply preserves_ret.
Qed.

Lemma preserves_anyM {A} (check : A -> M bool) xs :
  (forall x, preserves (check x)) -> preserves (anyM check xs).
Proof.
  intros H. induction xs as [|x xs IH]; simpl.
  - apply preserves_ret.
  - apply preserves_bind; [auto|]. intros []; [apply preserves_ret|exact IH].
Qed.

(** *** The primitive effects *)

Lemma preserves_onOutput line : preserves (onOutput line).
Proof. intros s. by apply evolves_same_parents. Qed.

Lemma preserves_random : preserves Math_random.
Proof. intros s. by apply evolves_same_parents. Qed.

Lemma preserves_contextSet name v : preserves (contextSet name v).
Proof. intros s. by apply evolves_same_parents. Qed.

Lemma preserves_contextDelete name : preserves (contextDelete name).
Proof. intros s. by apply evolves_same_parents. Qed.

Lemma preserves_heapSet r l : preserves (heapSet r l).
Proof. intros s. by apply evolves_same_parents. Qed.

Lemma preserves_heapAlloc l : preserves (heapAlloc l).
Proof. intros s. by apply evolves_same_parents. Qed.

Lemma preserves_set_whenSubject w : preserves (modify (set_whenSubject w)).
Proof. intros s. by apply evolves_same_parents. Qed.

Lemma preserves_getOrCreateNode name : preserves (graphGetOrCreateNode name).
Proof.
  intros s. apply evolves_same_parents. intros n. apply parentsOf_getOrCreateNode.
Qed.

Lemma preserves_setProperty n name v : preserves (nodeSetProperty n name v).
Proof.
  intros s. apply evolves_same_parents. intros m. apply parentsOf_setProperty.
Qed.

Lemma preserves_removeProperty n name : preserves (nodeRemoveProperty n name).
Proof.
  intros s. apply evolves_same_parents. intros m. apply parentsOf_removeProperty.
Qed.

(** [addParent] pushes at the end, and only a name that is not there yet. *)
Lemma preserves_addParent n parent : preserves (nodeAddParent n parent).
Proof.
  intros s m. simpl. destruct (String.eqb_spec n m) as [<-|Hne].
  - rewrite parentsOf_addParent_same. unfold Node.parentsOf.
    destruct (OMap.get (nodes s) n) as [nd|]; [|apply rtc_refl].
    destruct (Node.includes (parents nd) parent) eqn:E; [apply rtc_refl|].
    apply rtc_once. constructor. by apply includes_false.
  - rewrite parentsOf_addParent_other by done. apply rtc_refl.
Qed.

(** [removeParent] splices one entry out. *)
Lemma preserves_removeParent n parent : preserves (nodeRemoveParent n parent).
Proof.
  intros s m. simpl. destruct (String.eqb_spec n m) as [<-|Hne].
  - rewrite parentsOf_removeParent_same.
    destruct (in_dec string_dec parent (Node.parentsOf (nodes s) n)) as [Hin|Hout].
    + destruct (spliceFirst_split _ _ Hin) as (l1 & l2 & E1 & E2).
      rewrite E2, E1. apply rtc_once. constructor.
    + rewrite spliceFirst_absent by done. apply rtc_refl.
  - rewrite parentsOf_removeParent_other by done. apply rtc_refl.
Qed.

Create HintDb preserve.
#[local] Hint Resolve preserves_ret preserves_throw preserves_diverge
  preserves_gets preserves_walk preserves_onOutput preserves_random
  preserves_contextSet preserves_contextDelete preserves_heapSet
  preserves_heapAlloc preserves_set_whenSubject preserves_getOrCreateNode
  preserves_setProperty preserves_removeProperty preserves_addParent
  preserves_removeParent : preserve.

Ltac preserve :=
  repeat first
    [ progress auto with preserve
    | apply preserves_bind; [|intros ?]
    | apply preserves_tryFinally
    | apply preserves_tryCatch
    | apply preserves_forEach; intros ?
    | apply preserves_filterM; intros ?
    | apply preserves_mapM; intros ?
    | apply preserves_anyM; intros ?
    | match goal with
      | |- preserves (match ?x with _ => _ end) => destruct x
      | |- preserves (if ?b then _ else _) => destruct b
      | |- preserves (let _ := _ in _) => cbv zeta
      end ].

(** *** The methods of the interpreter *)

Lemma preserves_evaluateExpression fuel e : preserves (evaluateExpression fuel e).
Proof.
  intros s. destruct (onlyDraws_evaluateExpression fuel e s) as [k ->].
  by apply evolves_same_parents.
Qed.

Lemma preserves_toNumber fuel v : preserves (toNumber fuel v).
Proof. unfold toNumber, toStr. preserve. Qed.

Lemma preserves_nodeCan fuel : forall node ability, preserves (nodeCan fuel node ability).
Proof.
  induction fuel as [|fuel IH]; intros node ability; cbn [nodeCan];
    unfold nodeGetProperty, asStringSet, heapGet, nodeParents; preserve.
Qed.

#[local] Hint Resolve preserves_evaluateExpression preserves_toNumber
  preserves_nodeCan : preserve.

Lemma preserves_resolveNode name : preserves (resolveNode name).
Proof. unfold resolveNode, contextGet. preserve. Qed.

Lemma preserves_resolveNodeOrNull name : preserves (resolveNodeOrNull name).
Proof. unfold resolveNodeOrNull, contextGet, graphGetNode. preserve. Qed.

Lemma preserves_promoteLiteral v : preserves (promoteLiteral v).
Proof. unfold promoteLiteral, graphGetNode. preserve. Qed.

#[local] Hint Resolve preserves_resolveNode preserves_resolveNodeOrNull
  preserves_promoteLiteral : preserve.

Section PreservesStatements.
Variable fuel : nat.
Variable exec : list Statement -> M unit.
Hypothesis preserves_exec : forall l, preserves (exec l).

Lemma preserves_executeCustomRelation subject relation arguments :
  preserves (executeCustomRelation fuel exec subject relation arguments).
Proof.
  unfold executeCustomRelation, bindRoleArguments, graphGetNode, nodeIs,
    nodeGetProperty, asStatementList, asRoleList, heapGet.
  preserve.
Qed.

Lemma preserves_executeRelation subject relation arguments :
  preserves (executeRelation fuel exec subject relation arguments).
Proof.
  pose proof preserves_executeCustomRelation.
  unfold executeRelation, executeIs, executeHas, executePrint, nodeGetProperty,
    toStr.
  preserve.
Qed.

Lemma preserves_executeWhenExpression :
  forall w, preserves (executeWhenExpression fuel exec w).
Proof.
  fix IH 1. intros [subject condition body elseBody elseWhen].
  cbn [executeWhenExpression]. unfold graphGetNode.
  destruct elseWhen as [w|]; [specialize (IH w)|clear IH]; preserve.
Qed.

Lemma preserves_dispatch stmt : preserves (dispatch fuel exec stmt).
Proof.
  pose proof preserves_executeRelation.
  pose proof preserves_executeWhenExpression.
  destruct stmt; cbn [dispatch];
    unfold executeHasExpression, executeExpressionPrint, executeExpressionHas,
      executeRoleDefinition, executeDoBlock, executeCan, executeLoses,
      removeOwnProperty, executeDebug, dumpGraph, formatNode, executeWhen,
      evaluateCondition, evaluateHasCondition, executeChance, executeAll,
      getQueryResults, executeActionOnNode, executeEach, executeQuery,
      findMatchingNodes, matchesIsQuery, matchesHasQuery, matchesCanQuery,
      filterByWhereCondition, whereCandidate, reportMatches,
      graphGetNode, graphAllNodes, nodeIs, nodeGetProperty, nodeOwnProperty,
      nodeParents, nodeProperties, toStr, heapGet,
      asStringSet, asRoleList, asNodeList, asStatementList;
    preserve.
Qed.
End PreservesStatements.

Lemma preserves_executeStatement fuel : forall stmt, preserves (executeStatement fuel stmt).
Proof.
  induction fuel as [|fuel IH]; intros stmt; cbn [executeStatement].
  - apply preserves_diverge.
  - apply preserves_dispatch. intros l. by apply preserves_forEach.
Qed.

Lemma preserves_execute fuel statements : preserves (execute fuel statements).
Proof. apply preserves_forEach, preserves_executeStatement. Qed.

(** The parents lists of a reachable state have no duplicates. *)
Lemma reachable_NoDup s : reachable s -> forall n, NoDup (Node.parentsOf (nodes s) n).
Proof.
  induction 1 as [random|fuel statements s Hs IH]; intros n.
  - apply NoDup_nil_2.
  - eapply rtc_parentsStep_NoDup; [apply preserves_execute|apply IH].
Qed.

(** *** IS twice *)

Lemma set_get_same {V} (m : list (string * V)) k v :
  OMap.get m k = Some v -> OMap.set m k v = m.
Proof.
  induction m as [|[k' v'] m IH]; simpl; [discriminate|].
  destruct (String.eqb_spec k' k) as [->|]; [by intros [= ->]|].
  intros H. by rewrite IH.
Qed.

Lemma getOrCreateNode_existing g n :
  Graph.hasNode g n = true -> Graph.getOrCreateNode g n = g.
Proof.
  unfold Graph.hasNode, OMap.has, Graph.getOrCreateNode.
  by destruct (OMap.get g n).
Qed.

Lemma set_nodes_same s : set_nodes (nodes s) s = s.
Proof. by destruct s. Qed.

Lemma resolveState_existing s name :
  ((forall n, context s !! name <> Some (VNode n)) ->
   Graph.hasNode (nodes s) name = true) ->
  resolveState s name = s.
Proof.
  intros H. unfold resolveState.
  destruct (context s !! name) as [[]|] eqn:E; auto;
    rewrite getOrCreateNode_existing, ?set_nodes_same; auto; apply H; congruence.
Qed.

Lemma addParent_present g n p :
  (forall nd, OMap.get g n = Some nd -> In p (parents nd)) ->
  Node.addParent g n p = g.
Proof.
  intros H. unfold Node.addParent, Node.update.
  destruct (OMap.get g n) as [nd|] eqn:E; auto.
  specialize (H nd eq_refl). apply includes_In in H. rewrite H.
  apply set_get_same. rewrite E. by destruct nd.
Qed.

Lemma get_addParent_same g n p nd :
  OMap.get (Node.addParent g n p) n = Some nd -> In p (parents nd).
Proof.
  unfold Node.addParent. rewrite get_update, String.eqb_refl.
  destruct (OMap.get g n) as [nd0|]; [|discriminate]. intros [= <-]. simpl.
  destruct (Node.includes (parents nd0) p) eqn:E; [by apply includes_In|].
  apply in_or_app. right. by left.
Qed.

Lemma afterIs_twice s subject type :
  afterIs (afterIs s subject type) subject type = afterIs s subject type.
Proof.
  set (t := afterIs s subject type).
  assert (Hs : resolveState t subject = t).
  { apply resolveState_existing. unfold t. rewrite context_afterIs. intros Hctx.
    unfold afterIs. simpl. unfold Node.addParent. rewrite hasNode_update.
    by apply hasNode_resolveState, hasNode_resolveState_same. }
  assert (Ht : resolveState t type = t).
  { apply resolveState_existing. unfold t. rewrite context_afterIs. intros Hctx.
    unfold afterIs. simpl. unfold Node.addParent. rewrite hasNode_update.
    apply hasNode_resolveState_same. by rewrite context_resolveState. }
  unfold afterIs at 1. fold t. rewrite Hs, Ht.
  unfold t at 2 3. rewrite !resolveName_afterIs.
  rewrite addParent_present; [apply set_nodes_same|].
  unfold t, afterIs. simpl. apply get_addParent_same.
Qed.

(** ** The parents lists of reachable graphs *)



(** ** Ancestors *)

(** ** What [is] and [getProperty] compute *)

Lemma anyParent_true check ps :
  Node.anyParent check ps = Some true -> exists p, In p ps /\ check p = Some true.
Proof.
  induction ps as [|p ps IH]; simpl; [discriminate|].
  destruct (check p) as [[]|] eqn:E; try discriminate.
  - intros _. exists p. auto.
  - intros H. destruct (IH H) as (q & Hq & Hc). exists q. auto.
Qed.

Lemma anyParent_false check ps :
  Node.anyParent check ps = Some false -> forall p, In p ps -> check p = Some false.
Proof.
  induction ps as [|p ps IH]; simpl; [intros _ q []|].
  destruct (check p) as [[]|] eqn:E; try discriminate.
  intros H q [<-|Hq]; auto.
Qed.

Lemma is_true_ancestor g t : forall fuel n,
  Node.is_ fuel g n t = Some true -> ancestorOrSelf g n t.
Proof.
  induction fuel as [|fuel IH]; intros n; simpl; [discriminate|].
  destruct (String.eqb_spec n t) as [->|Hne]; [intros _; apply rtc_refl|].
  intros H. apply anyParent_true in H as (p & Hp & Hc).
  eapply rtc_l; [exact Hp|]. by apply IH.
Qed.

Lemma is_false_no_ancestor g t : forall fuel n,
  Node.is_ fuel g n t = Some false -> ~ ancestorOrSelf g n t.
Proof.
  induction fuel as [|fuel IH]; intros n; simpl; [discriminate|].
  destruct (String.eqb_spec n t) as [->|Hne]; [discriminate|].
  intros H Hanc. pose proof (anyParent_false _ _ H) as Hall.
  apply rtc_inv in Hanc as [->|(p & Hp & Hrest)]; [done|].
  by apply (IH p (Hall p Hp)).
Qed.

(** X1: On a graph without cycles [n.is(t)] returns, and it returns true exactly
    when [t] names [n] or a node reached from [n] along IS edges. *)
Theorem is_decides_ancestry (g : list (string * SongNode)) (rank : string -> nat)
    (n t : string) :
  ranked rank g = true ->
  exists b,
    (forall fuel, (rank n < fuel)%nat -> Node.is_ fuel g n t = Some b)
    /\ (b = true <-> ancestorOrSelf g n t).
Proof.
  intros R.
  destruct (is_settles rank g t R (S (rank n)) n) as [b Hb]; [lia|].
  exists b. split; [intros fuel Hf; apply Hb; lia|].
  specialize (Hb (S (rank n)) (le_n _)). split.
  - intros ->. by eapply is_true_ancestor.
  - intros Hanc. destruct b; [done|]. by destruct (is_false_no_ancestor _ _ _ _ Hb).
Qed.

Lemma is_decides_ancestry_witness :
  exists b,
    (forall fuel, (rankOrcMonster "Orc" < fuel)%nat ->
       Node.is_ fuel (nodes (run 2 [IS "Orc" "Monster"])) "Orc" "Monster" = Some b)
    /\ (b = true
        <-> ancestorOrSelf (nodes (run 2 [IS "Orc" "Monster"])) "Orc" "Monster").
Proof.
  apply (is_decides_ancestry (nodes (run 2 [IS "Orc" "Monster"])) rankOrcMonster
           "Orc" "Monster").
  reflexivity.
Defined.

Lemma anyParent_mono (check1 check2 : string -> option bool) ps r :
  (forall p b, In p ps -> check1 p = Some b -> check2 p = Some b) ->
  Node.anyParent check1 ps = Some r -> Node.anyParent check2 ps = Some r.
Proof.
  induction ps as [|p ps IH]; simpl; auto. intros H.
  destruct (check1 p) as [b|] eqn:E; [|discriminate].
  rewrite (H p b (or_introl eq_refl) E). destruct b; auto.
Qed.

(** More depth never changes an answer of [is]. *)
Lemma is_more_fuel g t k : forall fuel n r,
  Node.is_ fuel g n t = Some r -> Node.is_ (fuel + k) g n t = Some r.
Proof.
  induction fuel as [|fuel IH]; intros n r; simpl; [discriminate|].
  destruct (String.eqb n t); auto.
  apply anyParent_mono. intros p b _. apply IH.
Qed.

Lemma is_through g b c f2 :
  Node.is_ f2 g b c = Some true ->
  forall f1 a,
    (Node.is_ f1 g a b = Some true -> Node.is_ (f1 + f2) g a c = Some true)
    /\ (Node.is_ f1 g a b = Some false -> exists r, Node.is_ (f1 + f2) g a c = Some r).
Proof.
  intros Hbc. induction f1 as [|f1 IH]; intros a; [split; discriminate|].
  cbn [Node.is_ Nat.add].
  destruct (String.eqb_spec a c) as [->|Hac]; [split; eauto|].
  destruct (String.eqb_spec a b) as [->|Hab].
  - split; [|discriminate]. intros _.
    pose proof (is_more_fuel g c (S f1) _ _ _ Hbc) as H.
    rewrite Nat.add_comm in H. cbn [Node.is_ Nat.add] in H.
    destruct (String.eqb_spec b c); [done|exact H].
  - generalize (Node.parentsOf g a). intros ps.
    induction ps as [|p ps IHps]; simpl; [split; [discriminate|eauto]|].
    destruct (IH p) as [Ht Hf].
    destruct (Node.is_ f1 g p b) as [[]|] eqn:E.
    + split; [|discriminate]. intros _. by rewrite Ht.
    + destruct Hf as [r Hr]; [done|]. rewrite Hr.
      destruct r; [split; eauto|exact IHps].
    + split; discriminate.
Qed.

(** X2: [is] is transitive, on any graph: if [a.is(b)] and [b.is(c)] return true,
    so does [a.is(c)]. *)
Theorem is_transitive (g : list (string * SongNode)) (a b c : string) (f1 f2 : nat) :
  Node.is_ f1 g a b = Some true ->
  Node.is_ f2 g b c = Some true ->
  Node.is_ (f1 + f2) g a c = Some true.
Proof. intros Hab Hbc. by apply (is_through g b c f2 Hbc f1 a). Qed.

Lemma is_transitive_witness :
  Node.is_ (2 + 2) (nodes (run 2 [IS "Squire" "Knight"; IS "Knight" "Human"]))
    "Squire" "Human" = Some true.
Proof.
  apply (is_transitive _ "Squire" "Knight" "Human" 2 2); reflexivity.
Defined.

Lemma firstNonNull_found lookup ps v :
  Node.firstNonNull lookup ps = Some v -> v <> VNull ->
  exists p, In p ps /\ lookup p = Some v.
Proof.
  induction ps as [|p ps IH]; simpl; [intros [= <-] Hv; by destruct Hv|].
  destruct (lookup p) as [w|] eqn:E; [|discriminate].
  destruct w; try (intros [= <-] _; exists p; by auto).
  intros H Hv. destruct (IH H Hv) as (q & Hq & Hl). exists q. auto.
Qed.

Lemma getProperty_from_chain g name : forall fuel n v,
  Node.getProperty fuel g n name = Some v -> v <> VNull ->
  exists m, ancestorOrSelf g n m
            /\ OMap.get (Node.propertiesOf g m) name = Some v.
Proof.
  induction fuel as [|fuel IH]; intros n v; simpl; [discriminate|].
  destruct (OMap.get (Node.propertiesOf g n) name) as [w|] eqn:E.
  - intros [= <-] _. exists n. split; [apply rtc_refl|exact E].
  - intros H Hv. apply firstNonNull_found in H as (p & Hp & Hl); [|exact Hv].
    destruct (IH p v Hl Hv) as (m & Hm & Hown). exists m. split; [|exact Hown].
    eapply rtc_l; [exact Hp|exact Hm].
Qed.

Lemma firstNonNull_settles (lookup : nat -> string -> option Value) k ps :
  (forall p, In p ps -> exists v, forall fuel, (k <= fuel)%nat -> lookup fuel p = Some v) ->
  exists v, forall fuel, (k <= fuel)%nat -> Node.firstNonNull (lookup fuel) ps = Some v.
Proof.
  induction ps as [|p ps IH]; intros H.
  - by exists VNull.
  - destruct (H p) as [v Hv]; [by left|].
    destruct IH as [v' Hv']; [intros q Hq; apply H; by right|].
    exists (match v with VNull => v' | _ => v end). intros fuel Hf. simpl.
    rewrite (Hv fuel Hf). destruct v; auto.
Qed.

Lemma getProperty_settles rank g name :
  ranked rank g = true ->
  forall k n, (rank n < k)%nat ->
  exists v, forall fuel, (k <= fuel)%nat -> Node.getProperty fuel g n name = Some v.
Proof.
  intros R. induction k as [|k IH]; intros n Hn; [lia|].
  destruct (OMap.get (Node.propertiesOf g n) name) as [w|] eqn:E.
  - exists w. intros [|fuel] Hf; [lia|]. simpl. by rewrite E.
  - destruct (firstNonNull_settles (fun fuel p => Node.getProperty fuel g p name) k
                (Node.parentsOf g n)) as [v Hv].
    + intros p Hp. apply IH. pose proof (ranked_parents _ _ _ _ R Hp). lia.
    + exists v. intros [|fuel] Hf; [lia|]. simpl. rewrite E. apply Hv. lia.
Qed.

(** X3: On a graph without cycles [getProperty] returns a value. An own entry
    wins, whatever it holds (also null); and a value that is not null is the
    own entry of the node itself or of a node reached along IS edges. *)
Theorem getProperty_inherits (g : list (string * SongNode)) (rank : string -> nat)
    (n name : string) :
  ranked rank g = true ->
  exists v,
    (forall fuel, (rank n < fuel)%nat -> Node.getProperty fuel g n name = Some v)
    /\ (forall w, OMap.get (Node.propertiesOf g n) name = Some w -> v = w)
    /\ (v <> VNull ->
        exists m, ancestorOrSelf g n m
                  /\ OMap.get (Node.propertiesOf g m) name = Some v).
Proof.
  intros R.
  destruct (getProperty_settles rank g name R (S (rank n)) n) as [v Hv]; [lia|].
  exists v. split; [intros fuel Hf; apply Hv; lia|].
  specialize (Hv (S (rank n)) (le_n _)). split.
  - intros w Hw. simpl in Hv. rewrite Hw in Hv. congruence.
  - by apply getProperty_from_chain with (fuel := S (rank n)).
Qed.

Lemma getProperty_inherits_witness :
  exists v,
    (forall fuel, (rankPlayerEntity "Player" < fuel)%nat ->
       Node.getProperty fuel (nodes playerEntity) "Player" "HP" = Some v)
    /\ (forall w, OMap.get (Node.propertiesOf (nodes playerEntity) "Player") "HP"
                  = Some w -> v = w)
    /\ (v <> VNull ->
        exists m, ancestorOrSelf (nodes playerEntity) "Player" m
                  /\ OMap.get (Node.propertiesOf (nodes playerEntity) m) "HP" = Some v).
Proof.
  apply (getProperty_inherits (nodes playerEntity) rankPlayerEntity "Player" "HP").
  reflexivity.
Defined.

(** ** Relations that every step of the interpreter keeps *)

Section Stepwise.
Variable always : bool.
Variable R : Interpreter -> Interpreter -> Prop.
Hypothesis R_refl : forall s, R s s.
Hypothesis R_trans : forall s1 s2 s3, R s1 s2 -> R s2 s3 -> R s1 s3.
Hypothesis R_output : forall s line, R s (set_output (output s ++ [line]) s).
Hypothesis R_random : forall s, R s (set_randomIndex (S (randomIndex s)) s).
Hypothesis R_context : forall s c, R s (set_context c s).
Hypothesis R_heapSet : forall s r l, R s (set_heap (<[r := l]> (heap s)) s).
Hypothesis R_heapAlloc : forall s l, R s (set_heap (heap s ++ [l]) s).
Hypothesis R_getOrCreateNode :
  forall s name, R s (set_nodes (Graph.getOrCreateNode (nodes s) name) s).
Hypothesis R_setProperty :
  forall s n name v, R s (set_nodes (Node.setProperty (nodes s) n name v) s).
Hypothesis R_removeProperty :
  forall s n name, R s (set_nodes (Node.removeProperty (nodes s) n name) s).
Hypothesis R_addParent :
  forall s n p, R s (set_nodes (Node.addParent (nodes s) n p) s).
Hypothesis R_removeParent :
  forall s n p, R s (set_nodes (Node.removeParent (nodes s) n p) s).

Abbreviation keeps := (stepwise always R).

Lemma keeps_ret {A} (a : A) : keeps (ret a).
Proof. intros s _. apply R_refl. Qed.

Lemma keeps_throw {A} e : keeps (@throw A e).
Proof. intros s _. apply R_refl. Qed.

Lemma keeps_diverge {A} : keeps (@diverge A).
Proof. intros s _. apply R_refl. Qed.

Lemma keeps_gets {A} (f : Interpreter -> A) : keeps (gets f).
Proof. intros s _. apply R_refl. Qed.

Lemma keeps_walk {A} (f : Interpreter -> option A) : keeps (walk f).
Proof. intros s _. unfold walk. destruct (f s); apply R_refl. Qed.

Lemma keeps_bind {A B} (m : M A) (k : A -> M B) :
  keeps m -> (forall a, keeps (k a)) -> keeps (bind m k).
Proof.
  intros Hm Hk s H. unfold bind in *. specialize (Hm s).
  destruct (m s) as [[a|e|] s']; simpl in *.
  - eapply R_trans; [apply Hm; discriminate|]. by apply Hk.
  - apply Hm. discriminate.
  - apply Hm. intros E. by destruct (H E).
Qed.

Lemma keeps_tryFinally {A} (m : M A) (fin : M unit) :
  keeps m -> keeps fin -> keeps (tryFinally m fin).
Proof.
  intros Hm Hf s H. unfold tryFinally in *. specialize (Hm s).
  destruct (m s) as [[a|e|] s']; simpl in *;
    [| |apply Hm; intros E; by destruct (H E)];
    (eapply R_trans; [apply Hm; discriminate|]);
    specialize (Hf s'); destruct (fin s') as [[[]|e'|] s'']; simpl in *;
    apply Hf; intros E; try discriminate; by destruct (H E).
Qed.

Lemma keeps_tryCatch {A} (m handler : M A) :
  keeps m -> keeps handler -> keeps (tryCatch m handler).
Proof.
  intros Hm Hh s H. unfold tryCatch in *. specialize (Hm s).
  destruct (m s) as [[a|e|] s']; simpl in *.
  - apply Hm. discriminate.
  - eapply R_trans; [apply Hm; discriminate|]. by apply Hh.
  - apply Hm. exact H.
Qed.

Lemma keeps_forEach {A} (body : A -> M unit) xs :
  (forall x, keeps (body x)) -> keeps (forEach body xs).
Proof.
  intros H. induction xs as [|x xs IH]; simpl.
  - apply keeps_ret.
  - apply keeps_bind; auto.
Qed.

Lemma keeps_filterM {A} (p : A -> M bool) xs :
  (forall x, keeps (p x)) -> keeps (filterM p xs).
Proof.
  intros H. induction xs as [|x xs IH]; simpl.
  - apply keeps_ret.
  - apply keeps_bind; [auto|]. intros keep.
    apply keeps_bind; [exact IH|]. intros ?. apply keeps_ret.
Qed.

Lemma keeps_mapM {A B} (f : A -> M B) xs :
  (forall x, keeps (f x)) -> keeps (mapM f xs).
Proof.
  intros H. induction xs as [|x xs IH]; simpl.
  - apply keeps_ret.
  - apply keeps_bind; [auto|]. intros y.
    apply keeps_bind; [exact IH|]. intros ?. apply keeps_ret.
Qed.

Lemma keeps_anyM {A} (check : A -> M bool) xs :
  (forall x, keeps (check x)) -> keeps (anyM check xs).
Proof.
  intros H. induction xs as [|x xs IH]; simpl.
  - apply keeps_ret.
  - apply keeps_bind; [auto|]. intros []; [apply keeps_ret|exact IH].
Qed.

Lemma keeps_onOutput line : keeps (onOutput line).
Proof. intros s _. apply R_output. Qed.

Lemma keeps_random : keeps Math_random.
Proof. intros s _. apply R_random. Qed.

Lemma keeps_contextSet name v : keeps (contextSet name v).
Proof. intros s _. apply R_context. Qed.

Lemma keeps_contextDelete name : keeps (contextDelete name).
Proof. intros s _. apply R_context. Qed.

Lemma keeps_heapSet r l : keeps (heapSet r l).
Proof. intros s _. apply R_heapSet. Qed.

Lemma keeps_heapAlloc l : keeps (heapAlloc l).
Proof. intros s _. apply R_heapAlloc. Qed.

Lemma keeps_getOrCreateNode name : keeps (graphGetOrCreateNode name).
Proof. intros s _. apply R_getOrCreateNode. Qed.

Lemma keeps_setProperty n name v : keeps (nodeSetProperty n name v).
Proof. intros s _. apply R_setProperty. Qed.

Lemma keeps_removeProperty n name : keeps (nodeRemoveProperty n name).
Proof. intros s _. apply R_removeProperty. Qed.

Lemma keeps_addParent n p : keeps (nodeAddParent n p).
Proof. intros s _. apply R_addParent. Qed.

Lemma keeps_removeParent n p : keeps (nodeRemoveParent n p).
Proof. intros s _. apply R_removeParent. Qed.

Ltac keep :=
  repeat first
    [ assumption
    | apply keeps_ret | apply keeps_throw | apply keeps_diverge
    | apply keeps_gets | apply keeps_walk
    | apply keeps_onOutput | apply keeps_random | apply keeps_contextSet
    | apply keeps_contextDelete | apply keeps_heapSet | apply keeps_heapAlloc
    | apply keeps_getOrCreateNode | apply keeps_setProperty
    | apply keeps_removeProperty | apply keeps_addParent
    | apply keeps_removeParent
    | match goal with H : _ |- _ => apply H end
    | apply keeps_bind; [|intros ?]
    | apply keeps_tryFinally
    | apply keeps_tryCatch
    | apply keeps_forEach; intros ?
    | apply keeps_filterM; intros ?
    | apply keeps_mapM; intros ?
    | apply keeps_anyM; intros ?
    | match goal with
      | |- stepwise _ _ (match ?x with _ => _ end) => destruct x
      | |- stepwise _ _ (if ?b then _ else _) => destruct b
      | |- stepwise _ _ (let _ := _ in _) => cbv zeta
      end ].

Lemma keeps_toNumber fuel v : keeps (toNumber fuel v).
Proof. unfold toNumber, toStr. keep. Qed.

Lemma keeps_evaluateExpression fuel e : keeps (evaluateExpression fuel e).
Proof.
  pose proof (keeps_toNumber fuel).
  induction e; cbn [evaluateExpression];
    unfold resolveIdentifier, contextGet, graphGetNode, nodeGetProperty,
      binaryOperation, add, compare, toStr;
    keep.
Qed.
Lemma keeps_nodeCan fuel : forall node ability, keeps (nodeCan fuel node ability).
Proof.
  induction fuel as [|fuel IH]; intros node ability; cbn [nodeCan];
    unfold nodeGetProperty, asStringSet, heapGet, nodeParents; keep.
Qed.

Lemma keeps_resolveNode name : keeps (resolveNode name).
Proof. unfold resolveNode, contextGet. keep. Qed.

Lemma keeps_resolveNodeOrNull name : keeps (resolveNodeOrNull name).
Proof. unfold resolveNodeOrNull, contextGet, graphGetNode. keep. Qed.

Lemma keeps_promoteLiteral v : keeps (promoteLiteral v).
Proof. unfold promoteLiteral, graphGetNode. keep. Qed.

(** The statements, given what the nested [execute] and the WHEN with an
    expression keep. *)
Section KeepsStatements.
Variable fuel : nat.
Variable exec : list Statement -> M unit.
Hypothesis keeps_exec : forall l, keeps (exec l).
Hypothesis keeps_executeWhenExpression :
  forall w, keeps (executeWhenExpression fuel exec w).

Lemma keeps_executeCustomRelation subject relation arguments :
  keeps (executeCustomRelation fuel exec subject relation arguments).
Proof.
  unfold executeCustomRelation, bindRoleArguments, graphGetNode, nodeIs,
    nodeGetProperty, asStatementList, asRoleList, heapGet.
  keep.
Qed.

Lemma keeps_executeRelation subject relation arguments :
  keeps (executeRelation fuel exec subject relation arguments).
Proof.
  pose proof keeps_executeCustomRelation. pose proof keeps_resolveNode.
  pose proof keeps_promoteLiteral.
  unfold executeRelation, executeIs, executeHas, executePrint, nodeGetProperty,
    toStr.
  keep.
Qed.

Lemma keeps_dispatch stmt : keeps (dispatch fuel exec stmt).
Proof.
  pose proof keeps_executeRelation. pose proof keeps_resolveNode.
  pose proof keeps_resolveNodeOrNull. pose proof keeps_promoteLiteral.
  pose proof keeps_nodeCan. pose proof keeps_evaluateExpression.
  pose proof keeps_toNumber.
  destruct stmt; cbn [dispatch];
    unfold executeHasExpression, executeExpressionPrint, executeExpressionHas,
      executeRoleDefinition, executeDoBlock, executeCan, executeLoses,
      removeOwnProperty, executeDebug, dumpGraph, formatNode, executeWhen,
      evaluateCondition, evaluateHasCondition, executeChance, executeAll,
      getQueryResults, executeActionOnNode, executeEach, executeQuery,
      findMatchingNodes, matchesIsQuery, matchesHasQuery, matchesCanQuery,
      filterByWhereCondition, whereCandidate, reportMatches,
      graphGetNode, graphAllNodes, nodeIs, nodeGetProperty, nodeOwnProperty,
      nodeParents, nodeProperties, toStr, heapGet,
      asStringSet, asRoleList, asNodeList, asStatementList;
    keep.
Qed.
End KeepsStatements.

(** A relation that setting [whenSubject] keeps is kept by the WHEN with an
    expression. *)
Section WhenByField.
Hypothesis R_whenSubject : forall s w, R s (set_whenSubject w s).

Lemma keeps_set_whenSubject w : keeps (modify (set_whenSubject w)).
Proof. intros s _. apply R_whenSubject. Qed.

Lemma keeps_whenExpression_by_field fuel exec :
  (forall l, keeps (exec l)) ->
  forall w, keeps (executeWhenExpression fuel exec w).
Proof.
  intros Hexec. pose proof keeps_set_whenSubject.
  pose proof keeps_evaluateExpression.
  fix IH 1. intros [subject condition body elseBody elseWhen].
  cbn [executeWhenExpression]. unfold graphGetNode.
  destruct elseWhen as [w|]; [specialize (IH w)|clear IH]; keep.
Qed.
End WhenByField.

(** [executeStatement] and [execute], given how the WHEN with an expression
    is dealt with. *)
Section Execute.
Hypothesis keeps_when :
  forall fuel exec, (forall l, keeps (exec l)) ->
  forall w, keeps (executeWhenExpression fuel exec w).

Lemma keeps_executeStatement fuel : forall stmt, keeps (executeStatement fuel stmt).
Proof.
  induction fuel as [|fuel IH]; intros stmt; cbn [executeStatement].
  - apply keeps_diverge.
  - assert (Hexec : forall l, keeps (forEach (executeStatement fuel) l))
      by (intros l; by apply keeps_forEach).
    apply keeps_dispatch; [exact Hexec|]. by apply keeps_when.
Qed.

Lemma keeps_execute fuel statements : keeps (execute fuel statements).
Proof. apply keeps_forEach, keeps_executeStatement. Qed.
End Execute.
End Stepwise.

(** *** [whenSubject] is restored *)

(** [try { m } finally { this.whenSubject = previous; cleanup }], when it
    ends, ends with [whenSubject] equal to [previous]. *)
Lemma tryFinally_restores {A} (m : M A) (previous : option string)
    (cleanup : M unit) (s : Interpreter) :
  (forall t, whenSubject (snd (cleanup t)) = whenSubject t) ->
  fst (tryFinally m (modify (set_whenSubject previous) ;; cleanup) s) <> Diverge ->
  whenSubject (snd (tryFinally m (modify (set_whenSubject previous) ;; cleanup) s))
  = previous.
Proof.
  intros Hc. unfold tryFinally, bind, modify.
  destruct (m s) as [[a|e|] s']; simpl; try done;
    specialize (Hc (set_whenSubject previous s'));
    destruct (cleanup (set_whenSubject previous s')) as [[[]|e'|] s'']; simpl in *;
    by intros _.
Qed.

(** The shape of [executeWhenExpression]: bind the subject, set
    [whenSubject], and run the branches inside [try ... finally]. *)
Lemma executeWhenExpression_scope fuel exec subject condition body elseBody elseWhen s :
  let subjectNode :=
    if Graph.hasNode (nodes s) subject then Some subject else None in
  executeWhenExpression fuel exec
    (WhenExpr subject condition body elseBody elseWhen) s
  = tryFinally
      (result <- evaluateExpression fuel condition ;;
       if isTruthy result then exec body
       else
         match elseWhen with
         | Some w => executeWhenExpression fuel exec w
         | None => match elseBody with Some b => exec b | None => ret tt end
         end)
      (modify (set_whenSubject (whenSubject s)) ;;
       match subjectNode with
       | Some _ => contextDelete subject
       | None => ret tt
       end)
      (set_whenSubject subjectNode
         (match subjectNode with
          | Some n => set_context (<[subject := VNode n]> (context s)) s
          | None => s
          end)).
Proof.
  cbn [executeWhenExpression]. unfold bind at 1, graphGetNode, gets.
  by destruct (Graph.hasNode (nodes s) subject).
Qed.

Lemma whenExpression_restores fuel exec w :
  stepwise false sameWhenSubject (executeWhenExpression fuel exec w).
Proof.
  destruct w as [subject condition body elseBody elseWhen].
  intros s H. specialize (H eq_refl). unfold sameWhenSubject.
  rewrite executeWhenExpression_scope in H |- *.
  apply tryFinally_restores; [|exact H].
  intros t. by destruct (Graph.hasNode (nodes s) subject).
Qed.

(** X4: Whenever [execute] ends, normally or with an exception, [whenSubject] is
    what it was before the call. *)
Theorem execute_restores_whenSubject (fuel : nat) (statements : list Statement)
    (s : Interpreter) :
  fst (execute fuel statements s) <> Diverge ->
  whenSubject (snd (execute fuel statements s)) = whenSubject s.
Proof.
  intros H.
  apply (keeps_execute false sameWhenSubject); try done.
  - unfold sameWhenSubject. congruence.
  - intros f exec _ w. apply whenExpression_restores.
Qed.

Lemma execute_restores_whenSubject_witness :
  whenSubject
    (snd (execute 3
            [SRelation "Player" "HAS" [LString "HP"; LNumber 0];
             SWhenExpression
               (WhenExpr "Player" (EBinary (EIdentifier "HP") Equal (EIdentifier "Ghost"))
                  [] None None)]
            (newInterpreter noRandom)))
  = None.
Proof.
  apply (execute_restores_whenSubject 3 _ (newInterpreter noRandom)).
  vm_compute. discriminate.
Defined.

(** *** Nodes are never removed, output is never taken back *)

Lemma keys_set_existing {V} (m : list (string * V)) k v v0 :
  OMap.get m k = Some v0 -> OMap.keys (OMap.set m k v) = OMap.keys m.
Proof.
  unfold OMap.keys. induction m as [|[k' v'] m IH]; simpl; [discriminate|].
  destruct (String.eqb_spec k' k) as [->|]; [done|]. intros H. simpl. by rewrite IH.
Qed.

Lemma allNodes_update g n f : Graph.allNodes (Node.update g n f) = Graph.allNodes g.
Proof.
  unfold Graph.allNodes, Node.update.
  destruct (OMap.get g n) eqn:E; [|done]. by eapply keys_set_existing.
Qed.

Lemma get_None_not_key {V} (m : list (string * V)) k :
  OMap.get m k = None -> ~ In k (OMap.keys m).
Proof.
  unfold OMap.keys. induction m as [|[k' v'] m IH]; simpl; [tauto|].
  destruct (String.eqb_spec k' k) as [->|]; [discriminate|]. intros H [?|?]; tauto.
Qed.

Lemma nodesGrow_same_names s s' :
  Graph.allNodes (nodes s') = Graph.allNodes (nodes s) -> nodesGrow s s'.
Proof. intros E. split; [exists []; by rewrite app_nil_r|by rewrite E]. Qed.

Lemma nodesGrow_trans s1 s2 s3 : nodesGrow s1 s2 -> nodesGrow s2 s3 -> nodesGrow s1 s3.
Proof.
  intros [[a1 E1] N1] [[a2 E2] N2]. split; [|tauto].
  exists (a1 ++ a2). by rewrite E2, E1, app_assoc.
Qed.

Lemma nodesGrow_getOrCreateNode s name :
  nodesGrow s (set_nodes (Graph.getOrCreateNode (nodes s) name) s).
Proof.
  simpl. unfold Graph.getOrCreateNode.
  destruct (OMap.get (nodes s) name) eqn:E; [by apply nodesGrow_same_names|].
  split; simpl.
  - exists [name]. unfold Graph.allNodes, OMap.keys. by rewrite map_app.
  - intros H. unfold Graph.allNodes, OMap.keys. rewrite map_app. simpl.
    apply NoDup_app. split; [exact H|]. split; [|apply NoDup_singleton].
    intros x Hx Hx'. apply list_elem_of_singleton in Hx' as ->.
    apply (get_None_not_key _ _ E). by apply list_elem_of_In.
Qed.

Lemma nodesGrow_field s s' : nodes s' = nodes s -> nodesGrow s s'.
Proof. intros E. apply nodesGrow_same_names. by rewrite E. Qed.

Lemma nodesGrow_update s n f : nodesGrow s (set_nodes (Node.update (nodes s) n f) s).
Proof. apply nodesGrow_same_names. apply allNodes_update. Qed.

Lemma nodesGrow_execute fuel statements s :
  nodesGrow s (snd (execute fuel statements s)).
Proof.
  apply (keeps_execute true nodesGrow);
    first
      [ done
      | apply nodesGrow_trans
      | apply nodesGrow_getOrCreateNode
      | intros; by apply nodesGrow_field
      | intros; apply nodesGrow_update
      | intros f exec Hexec w; apply keeps_whenExpression_by_field;
        first [done | apply nodesGrow_trans | intros; by apply nodesGrow_field] ].
Qed.

(** X5: Executing statements never removes or reorders a node: the nodes of the
    graph before the call are, in the same order, the first nodes after it,
    however the call ends. In a reachable state no two nodes share a name. *)
Theorem nodes_only_accumulate :
  (forall fuel statements s,
     exists added,
       Graph.allNodes (nodes (snd (execute fuel statements s)))
       = Graph.allNodes (nodes s) ++ added)
  /\ (forall s, reachable s -> NoDup (Graph.allNodes (nodes s))).
Proof.
  split.
  - intros fuel statements s. apply nodesGrow_execute.
  - induction 1 as [random|fuel statements s Hs IH]; [apply NoDup_nil_2|].
    by apply nodesGrow_execute.
Qed.

Lemma nodes_only_accumulate_witness :
  NoDup (Graph.allNodes
           (nodes (snd (execute 2 [IS "Squire" "Knight"; IS "Knight" "Human"]
                          (newInterpreter noRandom))))).
Proof.
  apply (proj2 nodes_only_accumulate).
  apply reachable_execute. apply reachable_new.
Defined.

Lemma outputGrows_same s s' : output s' = output s -> outputGrows s s'.
Proof. intros E. exists []. by rewrite app_nil_r. Qed.

Lemma outputGrows_trans s1 s2 s3 :
  outputGrows s1 s2 -> outputGrows s2 s3 -> outputGrows s1 s3.
Proof. intros [l1 E1] [l2 E2]. exists (l1 ++ l2). by rewrite E2, E1, app_assoc. Qed.

(** X6: Output that was emitted stays: whatever is executed, and however it ends,
    the lines emitted before are a prefix of the lines after. *)
Theorem output_only_appended (fuel : nat) (statements : list Statement)
    (s : Interpreter) :
  exists lines, output (snd (execute fuel statements s)) = output s ++ lines.
Proof.
  apply (keeps_execute true outputGrows);
    first
      [ done
      | apply outputGrows_trans
      | intros s0 line; by exists [line]
      | intros; by apply outputGrows_same
      | intros f exec Hexec w; apply keeps_whenExpression_by_field;
        first [done | apply outputGrows_trans | intros; by apply outputGrows_same] ].
Qed.

(** *** Expressions have no side effect *)

(** X7: Evaluating an expression, however it ends, changes nothing in the graph,
    the heap, the context, [whenSubject] or the output; it only moves on in
    the random source. *)
Theorem expression_evaluation_only_draws (fuel : nat) (e : Expression)
    (s : Interpreter) :
  let s' := snd (evaluateExpression fuel e s) in
  nodes s' = nodes s /\ heap s' = heap s /\ context s' = context s
  /\ whenSubject s' = whenSubject s /\ output s' = output s
  /\ randomSource s' = randomSource s
  /\ (randomIndex s <= randomIndex s')%nat.
Proof.
  simpl. destruct (onlyDraws_evaluateExpression fuel e s) as [k Hk].
  rewrite Hk at 1 2 3 4 5 6. repeat (split; [reflexivity|]).
  apply (keeps_evaluateExpression true
           (fun s s' => (randomIndex s <= randomIndex s')%nat));
    first [done | intros; simpl; lia].
Qed.

(** *** Own properties: set, look up, remove *)

Lemma propertiesOf_update g n f m :
  Node.propertiesOf (Node.update g n f) m
  = if String.eqb n m
    then match OMap.get g n with Some nd => properties (f nd) | None => [] end
    else Node.propertiesOf g m.
Proof.
  unfold Node.propertiesOf. rewrite get_update.
  destruct (String.eqb n m); auto. by destruct (OMap.get g n).
Qed.

Lemma propertiesOf_getOrCreateNode g n m :
  Node.propertiesOf (Graph.getOrCreateNode g n) m = Node.propertiesOf g m.
Proof.
  unfold Node.propertiesOf, Graph.getOrCreateNode.
  destruct (OMap.get g n) eqn:En; auto.
  destruct (OMap.get g m) eqn:Em.
  - by rewrite (get_app_Some _ _ _ _ Em).
  - rewrite (get_app_None _ _ _ Em). simpl. by destruct (String.eqb n m).
Qed.

Lemma keys_set {V} (m : list (string * V)) k v :
  OMap.keys (OMap.set m k v)
  = if OMap.has m k then OMap.keys m else OMap.keys m ++ [k].
Proof.
  unfold OMap.has, OMap.keys. induction m as [|[k' v'] m IH]; simpl; [done|].
  destruct (String.eqb_spec k' k) as [->|]; [done|]. simpl. rewrite IH.
  by destruct (OMap.get m k).
Qed.

Lemma NoDup_keys_set {V} (m : list (string * V)) k v :
  NoDup (OMap.keys m) -> NoDup (OMap.keys (OMap.set m k v)).
Proof.
  intros H. rewrite keys_set. unfold OMap.has.
  destruct (OMap.get m k) eqn:E; [exact H|].
  apply NoDup_app. split; [exact H|]. split; [|apply NoDup_singleton].
  intros x Hx Hx'. apply list_elem_of_singleton in Hx' as ->.
  apply (get_None_not_key _ _ E). by apply list_elem_of_In.
Qed.

Lemma get_delete_eq {V} (m : list (string * V)) k :
  NoDup (OMap.keys m) -> OMap.get (OMap.delete m k) k = None.
Proof.
  unfold OMap.keys. induction m as [|[k' v'] m IH]; simpl; [done|].
  intros H. apply NoDup_cons in H as [Hk' H].
  destruct (String.eqb_spec k' k) as [->|Hne].
  - destruct (OMap.get m k) eqn:E; [|done].
    destruct Hk'. apply list_elem_of_In. apply get_In in E.
    change k with (fst (k, v)). by apply in_map.
  - simpl. destruct (String.eqb_spec k' k); [done|]. by apply IH.
Qed.

Lemma get_delete_ne {V} (m : list (string * V)) k k' :
  k <> k' -> OMap.get (OMap.delete m k) k' = OMap.get m k'.
Proof.
  intros Hne. induction m as [|[k0 v0] m IH]; simpl; [done|].
  destruct (String.eqb_spec k0 k) as [->|].
  - by destruct (String.eqb_spec k k').
  - simpl. by rewrite IH.
Qed.

Lemma NoDup_keys_delete {V} (m : list (string * V)) k :
  NoDup (OMap.keys m) -> NoDup (OMap.keys (OMap.delete m k)).
Proof.
  unfold OMap.keys. induction m as [|[k' v'] m IH]; simpl; [done|].
  intros H. apply NoDup_cons in H as [Hk' H].
  destruct (String.eqb_spec k' k) as [->|Hne]; [exact H|].
  simpl. apply NoDup_cons. split; [|by apply IH].
  intros Hin. apply Hk'. apply list_elem_of_In in Hin. apply list_elem_of_In.
  apply in_map_iff in Hin as ([k0 v0] & <- & Hin). simpl.
  assert (Hsub : forall x, In x (OMap.delete m k) -> In x m).
  { clear. induction m as [|[k1 v1] m IH]; simpl; [done|].
    destruct (String.eqb k1 k); simpl; intuition. }
  change k0 with (fst (k0, v0)). apply in_map. by apply Hsub.
Qed.

Lemma distinctKeys_update s n f :
  (forall nd, NoDup (OMap.keys (properties nd)) ->
              NoDup (OMap.keys (properties (f nd)))) ->
  distinctKeys s -> distinctKeys (set_nodes (Node.update (nodes s) n f) s).
Proof.
  intros Hf H m. simpl. rewrite propertiesOf_update.
  destruct (String.eqb_spec n m) as [->|]; [|apply H].
  specialize (H m). unfold Node.propertiesOf in H.
  destruct (OMap.get (nodes s) m); [by apply Hf|apply NoDup_nil_2].
Qed.

Lemma distinctKeys_execute fuel statements s :
  distinctKeys s -> distinctKeys (snd (execute fuel statements s)).
Proof.
  apply (keeps_execute true (fun s s' => distinctKeys s -> distinctKeys s'));
    first
      [ done
      | intros; tauto
      | intros s0 name H m; simpl; rewrite propertiesOf_getOrCreateNode; apply H
      | intros; apply distinctKeys_update; [|done]; intros nd; simpl;
        first [done | apply NoDup_keys_set | apply NoDup_keys_delete]
      | intros f exec Hexec w; apply keeps_whenExpression_by_field;
        first [done | intros; tauto] ].
Qed.

Lemma reachable_distinctKeys s : reachable s -> distinctKeys s.
Proof.
  induction 1 as [random|fuel statements s Hs IH].
  - intros n. apply NoDup_nil_2.
  - by apply distinctKeys_execute.
Qed.

(** X8: Round trips of the own properties of a node of a reachable graph:
    [setProperty] then [getProperty] gives the value back, also when a parent
    has the property; [removeProperty] then [hasOwnProperty] is false; and
    neither touches another key of the node or another node. *)
Theorem own_property_round_trip (s : Interpreter) (n name : string) (v : Value) :
  reachable s ->
  Graph.hasNode (nodes s) n = true ->
  (forall fuel, Node.getProperty (S fuel) (Node.setProperty (nodes s) n name v) n name
                = Some v)
  /\ Node.hasOwnProperty (Node.setProperty (nodes s) n name v) n name = true
  /\ Node.hasOwnProperty (Node.removeProperty (nodes s) n name) n name = false
  /\ (forall other, other <> name ->
        OMap.get (Node.propertiesOf (Node.setProperty (nodes s) n name v) n) other
        = OMap.get (Node.propertiesOf (nodes s) n) other
        /\ OMap.get (Node.propertiesOf (Node.removeProperty (nodes s) n name) n) other
           = OMap.get (Node.propertiesOf (nodes s) n) other)
  /\ (forall m, m <> n ->
        Node.propertiesOf (Node.setProperty (nodes s) n name v) m
        = Node.propertiesOf (nodes s) m
        /\ Node.propertiesOf (Node.removeProperty (nodes s) n name) m
           = Node.propertiesOf (nodes s) m).
Proof.
  intros Hs Hn. pose proof (reachable_distinctKeys s Hs n) as Hkeys.
  unfold Graph.hasNode, OMap.has in Hn.
  unfold Node.hasOwnProperty, OMap.has, Node.setProperty, Node.removeProperty.
  unfold Node.propertiesOf in Hkeys.
  destruct (OMap.get (nodes s) n) as [nd|] eqn:E; [|discriminate].
  assert (Hset : OMap.get (Node.propertiesOf
                   (Node.update (nodes s) n
                      (fun nd => {| parents := parents nd;
                                    properties := OMap.set (properties nd) name v |}))
                   n) name = Some v).
  { rewrite propertiesOf_update, String.eqb_refl, E. simpl. apply get_set_eq. }
  split; [intros fuel; simpl; fold (Node.setProperty (nodes s) n name v);
          unfold Node.setProperty; by rewrite Hset|].
  split; [by rewrite Hset|]. split.
  { rewrite propertiesOf_update, String.eqb_refl, E. simpl.
    by rewrite get_delete_eq. }
  split.
  - intros other Hne. rewrite !propertiesOf_update, String.eqb_refl, E. simpl.
    unfold Node.propertiesOf. rewrite E. split.
    + by apply get_set_ne.
    + by apply get_delete_ne.
  - intros m Hne. rewrite !propertiesOf_update.
    by destruct (String.eqb_spec n m).
Qed.

Lemma own_property_round_trip_witness :
  Node.hasOwnProperty
    (Node.removeProperty (nodes playerEntity) "Entity" "HP") "Entity" "HP" = false.
Proof.
  apply (own_property_round_trip playerEntity "Entity" "HP" VNull).
  - apply reachable_execute, reachable_new.
  - reflexivity.
Defined.

(** ** References never dangle *)

Lemma Forall_live_grow s s' l :
  (forall ref, live s ref -> live s' ref) -> Forall (live s) l -> Forall (live s') l.
Proof. intros H Hl. eapply Forall_impl; [exact Hl|exact H]. Qed.

Lemma refsafe_ret {A} known (a : A) post :
  (forall x, In x (post a) -> In x known) -> refsafe known (ret a) post.
Proof.
  intros H s Hc Hk. split; [exact Hc|]. split; [done|].
  intros a' [= <-]. simpl. rewrite Forall_forall in *.
  intros x Hx. apply Hk. apply list_elem_of_In, H. by apply list_elem_of_In.
Qed.

Lemma refsafe_ret_nothing {A} known (a : A) : refsafe known (ret a) nothing.
Proof. apply refsafe_ret. intros x []. Qed.

Lemma refsafe_throw {A} known e post : refsafe known (@throw A e) post.
Proof. intros s Hc Hk. split; [exact Hc|]. split; done. Qed.

Lemma refsafe_diverge {A} known post : refsafe known (@diverge A) post.
Proof. intros s Hc Hk. split; [exact Hc|]. split; done. Qed.

(** A computation that only reads, with what it returns. *)
Lemma refsafe_reads {A} known (m : M A) post :
  (forall s, snd (m s) = s) ->
  (forall s a, closed s -> fst (m s) = Normal a -> Forall (live s) (post a)) ->
  refsafe known m post.
Proof.
  intros Hread Hpost s Hc Hk. rewrite Hread. split; [exact Hc|]. split; [done|].
  intros a Ha. by apply Hpost.
Qed.

Lemma refsafe_bind {A B} known (m : M A) (k : A -> M B) post1 post :
  refsafe known m post1 ->
  (forall a, refsafe (post1 a ++ known) (k a) post) ->
  refsafe known (bind m k) post.
Proof.
  intros Hm Hk s Hc Hkn. unfold bind.
  destruct (Hm s Hc Hkn) as (Hc1 & Hg1 & Hp1).
  destruct (m s) as [[a|e|] s1]; simpl in *; try (split; [done|split; done]).
  assert (Hkn1 : Forall (live s1) (post1 a ++ known)).
  { apply Forall_app. split; [by apply Hp1|by eapply Forall_live_grow]. }
  destruct (Hk a s1 Hc1 Hkn1) as (Hc2 & Hg2 & Hp2).
  split; [exact Hc2|]. split; [auto|exact Hp2].
Qed.

Lemma refsafe_known {A} known known' (m : M A) post :
  (forall x, In x known -> In x known') -> refsafe known m post -> refsafe known' m post.
Proof.
  intros Hin Hm s Hc Hk. apply Hm; [exact Hc|].
  rewrite Forall_forall in *. intros x Hx. apply Hk.
  apply list_elem_of_In, Hin. by apply list_elem_of_In.
Qed.

Lemma refsafe_post {A} known (m : M A) post post' :
  (forall a x, In x (post' a) -> In x (post a) \/ In x known) ->
  refsafe known m post -> refsafe known m post'.
Proof.
  intros Hin Hm s Hc Hk. destruct (Hm s Hc Hk) as (Hc1 & Hg & Hp).
  split; [exact Hc1|]. split; [exact Hg|]. intros a Ha.
  specialize (Hp a Ha). rewrite Forall_forall in *. intros x Hx.
  apply list_elem_of_In in Hx. destruct (Hin a x Hx) as [H|H].
  - apply Hp. by apply list_elem_of_In.
  - apply Hg, Hk. by apply list_elem_of_In.
Qed.

Lemma refsafe_tryFinally {A} known (m : M A) (fin : M unit) :
  refsafe known m nothing -> refsafe known fin nothing ->
  refsafe known (tryFinally m fin) nothing.
Proof.
  intros Hm Hf s Hc Hk. unfold tryFinally.
  destruct (Hm s Hc Hk) as (Hc1 & Hg1 & _).
  destruct (m s) as [[a|e|] s1]; simpl in *; try (split; [done|split; done]);
    (assert (Hk1 : Forall (live s1) known) by (by eapply Forall_live_grow));
    destruct (Hf s1 Hc1 Hk1) as (Hc2 & Hg2 & _);
    destruct (fin s1) as [[[]|e'|] s2]; simpl in *;
    (split; [done|split; [auto|done]]).
Qed.

Lemma refsafe_tryCatch {A} known (m handler : M A) post :
  refsafe known m post -> refsafe known handler post ->
  refsafe known (tryCatch m handler) post.
Proof.
  intros Hm Hh s Hc Hk. unfold tryCatch.
  destruct (Hm s Hc Hk) as (Hc1 & Hg1 & Hp1).
  destruct (m s) as [[a|e|] s1]; simpl in *; try (split; [done|split; done]).
  assert (Hk1 : Forall (live s1) known) by (by eapply Forall_live_grow).
  destruct (Hh s1 Hc1 Hk1) as (Hc2 & Hg2 & Hp2).
  split; [done|]. split; [auto|done].
Qed.

Lemma refsafe_forEach {A} known (body : A -> M unit) xs :
  (forall x, In x xs -> refsafe known (body x) nothing) ->
  refsafe known (forEach body xs) nothing.
Proof.
  induction xs as [|x xs IH]; intros H; simpl.
  - apply refsafe_ret_nothing.
  - eapply refsafe_bind; [apply H; by left|]. intros []. simpl.
    apply IH. intros y Hy. apply H. by right.
Qed.

Lemma refsafe_mapM {A B} known (f : A -> M B) xs :
  (forall x, refsafe known (f x) nothing) -> refsafe known (mapM f xs) nothing.
Proof.
  intros H. induction xs as [|x xs IH]; simpl.
  - apply refsafe_ret_nothing.
  - eapply refsafe_bind; [apply H|]. intros y. simpl.
    eapply refsafe_bind; [exact IH|]. intros ys. apply refsafe_ret_nothing.
Qed.

Lemma refsafe_anyM {A} known (check : A -> M bool) xs :
  (forall x, refsafe known (check x) nothing) -> refsafe known (anyM check xs) nothing.
Proof.
  intros H. induction xs as [|x xs IH]; simpl.
  - apply refsafe_ret_nothing.
  - eapply refsafe_bind; [apply H|]. intros []; simpl;
      [apply refsafe_ret_nothing|exact IH].
Qed.

(** [filterM] returns some of the elements it was given. *)
Lemma refsafe_filterM known (p : string -> M bool) xs :
  (forall x, In x xs -> refsafe known (p x) nothing) ->
  (forall x, In x xs -> In (NodeRef x) known) ->
  refsafe known (filterM p xs) nodeRefs.
Proof.
  induction xs as [|x xs IH]; intros H Hin; simpl.
  - apply refsafe_ret. intros x [].
  - eapply refsafe_bind; [apply H; by left|]. intros keep. simpl.
    eapply refsafe_bind; [apply IH; intros y Hy; [apply H|apply Hin]; by right|].
    intros kept. apply refsafe_ret. intros y Hy. apply in_or_app.
    destruct keep; [destruct Hy as [<-|Hy]|]; auto using in_eq.
Qed.

(** *** The primitive effects *)

Lemma key_has {V} (m : list (string * V)) k :
  In k (OMap.keys m) -> OMap.has m k = true.
Proof.
  unfold OMap.has. intros H. destruct (OMap.get m k) eqn:E; [done|].
  by destruct (get_None_not_key _ _ E).
Qed.

Lemma live_fields s s' ref :
  nodes s' = nodes s -> length (heap s) <= length (heap s') ->
  live s ref -> live s' ref.
Proof.
  intros Hn Hh. destruct ref; simpl; unfold isNode; [by rewrite Hn|lia].
Qed.

Lemma closed_fields s s' :
  nodes s' = nodes s -> context s' = context s -> whenSubject s' = whenSubject s ->
  length (heap s) <= length (heap s') ->
  closed s -> closed s'.
Proof.
  intros Hn Hx Hw Hh (Hp & Hq & Hc & Hs).
  assert (Hl : forall l, Forall (live s) l -> Forall (live s') l).
  { intros l. apply Forall_live_grow. intros ref. by apply live_fields. }
  unfold closed, isNode in *. rewrite Hn, Hx, Hw. eauto 10.
Qed.

(** An effect on the output, the heap or the random source only. *)
Lemma refsafe_fields {A} known (m : M A) :
  (forall s, nodes (snd (m s)) = nodes s /\ context (snd (m s)) = context s
             /\ whenSubject (snd (m s)) = whenSubject s
             /\ length (heap s) <= length (heap (snd (m s)))) ->
  refsafe known m nothing.
Proof.
  intros H s Hc Hk. destruct (H s) as (Hn & Hx & Hw & Hh).
  split; [by eapply closed_fields|]. split; [|intros; constructor].
  intros ref. by apply live_fields.
Qed.

Lemma refsafe_gets {A} known (f : Interpreter -> A) : refsafe known (gets f) nothing.
Proof. by apply refsafe_fields. Qed.

Lemma refsafe_walk {A} known (f : Interpreter -> option A) : refsafe known (walk f) nothing.
Proof. apply refsafe_fields. intros s. unfold walk. by destruct (f s). Qed.

Lemma refsafe_onOutput known line : refsafe known (onOutput line) nothing.
Proof. by apply refsafe_fields. Qed.

Lemma refsafe_random known : refsafe known Math_random nothing.
Proof. by apply refsafe_fields. Qed.

Lemma refsafe_heapSet known r l : refsafe known (heapSet r l) nothing.
Proof.
  apply refsafe_fields. intros s. simpl. by rewrite length_insert.
Qed.

Lemma refsafe_heapAlloc known l :
  refsafe known (heapAlloc l) (fun r => [HeapRef r]).
Proof.
  intros s Hc Hk.
  assert (Hh : length (heap s) <= length (heap s ++ [l])).
  { rewrite length_app. lia. }
  split; [by apply (closed_fields s)|].
  split; [intros ref; by apply live_fields|].
  intros a [= <-]. repeat constructor. simpl. rewrite length_app. simpl. lia.
Qed.

Lemma refsafe_contextSet known name v :
  (forall x, In x (valueRefs v) -> In x known) ->
  refsafe known (contextSet name v) nothing.
Proof.
  intros Hv s (Hp & Hq & Hx & Hw) Hk. split; [|split; [done|intros; constructor]].
  split; [exact Hp|]. split; [exact Hq|]. split; [|exact Hw].
  intros k w. simpl. destruct (decide (name = k)) as [->|Hne].
  - rewrite lookup_insert_eq. intros [= <-]. rewrite Forall_forall in *.
    intros x Hin. apply Hk, list_elem_of_In, Hv. by apply list_elem_of_In.
  - rewrite lookup_insert_ne by done. apply Hx.
Qed.

Lemma refsafe_contextDelete known name : refsafe known (contextDelete name) nothing.
Proof.
  intros s (Hp & Hq & Hx & Hw) Hk. split; [|split; [done|intros; constructor]].
  split; [exact Hp|]. split; [exact Hq|]. split; [|exact Hw].
  intros k w. simpl. destruct (decide (name = k)) as [->|Hne].
  - by rewrite lookup_delete_eq.
  - rewrite lookup_delete_ne by done. apply Hx.
Qed.

Lemma refsafe_set_whenSubject known w :
  (forall x, In x (optionRefs w) -> In x known) ->
  refsafe known (modify (set_whenSubject w)) nothing.
Proof.
  intros Hv s (Hp & Hq & Hx & Hw) Hk. split; [|split; [done|intros; constructor]].
  split; [exact Hp|]. split; [exact Hq|]. split; [exact Hx|].
  intros m. simpl. intros ->. rewrite Forall_forall in Hk.
  apply (Hk (NodeRef m)), list_elem_of_In, Hv. by left.
Qed.

Lemma closed_same_nodes s g :
  (forall n, Graph.hasNode (nodes s) n = true -> Graph.hasNode g n = true) ->
  (forall n p, In p (Node.parentsOf g n) ->
               In p (Node.parentsOf (nodes s) n) \/ isNode s p) ->
  (forall n k v, In (k, v) (Node.propertiesOf g n) ->
                 In (k, v) (Node.propertiesOf (nodes s) n)
                 \/ Forall (live s) (valueRefs v)) ->
  closed s ->
  closed (set_nodes g s) /\ (forall ref, live s ref -> live (set_nodes g s) ref).
Proof.
  intros Hg Hpar Hprop (Hp & Hq & Hx & Hw).
  assert (Hlive : forall ref, live s ref -> live (set_nodes g s) ref).
  { intros [n|r]; simpl; [apply Hg|done]. }
  assert (Hl : forall l, Forall (live s) l -> Forall (live (set_nodes g s)) l).
  { intros l. by apply Forall_live_grow. }
  split; [|exact Hlive]. split; [|split; [|split]].
  - intros n p H. apply (Hlive (NodeRef p)). destruct (Hpar n p H); simpl; eauto.
  - intros n k v H. apply Hl. destruct (Hprop n k v H); eauto.
  - intros k v H. apply Hl. eauto.
  - intros m H. apply (Hlive (NodeRef m)). simpl. eauto.
Qed.

Lemma refsafe_getOrCreateNode known name :
  refsafe known (graphGetOrCreateNode name) (fun a => [NodeRef a]).
Proof.
  intros s Hc Hk. simpl.
  destruct (closed_same_nodes s (Graph.getOrCreateNode (nodes s) name)) as [H1 H2];
    [apply hasNode_getOrCreateNode| | |exact Hc|].
  - intros n p. rewrite parentsOf_getOrCreateNode. auto.
  - intros n k m. rewrite propertiesOf_getOrCreateNode. auto.
  - split; [exact H1|]. split; [exact H2|].
    intros a [= <-]. constructor; [|constructor].
    apply hasNode_getOrCreateNode_same.
Qed.

Lemma in_set {V} (m : list (string * V)) k v x :
  In x (OMap.set m k v) -> x = (k, v) \/ In x m.
Proof.
  induction m as [|[k' v'] m IH]; simpl; [intuition|].
  destruct (String.eqb_spec k' k) as [->|]; simpl; intuition.
Qed.

Lemma in_delete {V} (m : list (string * V)) k x :
  In x (OMap.delete m k) -> In x m.
Proof.
  induction m as [|[k' v'] m IH]; simpl; [done|].
  destruct (String.eqb k' k); simpl; intuition.
Qed.

Lemma in_spliceFirst l x y : In y (Node.spliceFirst l x) -> In y l.
Proof.
  induction l as [|z l IH]; simpl; [done|].
  destruct (String.eqb z x); simpl; intuition.
Qed.

Lemma refsafe_update known n f :
  (forall nd p, In p (parents (f nd)) -> In p (parents nd) \/ In (NodeRef p) known) ->
  (forall nd k v, In (k, v) (properties (f nd)) ->
                  In (k, v) (properties nd)
                  \/ (forall x, In x (valueRefs v) -> In x known)) ->
  refsafe known (modify (fun s => set_nodes (Node.update (nodes s) n f) s)) nothing.
Proof.
  intros Hpar Hprop s Hc Hk. rewrite Forall_forall in Hk.
  destruct (closed_same_nodes s (Node.update (nodes s) n f)) as [H1 H2];
    [| | |exact Hc|].
  - intros m. by rewrite hasNode_update.
  - intros m p. rewrite parentsOf_update.
    destruct (String.eqb_spec n m) as [->|]; [|auto].
    unfold Node.parentsOf. destruct (OMap.get (nodes s) m); [|done].
    intros H. destruct (Hpar _ _ H); [auto|]. right.
    by apply (Hk (NodeRef p)), list_elem_of_In.
  - intros m k v. rewrite propertiesOf_update.
    destruct (String.eqb_spec n m) as [->|]; [|auto].
    unfold Node.propertiesOf. destruct (OMap.get (nodes s) m); [|done].
    intros H. destruct (Hprop _ _ _ H) as [|Hv]; [auto|]. right.
    apply Forall_forall. intros x Hx. apply Hk, list_elem_of_In, Hv.
    by apply list_elem_of_In.
  - split; [exact H1|]. split; [exact H2|intros; constructor].
Qed.

Lemma refsafe_setProperty known n name v :
  (forall x, In x (valueRefs v) -> In x known) ->
  refsafe known (nodeSetProperty n name v) nothing.
Proof.
  intros Hv. apply refsafe_update; simpl; [auto|].
  intros nd k w H. apply in_set in H as [[= <- <-]|H]; auto.
Qed.

Lemma refsafe_removeProperty known n name :
  refsafe known (nodeRemoveProperty n name) nothing.
Proof.
  apply refsafe_update; simpl; [auto|].
  intros nd k m H. left. by eapply in_delete.
Qed.

Lemma refsafe_addParent known n p :
  In (NodeRef p) known -> refsafe known (nodeAddParent n p) nothing.
Proof.
  intros Hp. apply refsafe_update; simpl; [|auto].
  intros nd q. destruct (Node.includes (parents nd) p); [auto|].
  intros H. apply in_app_or in H as [H|[<-|[]]]; auto.
Qed.

Lemma refsafe_removeParent known n p : refsafe known (nodeRemoveParent n p) nothing.
Proof.
  apply refsafe_update; simpl; [|auto].
  intros nd q H. left. by eapply in_spliceFirst.
Qed.

(** *** Reads that return references *)

Lemma refsafe_graphGetNode known name :
  refsafe known (graphGetNode name) optionRefs.
Proof.
  apply refsafe_reads; [done|]. intros s a _. unfold graphGetNode, gets. simpl.
  destruct (Graph.hasNode (nodes s) name) eqn:E; intros [= <-]; simpl;
    repeat constructor. exact E.
Qed.

Lemma Forall_nodeRefs s l :
  (forall n, In n l -> isNode s n) -> Forall (live s) (nodeRefs l).
Proof.
  intros H. apply Forall_forall. intros ref Hr.
  apply list_elem_of_In, in_map_iff in Hr as (n & <- & Hn). by apply H.
Qed.

Lemma refsafe_graphAllNodes known : refsafe known graphAllNodes nodeRefs.
Proof.
  apply refsafe_reads; [done|]. intros s a _ [= <-]. apply Forall_nodeRefs.
  intros n Hn. by apply key_has.
Qed.

(** The children that [executeEach] collects. *)
Lemma refsafe_children known (keep : Interpreter -> string -> bool) :
  refsafe known
    (gets (fun s => List.filter (keep s) (Graph.allNodes (nodes s)))) nodeRefs.
Proof.
  apply refsafe_reads; [done|]. intros s a _ [= <-]. apply Forall_nodeRefs.
  intros n Hn. apply filter_In in Hn as [Hn _]. by apply key_has.
Qed.

Lemma refsafe_contextGet known name :
  refsafe known (contextGet name)
    (fun o => match o with Some v => valueRefs v | None => [] end).
Proof.
  apply refsafe_reads; [done|]. intros s a (_ & _ & Hx & _) [= <-].
  destruct (context s !! name) as [v|] eqn:E; [|constructor]. by eapply Hx.
Qed.

Lemma refsafe_gets_whenSubject known : refsafe known (gets whenSubject) optionRefs.
Proof.
  apply refsafe_reads; [done|]. intros s a (_ & _ & _ & Hw) [= <-].
  destruct (whenSubject s) eqn:E; simpl; repeat constructor. by apply Hw.
Qed.

Lemma firstNonNull_from lookup ps v :
  Node.firstNonNull lookup ps = Some v ->
  v = VNull \/ exists p, lookup p = Some v.
Proof.
  induction ps as [|p ps IH]; simpl; [intros [= <-]; by left|].
  destruct (lookup p) as [w|] eqn:E; [|discriminate].
  destruct w; try (intros [= <-]; right; by exists p). exact IH.
Qed.

(** What [getProperty] returns is null or an own entry of some node. *)
Lemma getProperty_owned g name : forall fuel n v,
  Node.getProperty fuel g n name = Some v ->
  v = VNull \/ exists m, In (name, v) (Node.propertiesOf g m).
Proof.
  induction fuel as [|fuel IH]; intros n v; simpl; [discriminate|].
  destruct (OMap.get (Node.propertiesOf g n) name) as [w|] eqn:E.
  - intros [= <-]. right. exists n. by apply get_In.
  - intros H. apply firstNonNull_from in H as [->|[p Hp]]; [by left|].
    by apply IH in Hp.
Qed.

Lemma refsafe_nodeGetProperty known fuel n name :
  refsafe known (nodeGetProperty fuel n name) valueRefs.
Proof.
  apply refsafe_reads.
  - intros s. unfold nodeGetProperty, walk. by destruct (Node.getProperty _ _ _ _).
  - intros s a (_ & Hq & _ & _). unfold nodeGetProperty, walk.
    destruct (Node.getProperty fuel (nodes s) n name) as [v|] eqn:E; [|discriminate].
    intros [= <-]. apply getProperty_owned in E as [->|[m Hm]]; [constructor|].
    by eapply Hq.
Qed.

Lemma refsafe_throw_nothing {A} known e : refsafe known (@throw A e) nothing.
Proof. apply refsafe_throw. Qed.

Lemma refsafe_diverge_nothing {A} known : refsafe known (@diverge A) nothing.
Proof. apply refsafe_diverge. Qed.

Lemma refsafe_forget {A} known (m : M A) post :
  refsafe known m post -> refsafe known m nothing.
Proof. apply refsafe_post. intros a x []. Qed.

Ltac side :=
  solve [ intros; unfold nodeRefs in *; simpl in *; subst;
          repeat rewrite in_app_iff; simpl;
          intuition (subst; eauto using in_map) ].

Ltac refs_leaf :=
  first
    [ apply refsafe_ret_nothing | apply refsafe_throw_nothing
    | apply refsafe_diverge_nothing
    | apply refsafe_throw | apply refsafe_diverge
    | apply refsafe_onOutput | apply refsafe_random | apply refsafe_heapSet
    | apply refsafe_contextDelete | apply refsafe_heapAlloc
    | apply refsafe_removeProperty | apply refsafe_removeParent
    | apply refsafe_getOrCreateNode | apply refsafe_graphGetNode
    | apply refsafe_graphAllNodes | apply refsafe_children
    | apply refsafe_contextGet | apply refsafe_gets_whenSubject
    | apply refsafe_nodeGetProperty
    | apply refsafe_gets | apply refsafe_walk
    | apply refsafe_contextSet; side | apply refsafe_set_whenSubject; side
    | apply refsafe_setProperty; side | apply refsafe_addParent; side
    | apply refsafe_ret; side
    | match goal with H : _ |- _ => apply H; try side end ].

Ltac refs :=
  repeat first
    [ assumption
    | refs_leaf
    | eapply refsafe_forget; refs_leaf
    | eapply refsafe_bind; [|intros ?; simpl]
    | apply refsafe_tryFinally
    | apply refsafe_tryCatch
    | apply refsafe_forEach; intros ? ?
    | apply refsafe_filterM; [intros ? ?|side]
    | apply refsafe_mapM; intros ?
    | apply refsafe_anyM; intros ?
    | match goal with
      | |- refsafe _ (match ?x with _ => _ end) _ => destruct x
      | |- refsafe _ (if ?b then _ else _) _ => destruct b
      | |- refsafe _ (let _ := _ in _) _ => cbv zeta
      end ].

(** *** The evaluator *)

Lemma refsafe_toNumber known fuel v : refsafe known (toNumber fuel v) nothing.
Proof. unfold toNumber, toStr. refs. Qed.

Lemma refsafe_resolveIdentifier known fuel name :
  refsafe known (resolveIdentifier fuel name) valueRefs.
Proof.
  unfold resolveIdentifier.
  eapply refsafe_bind; [apply refsafe_contextGet|]. intros [v|]; simpl.
  { apply refsafe_ret. side. }
  eapply refsafe_bind; [apply refsafe_graphGetNode|]. intros [n|]; simpl.
  { apply refsafe_ret. side. }
  eapply refsafe_bind; [apply refsafe_gets_whenSubject|]. intros [w|]; simpl.
  - eapply refsafe_bind; [apply refsafe_nodeGetProperty|]. intros v; simpl.
    destruct v; first [apply refsafe_throw|apply refsafe_ret; side].
  - apply refsafe_throw.
Qed.

Lemma refsafe_scalar {A} known (m : M A) (f : A -> Value) :
  (forall a, valueRefs (f a) = []) ->
  refsafe known m nothing -> refsafe known (a <- m ;; ret (f a)) valueRefs.
Proof.
  intros Hf Hm. eapply refsafe_bind; [exact Hm|]. intros a.
  apply refsafe_ret. rewrite Hf. intros x [].
Qed.

Lemma refsafe_compare known fuel l r : refsafe known (compare fuel l r) nothing.
Proof. pose proof (refsafe_toNumber). unfold compare. refs. Qed.

Lemma refsafe_binaryOperation known fuel op l r :
  refsafe known (binaryOperation fuel op l r) valueRefs.
Proof.
  pose proof refsafe_toNumber. pose proof refsafe_compare.
  destruct op; cbn [binaryOperation]; unfold add, toStr;
    try (destruct (isString l || isString r));
    repeat first
      [ apply refsafe_throw
      | apply refsafe_ret; side
      | eapply refsafe_bind; [first [apply refsafe_toNumber|apply refsafe_compare
                                    |apply refsafe_walk]|intros ?; simpl]
      | match goal with |- refsafe _ (if ?b then _ else _) _ => destruct b end ].
Qed.

Lemma refsafe_evaluateExpression known fuel e :
  refsafe known (evaluateExpression fuel e) valueRefs.
Proof.
  revert known.
  induction e as [q|str|name|obj IHe prop|lhs IHe1 b rhs IHe2|u operand IHe
                 |inner IHe|lo IHe1 hi IHe2];
    intros known; cbn [evaluateExpression].
  - apply refsafe_ret; side.
  - apply refsafe_ret; side.
  - apply refsafe_resolveIdentifier.
  - eapply refsafe_bind; [apply IHe|]. intros [ | | | |n| | | | ]; simpl;
      try apply refsafe_throw.
    eapply refsafe_bind; [apply refsafe_nodeGetProperty|]. intros v; simpl.
    destruct v; first [apply refsafe_throw|apply refsafe_ret; side].
  - destruct b;
      (eapply refsafe_bind; [apply IHe1|]; intros l; cbv beta iota;
       try (match goal with |- refsafe _ (if ?b then _ else _) _ => destruct b end;
            [apply refsafe_ret; side|]);
       try (match goal with |- refsafe _ (if ?b then _ else _) _ => destruct b end;
            [|apply refsafe_ret; side]);
       eapply refsafe_bind; [apply IHe2|]; intros r;
       first [apply refsafe_binaryOperation|simpl; apply refsafe_ret; side]).
  - destruct u.
    + eapply refsafe_bind; [apply IHe|]. intros v; simpl.
      eapply refsafe_bind; [apply refsafe_toNumber|]. intros n; simpl.
      apply refsafe_ret; side.
    + eapply refsafe_bind; [apply IHe|]. intros v; simpl.
      apply refsafe_ret; side.
  - apply IHe.
  - eapply refsafe_bind; [apply IHe1|]. intros v1; simpl.
    eapply refsafe_bind; [apply IHe2|]. intros v2; simpl.
    eapply refsafe_bind; [apply refsafe_toNumber|]. intros nlo; simpl.
    eapply refsafe_bind; [apply refsafe_toNumber|]. intros nhi; simpl.
    eapply refsafe_bind; [apply refsafe_random|]. intros u; simpl.
    apply refsafe_ret; side.
Qed.

Lemma refsafe_nodeCan ability : forall fuel known node,
  refsafe known (nodeCan fuel node ability) nothing.
Proof.
  induction fuel as [|fuel IH]; intros known node; cbn [nodeCan];
    unfold asStringSet, heapGet, nodeParents; refs.
Qed.

Lemma refsafe_resolveNode known name :
  refsafe known (resolveNode name) (fun a => [NodeRef a]).
Proof.
  unfold resolveNode.
  eapply refsafe_bind; [apply refsafe_contextGet|]. intros [[]|]; simpl;
    first [apply refsafe_getOrCreateNode|apply refsafe_ret; side].
Qed.

Lemma refsafe_resolveNodeOrNull known name :
  refsafe known (resolveNodeOrNull name) optionRefs.
Proof.
  unfold resolveNodeOrNull.
  eapply refsafe_bind; [apply refsafe_contextGet|]. intros [[]|]; simpl;
    first [apply refsafe_graphGetNode|apply refsafe_ret; side].
Qed.

Lemma refsafe_promoteLiteral known value :
  refsafe known (promoteLiteral value) valueRefs.
Proof.
  unfold promoteLiteral. destruct value; simpl; try (apply refsafe_ret; side).
  eapply refsafe_bind; [apply refsafe_graphGetNode|]. intros [n|]; simpl;
    apply refsafe_ret; side.
Qed.

(** *** The statements *)

Section RefsafeStatements.
Variable fuel : nat.
Variable exec : list Statement -> M unit.
Hypothesis refsafe_exec : forall known l, refsafe known (exec l) nothing.

Lemma refsafe_executeCustomRelation known subject relation arguments :
  In (NodeRef subject) known ->
  refsafe known (executeCustomRelation fuel exec subject relation arguments) nothing.
Proof.
  intros Hs.
  unfold executeCustomRelation, bindRoleArguments, nodeIs, asStatementList,
    asRoleList, heapGet.
  refs.
Qed.

Lemma refsafe_executeRelation known subject relation arguments :
  refsafe known (executeRelation fuel exec subject relation arguments) nothing.
Proof.
  pose proof refsafe_executeCustomRelation. pose proof refsafe_resolveNode.
  pose proof refsafe_promoteLiteral.
  unfold executeRelation, executeIs, executeHas, executePrint, toStr.
  refs.
Qed.

Lemma refsafe_executeWhenExpression : forall w known,
  refsafe known (executeWhenExpression fuel exec w) nothing.
Proof.
  pose proof refsafe_evaluateExpression.
  fix IH 1. intros [subject condition body elseBody elseWhen] known.
  cbn [executeWhenExpression].
  destruct elseWhen as [w|]; [specialize (IH w)|clear IH]; refs.
Qed.

Lemma refsafe_dispatch known stmt : refsafe known (dispatch fuel exec stmt) nothing.
Proof.
  pose proof refsafe_executeRelation. pose proof refsafe_resolveNode.
  pose proof refsafe_resolveNodeOrNull. pose proof refsafe_promoteLiteral.
  pose proof refsafe_nodeCan. pose proof refsafe_evaluateExpression.
  pose proof refsafe_toNumber. pose proof refsafe_executeWhenExpression.
  destruct stmt; cbn [dispatch];
    unfold executeHasExpression, executeExpressionPrint, executeExpressionHas,
      executeRoleDefinition, executeDoBlock, executeCan, executeLoses,
      removeOwnProperty, executeDebug, dumpGraph, formatNode, executeWhen,
      evaluateCondition, evaluateHasCondition, executeChance, executeAll,
      getQueryResults, executeActionOnNode, executeEach, executeQuery,
      findMatchingNodes, matchesIsQuery, matchesHasQuery, matchesCanQuery,
      filterByWhereCondition, whereCandidate, reportMatches, nodeIs, toStr,
      asStringSet, asRoleList, asNodeList, heapGet, nodeParents, nodeProperties,
      nodeOwnProperty;
    refs.
Qed.
End RefsafeStatements.

Lemma refsafe_executeStatement : forall fuel known stmt,
  refsafe known (executeStatement fuel stmt) nothing.
Proof.
  induction fuel as [|fuel IH]; intros known stmt; cbn [executeStatement].
  - apply refsafe_diverge.
  - apply refsafe_dispatch. intros known' l. apply refsafe_forEach. auto.
Qed.

Lemma refsafe_execute fuel known statements :
  refsafe known (execute fuel statements) nothing.
Proof. apply refsafe_forEach. intros. apply refsafe_executeStatement. Qed.

Lemma closed_new random : closed (newInterpreter random).
Proof.
  unfold closed, isNode. simpl. split; [|split; [|split]]; try done.
Qed.

Lemma reachable_closed s : reachable s -> closed s.
Proof.
  induction 1 as [random|fuel statements s _ IH]; [apply closed_new|].
  by apply (refsafe_execute fuel [] statements s).
Qed.

(** X9: No dangling references: in every state the interpreter can be in, each
    parent of a node, each node stored as a property value or bound in the
    context, and the subject of the enclosing WHEN, is a node of the graph;
    and each [Set] or array stored as a property value or bound in the
    context has been allocated. *)
Theorem no_dangling_references s :
  reachable s ->
  (forall n p, In p (Node.parentsOf (nodes s) n) ->
               Graph.hasNode (nodes s) p = true)
  /\ (forall n k v ref,
        OMap.get (Node.propertiesOf (nodes s) n) k = Some v ->
        In ref (valueRefs v) -> live s ref)
  /\ (forall k v ref, context s !! k = Some v -> In ref (valueRefs v) -> live s ref)
  /\ (forall m, whenSubject s = Some m -> Graph.hasNode (nodes s) m = true).
Proof.
  intros H. destruct (reachable_closed s H) as (Hp & Hq & Hx & Hw).
  split; [exact Hp|]. split; [|split; [|exact Hw]].
  - intros n k v ref E Hin. apply get_In in E. apply Hq in E.
    rewrite Forall_forall in E. by apply E, list_elem_of_In.
  - intros k v ref E Hin. apply Hx in E.
    rewrite Forall_forall in E. by apply E, list_elem_of_In.
Qed.

Lemma no_dangling_references_witness :
  live
    (snd (execute 2 [IS "Squire" "Knight";
                     SRelation "Squire" "HAS" [LString "Liege"; LString "Knight"]]
            (newInterpreter noRandom)))
    (NodeRef "Knight").
Proof.
  apply (proj1 (proj2 (no_dangling_references _
                         (reachable_execute _ _ _ (reachable_new noRandom))))
           "Squire" "Liege" (VNode "Knight") (NodeRef "Knight")).
  - reflexivity.
  - simpl. by left.
Defined.

(** ** Abilities *)

Lemma includes_setAdd l x : Node.includes (setAdd l x) x = true.
Proof.
  unfold setAdd. destruct (Node.includes l x) eqn:E; [exact E|].
  apply includes_In, in_or_app. right. by left.
Qed.

(** [resolveNode] from a closed state: the state stays closed and what it
    returns is a node. *)
Lemma resolveNode_closed s name :
  closed s ->
  closed (resolveState s name)
  /\ Graph.hasNode (nodes (resolveState s name)) (resolveName s name) = true.
Proof.
  intros Hc. destruct (refsafe_resolveNode [] name s Hc) as (H1 & _ & H3);
    [constructor|].
  rewrite resolveNode_run in *. simpl in *. split; [exact H1|].
  specialize (H3 _ eq_refl). by inversion H3.
Qed.

(** [executeCan], by what the inherited lookup of [_Abilities] finds. *)
Lemma executeCan_fails (fuel : nat) (subject ability : string) (s : Interpreter) v :
  Node.getProperty fuel (nodes (resolveState s subject)) (resolveName s subject)
    "_Abilities" = v ->
  match v with
  | Some VNull | Some (VStringSet _) => True
  | _ => fst (executeCan fuel subject ability s) <> Normal tt
  end.
Proof.
  intros Hget. unfold executeCan.
  rewrite (bind_normal _ _ _ _ _ (resolveNode_run _ _)).
  unfold bind, nodeGetProperty, walk. rewrite Hget.
  by destruct v as [[]|].
Qed.

Lemma nodeCan_own_set fuel g h n ability r l s :
  nodes s = g -> heap s = h ->
  Node.getProperty (S fuel) g n "_Abilities" = Some (VStringSet r) ->
  h !! r = Some l ->
  Node.includes l ability = true ->
  nodeCan (S fuel) n ability s = (Normal true, s).
Proof.
  intros <- <- Hget Hr Hin. cbn [nodeCan].
  unfold bind at 1. unfold nodeGetProperty, walk. rewrite Hget.
  unfold bind, asStringSet, ret, heapGet, gets. simpl. rewrite Hr. simpl.
  by rewrite Hin.
Qed.

(** X10: After [subject CAN ability] has run, the node it was run on can:
    [nodeCan], the test behind [WHEN ... CAN] and the CAN queries, returns
    true for it, whether the ability went to a set of the node's own or to a
    set inherited from a parent. *)
Theorem can_then_nodeCan (fuel : nat) (subject ability : string) (s : Interpreter) :
  reachable s ->
  fst (executeCan (S fuel) subject ability s) = Normal tt ->
  nodeCan (S fuel) (resolveName s subject) ability
    (snd (executeCan (S fuel) subject ability s))
  = (Normal true, snd (executeCan (S fuel) subject ability s)).
Proof.
  intros Hs Hrun. apply reachable_closed in Hs.
  destruct (resolveNode_closed s subject Hs) as [Hc Hn].
  assert (Hheap : heap (resolveState s subject) = heap s).
  { unfold resolveState. by destruct (context s !! subject) as [[]|]. }
  pose proof (executeCan_fails (S fuel) subject ability s _ eq_refl) as Hf.
  destruct (Node.getProperty (S fuel) (nodes (resolveState s subject))
              (resolveName s subject) "_Abilities") as [v|] eqn:E; [|done].
  destruct v; try done.
  - rewrite executeCan_creates_set by exact E. simpl.
    eapply nodeCan_own_set; [reflexivity|reflexivity| | |].
    + simpl. apply getProperty_own. by apply propertiesOf_setProperty_same.
    + simpl. rewrite lookup_app_r by done. by rewrite Nat.sub_diag.
    + simpl. by rewrite String.eqb_refl.
  - rewrite (executeCan_adds_to_found_set _ _ _ _ ref) by exact E. simpl.
    assert (Hr : ref < length (heap s)).
    { apply getProperty_owned in E as [?|[m Hm]]; [done|].
      destruct Hc as (_ & Hq & _). apply Hq in Hm.
      inversion Hm as [|? ? Hlive _]. simpl in Hlive. by rewrite Hheap in Hlive. }
    eapply nodeCan_own_set; [reflexivity|reflexivity| | |].
    + exact E.
    + simpl. by apply list_lookup_insert_eq.
    + apply includes_setAdd.
Qed.

Lemma can_then_nodeCan_witness :
  nodeCan 2 "Hawk" "fly" (snd (executeCan 2 "Hawk" "fly" (newInterpreter noRandom)))
  = (Normal true, snd (executeCan 2 "Hawk" "fly" (newInterpreter noRandom))).
Proof.
  apply (can_then_nodeCan 1 "Hawk" "fly" (newInterpreter noRandom)).
  - apply reachable_new.
  - reflexivity.
Defined.

(** ** HAS with a literal *)

Lemma promoteLiteral_run value s : promoteLiteral value s = (Normal (promoted s value), s).
Proof.
  destruct value; try reflexivity. unfold promoteLiteral, promoted, bind, graphGetNode, gets.
  by destruct (Graph.hasNode (nodes s) s0).
Qed.

(** X11: [subject HAS prop value] with a literal value always succeeds, and the
    subject then owns [prop]: a number or null as written, a string as a
    reference to the node of that name when there is one (the subject itself
    included, even when this statement created it), and as a string
    otherwise. *)
Theorem has_promotes_node_names (fuel : nat) (exec : list Statement -> M unit)
    (subject relation prop : string) (value : Literal) (s : Interpreter) :
  reachable s ->
  Js.toUpperCase relation = "HAS" ->
  fst (executeRelation fuel exec subject relation [LString prop; value] s) = Normal tt
  /\ OMap.get
       (Node.propertiesOf
          (nodes (snd (executeRelation fuel exec subject relation
                         [LString prop; value] s)))
          (resolveName s subject))
       prop
     = Some (promoted (resolveState s subject) value).
Proof.
  intros Hs Hup. apply reachable_closed in Hs.
  destruct (resolveNode_closed s subject Hs) as [_ Hn].
  unfold executeRelation.
  rewrite (bind_normal _ _ _ _ _ (resolveNode_run _ _)). rewrite Hup. simpl.
  unfold executeHas. simpl.
  rewrite (bind_normal _ _ _ _ _ (promoteLiteral_run _ _)). simpl.
  split; [reflexivity|]. by apply propertiesOf_setProperty_same.
Qed.

Lemma has_promotes_node_names_witness :
  OMap.get
    (Node.propertiesOf
       (nodes (snd (executeRelation 1 (execute 1) "Narcissus" "has"
                      [LString "Loves"; LString "Narcissus"]
                      (newInterpreter noRandom))))
       "Narcissus")
    "Loves"
  = Some (VNode "Narcissus").
Proof.
  apply (proj2 (has_promotes_node_names 1 (execute 1) "Narcissus" "has" "Loves"
                  (LString "Narcissus") (newInterpreter noRandom)
                  (reachable_new noRandom) eq_refl)).
Defined.

(** ** Query results *)

Lemma bind_assoc {A B C} (m : M A) (k : A -> M B) (h : B -> M C) s :
  bind (bind m k) h s = bind m (fun a => bind (k a) h) s.
Proof. unfold bind. by destruct (m s) as [[a|e|] s1]. Qed.

Lemma reportMatches_run l : forall s,
  reportMatches l s
  = (Normal tt, set_output (output s ++ map (fun n => "  - " +:+ n) l) s).
Proof.
  unfold reportMatches. induction l as [|n l IH]; intros s; simpl.
  - rewrite app_nil_r. by destruct s.
  - unfold bind at 1. unfold onOutput at 1, modify at 1. rewrite IH. simpl.
    by rewrite <- app_assoc.
Qed.

(** A node that has [t] among its parents is never found not to be a [t]. *)
Lemma is_parent_not_false g t : forall fuel n,
  In t (Node.parentsOf g n) -> Node.is_ fuel g n t <> Some false.
Proof.
  intros [|fuel] n Hin; simpl; [done|].
  destruct (String.eqb n t); [done|]. intros H.
  pose proof (anyParent_false _ _ H t Hin) as Hf. destruct fuel; simpl in Hf; [done|].
  by rewrite String.eqb_refl in Hf.
Qed.
Definition queryGraph (g : list (string * SongNode)) (x : string) (items : nat)
  : list (string * SongNode) :=
  let g1 := Graph.getOrCreateNode (Graph.getOrCreateNode g x) "QueryResult" in
  Node.setProperty
    (if Node.includes (Node.parentsOf g1 x) "QueryResult" then g1
     else Node.addParent g1 x "QueryResult")
    x "_Items" (VNodeList items).

Lemma executeQuery_run fuel subject relation target targetValue whereCondition
    x matches s s2 :
  isWildcard subject = false -> variableName subject = Some x ->
  (found <- findMatchingNodes fuel relation target targetValue ;;
   match whereCondition with
   | Some e => filterByWhereCondition fuel found subject e
   | None => ret found
   end) s = (Normal matches, s2) ->
  executeQuery fuel subject relation target targetValue whereCondition s
  = (Normal tt,
     set_output
       (output s2
        ++ ("Query ?" +:+ x +:+ ": " +:+ pretty (length matches) +:+ " nodes found")
        :: map (fun n => "  - " +:+ n) matches)
       (set_nodes (queryGraph (nodes s2) x (length (heap s2)))
          (set_heap (heap s2 ++ [matches]) s2))).
Proof.
  intros Hw Hv Hrun. unfold executeQuery. rewrite <- bind_assoc.
  rewrite (bind_normal _ _ _ _ _ Hrun). rewrite Hw, Hv.
  unfold bind, graphGetOrCreateNode, nodeParents, gets, heapAlloc, nodeSetProperty,
    modify, onOutput. simpl.
  unfold queryGraph.
  destruct (Node.includes _ "QueryResult"); unfold ret, nodeAddParent, modify;
    rewrite reportMatches_run; simpl; unfold set_output, set_nodes, set_heap; simpl;
    by rewrite <- app_assoc.
Qed.

Lemma hasNode_queryGraph g x items : Graph.hasNode (queryGraph g x items) x = true.
Proof.
  unfold queryGraph, Node.setProperty, Node.addParent.
  destruct (Node.includes _ _); repeat rewrite hasNode_update;
    apply hasNode_getOrCreateNode, hasNode_getOrCreateNode_same.
Qed.

Lemma items_queryGraph g x items :
  OMap.get (Node.propertiesOf (queryGraph g x items) x) "_Items"
  = Some (VNodeList items).
Proof.
  apply propertiesOf_setProperty_same. unfold Node.addParent.
  destruct (Node.includes _ _); repeat rewrite hasNode_update;
    apply hasNode_getOrCreateNode, hasNode_getOrCreateNode_same.
Qed.

Lemma parent_queryGraph g x items :
  In "QueryResult" (Node.parentsOf (queryGraph g x items) x).
Proof.
  unfold queryGraph. rewrite parentsOf_setProperty.
  destruct (Node.includes _ _) eqn:E; [by apply includes_In|].
  rewrite parentsOf_addParent_same.
  assert (H : Graph.hasNode
                (Graph.getOrCreateNode (Graph.getOrCreateNode g x) "QueryResult") x
              = true)
    by apply hasNode_getOrCreateNode, hasNode_getOrCreateNode_same.
  unfold Graph.hasNode, OMap.has in H. unfold Node.parentsOf in E.
  destruct (OMap.get _ x) as [nd|]; [|done].
  rewrite E. apply in_or_app. right. by left.
Qed.

(** X12: A named query, then [getQueryResults]: once [?x ...] has found its
    matches, it has printed them one per line under a header with their
    number, and [getQueryResults(x)], which [ALL ?x] iterates over, returns
    exactly these matches in the same order, whenever it returns. *)
Theorem query_results_round_trip (fuel fuel' : nat) (subject : QueryPattern)
    (relation : string) (target : option string) (targetValue : Literal)
    (whereCondition : option Expression) (x : string) (matches : list string)
    (s s2 : Interpreter) :
  isWildcard subject = false ->
  variableName subject = Some x ->
  (found <- findMatchingNodes fuel relation target targetValue ;;
   match whereCondition with
   | Some e => filterByWhereCondition fuel found subject e
   | None => ret found
   end) s = (Normal matches, s2) ->
  let done := executeQuery fuel subject relation target targetValue whereCondition s in
  fst done = Normal tt
  /\ output (snd done)
     = output s2
       ++ ("Query ?" +:+ x +:+ ": " +:+ pretty (length matches) +:+ " nodes found")
       :: map (fun n => "  - " +:+ n) matches
  /\ (fst (getQueryResults fuel' x (snd done)) <> Diverge ->
      getQueryResults fuel' x (snd done) = (Normal matches, snd done)).
Proof.
  intros Hw Hv Hrun done. unfold done.
  rewrite (executeQuery_run _ _ _ _ _ _ _ _ _ _ Hw Hv Hrun). simpl.
  split; [reflexivity|]. split; [reflexivity|].
  set (s' := set_output _ _).
  assert (Hn : nodes s' = queryGraph (nodes s2) x (length (heap s2))) by reflexivity.
  assert (Hh : heap s' = heap s2 ++ [matches]) by reflexivity.
  clearbody s'. unfold getQueryResults.
  assert (Hx : Graph.hasNode (nodes s') x = true)
    by (rewrite Hn; apply hasNode_queryGraph).
  rewrite (bind_normal _ _ _ _ _ (graphGetNode_Some s' x Hx)).
  destruct fuel' as [|fuel']; [done|].
  assert (Hcases : forall k : bool -> M (list string),
             bind (nodeIs (S fuel') x "QueryResult") k s'
             = match Node.is_ (S fuel') (nodes s') x "QueryResult" with
               | Some b => k b s'
               | None => (Diverge, s')
               end).
  { intros k. unfold bind, nodeIs, walk. by destruct (Node.is_ _ _ _ _). }
  rewrite !Hcases.
  destruct (Node.is_ (S fuel') (nodes s') x "QueryResult") as [[]|] eqn:E; [| |done].
  - intros _. unfold bind at 1. unfold nodeGetProperty, walk.
    rewrite (getProperty_own fuel' _ _ _ (VNodeList (length (heap s2))))
      by (rewrite Hn; apply items_queryGraph).
    unfold bind, asNodeList, ret, heapGet, gets. rewrite Hh.
    rewrite lookup_app_r by done. by rewrite Nat.sub_diag.
  - exfalso. eapply is_parent_not_false; [|exact E]. rewrite Hn.
    apply parent_queryGraph.
Qed.

Lemma query_results_round_trip_witness :
  getQueryResults 2 "m"
    (snd (executeQuery 2 (queryVar "m") "IS" (Some "Monster") LNull None
            (run 2 [IS "Orc" "Monster"])))
  = (Normal ["Orc"; "Monster"],
     snd (executeQuery 2 (queryVar "m") "IS" (Some "Monster") LNull None
            (run 2 [IS "Orc" "Monster"]))).
Proof.
  apply (proj2 (proj2 (query_results_round_trip 2 2 (queryVar "m") "IS"
                         (Some "Monster") LNull None "m" ["Orc"; "Monster"]
                         (run 2 [IS "Orc" "Monster"]) (run 2 [IS "Orc" "Monster"])
                         eq_refl eq_refl eq_refl))).
  by vm_compute.
Defined.

(** ** Operators *)

(** [toNumber] returns only for numbers and booleans, and then reads
    nothing. *)
Lemma toNumber_normal fuel v q s s' :
  toNumber fuel v s = (Normal q, s') ->
  s' = s /\ (v = VNumber q \/ exists b : bool, v = VBoolean b /\ q = if b then 1%Q else 0%Q).
Proof.
  destruct v; simpl; unfold ret, throw, bind, toStr, walk;
    try (destruct (toStringValue _ _ _ _); discriminate); try discriminate.
  - intros [= <- <-]. auto.
  - intros [= <- <-]. split; [done|]. right. by exists b.
Qed.

(** X13: The logical operators short-circuit and answer with a boolean: the right
    operand of AND is not evaluated after a falsy left operand, nor that of OR
    after a truthy one, so it neither throws nor draws a random number; and
    whatever AND or OR returns is true or false, never one of the operands. *)
Theorem logical_operators_short_circuit (fuel : nat) (lhs rhs : Expression)
    (s : Interpreter) :
  (forall l s1, evaluateExpression fuel lhs s = (Normal l, s1) ->
                isTruthy l = false ->
                evaluateExpression fuel (EBinary lhs And rhs) s
                = (Normal (VBoolean false), s1))
  /\ (forall l s1, evaluateExpression fuel lhs s = (Normal l, s1) ->
                   isTruthy l = true ->
                   evaluateExpression fuel (EBinary lhs Or rhs) s
                   = (Normal (VBoolean true), s1))
  /\ (forall op v s', op = And \/ op = Or ->
                      evaluateExpression fuel (EBinary lhs op rhs) s = (Normal v, s') ->
                      exists b, v = VBoolean b).
Proof.
  split; [|split].
  - intros l s1 Hl Hf. cbn [evaluateExpression].
    rewrite (bind_normal _ _ _ _ _ Hl). by rewrite Hf.
  - intros l s1 Hl Ht. cbn [evaluateExpression].
    rewrite (bind_normal _ _ _ _ _ Hl). by rewrite Ht.
  - intros op v s' [-> | ->]; cbn [evaluateExpression]; unfold bind at 1;
      destruct (evaluateExpression fuel lhs s) as [[l|e|] s1]; try discriminate;
      destruct (isTruthy l); simpl; unfold ret; try (intros [= <- <-]; eauto);
      unfold bind; destruct (evaluateExpression fuel rhs s1) as [[r|e|] s2];
      try discriminate; intros [= <- <-]; eauto.
Qed.

Lemma logical_operators_short_circuit_witness :
  evaluateExpression 1
    (EBinary (ENumber 0) And (EBinary (ENumber 1) Divide (ENumber 0)))
    (newInterpreter noRandom)
  = (Normal (VBoolean false), newInterpreter noRandom).
Proof.
  apply (proj1 (logical_operators_short_circuit 1 (ENumber 0)
                  (EBinary (ENumber 1) Divide (ENumber 0))
                  (newInterpreter noRandom))
           (VNumber 0) (newInterpreter noRandom)); reflexivity.
Defined.

(** X14: Division and modulo never divide by zero. When [lhs / rhs] or [lhs % rhs]
    returns, both operands were numbers (or booleans read as 1 and 0), the
    divisor was not zero, and the result is their quotient or remainder. When
    the divisor is zero the error is [DivisionByZero], whatever the left
    operand is: it is not even converted to a number. *)
Theorem division_checks_the_divisor (fuel : nat) (op : BinaryOperator)
    (lhs rhs : Expression) (s : Interpreter) :
  op = Divide \/ op = Modulo ->
  (forall v s', evaluateExpression fuel (EBinary lhs op rhs) s = (Normal v, s') ->
     exists l r s1 ql d,
       evaluateExpression fuel lhs s = (Normal l, s1)
       /\ evaluateExpression fuel rhs s1 = (Normal r, s')
       /\ toNumber fuel l s' = (Normal ql, s')
       /\ toNumber fuel r s' = (Normal d, s')
       /\ Qeq_bool d 0 = false
       /\ v = VNumber (quotient op ql d))
  /\ (forall l r s1 s2 d,
        evaluateExpression fuel lhs s = (Normal l, s1) ->
        evaluateExpression fuel rhs s1 = (Normal r, s2) ->
        toNumber fuel r s2 = (Normal d, s2) ->
        Qeq_bool d 0 = true ->
        evaluateExpression fuel (EBinary lhs op rhs) s
        = (Throw (SongError DivisionByZero), s2)).
Proof.
  intros Hop. split.
  - intros v s' Hrun.
    assert (H : (leftVal <- evaluateExpression fuel lhs ;;
                 rightVal <- evaluateExpression fuel rhs ;;
                 divisor <- toNumber fuel rightVal ;;
                 if Qeq_bool divisor 0 then throw (SongError DivisionByZero)
                 else l <- toNumber fuel leftVal ;; ret (VNumber (quotient op l divisor))) s
                = (Normal v, s'))
      by (destruct Hop as [-> | ->]; exact Hrun).
    clear Hrun. unfold bind at 1 in H.
    destruct (evaluateExpression fuel lhs s) as [[l|e|] s1]; try discriminate.
    unfold bind at 1 in H.
    destruct (evaluateExpression fuel rhs s1) as [[r|e|] s2] eqn:Erhs;
      try discriminate.
    unfold bind at 1 in H.
    destruct (toNumber fuel r s2) as [[d|e|] s3] eqn:Er; try discriminate.
    apply toNumber_normal in Er as Hr. destruct Hr as [-> _].
    destruct (Qeq_bool d 0) eqn:Ed; [discriminate|].
    unfold bind in H.
    destruct (toNumber fuel l s2) as [[ql|e|] s3] eqn:El; try discriminate.
    apply toNumber_normal in El as Hl. destruct Hl as [-> _].
    injection H as <- <-. exists l, r, s1, ql, d. repeat split; assumption.
  - intros l r s1 s2 d Hl Hr Hd Hz.
    destruct Hop as [-> | ->]; cbn [evaluateExpression];
      rewrite (bind_normal _ _ _ _ _ Hl), (bind_normal _ _ _ _ _ Hr);
      cbn [binaryOperation]; rewrite (bind_normal _ _ _ _ _ Hd); by rewrite Hz.
Qed.

Lemma division_checks_the_divisor_witness :
  evaluateExpression 1 (EBinary (EString "gold") Divide (ENumber 0))
    (newInterpreter noRandom)
  = (Throw (SongError DivisionByZero), newInterpreter noRandom).
Proof.
  apply (proj2 (division_checks_the_divisor 1 Divide (EString "gold") (ENumber 0)
                  (newInterpreter noRandom) (or_introl eq_refl))
           (VString "gold") (VNumber 0) (newInterpreter noRandom)
           (newInterpreter noRandom) 0%Q); reflexivity.
Defined.

(** ** The snapshot of [toJSON] *)

Lemma has_key {V} (m : list (string * V)) k :
  OMap.has m k = true -> In k (OMap.keys m).
Proof.
  unfold OMap.has, OMap.keys. induction m as [|[k' v'] m IH]; simpl; [done|].
  destruct (String.eqb_spec k' k) as [->|]; auto.
Qed.

Lemma reachable_NoDup_allNodes s : reachable s -> NoDup (Graph.allNodes (nodes s)).
Proof.
  induction 1 as [random|fuel statements s Hs IH]; [apply NoDup_nil_2|].
  by apply nodesGrow_execute.
Qed.

Lemma toJSON_ids g h :
  map GraphJson.id (GraphJson.nodes (GraphJson.toJSON g h)) = Graph.allNodes g.
Proof. simpl. rewrite map_map. simpl. apply map_id. Qed.

(** X15: The snapshot of a reachable state is a well-formed graph: no two of its
    nodes share an id, and every edge is an IS edge between two of its
    nodes. *)
Theorem toJSON_well_formed (s : Interpreter) :
  reachable s ->
  let json := GraphJson.toJSON (nodes s) (heap s) in
  let ids := map GraphJson.id (GraphJson.nodes json) in
  NoDup ids
  /\ (forall e, In e (GraphJson.edges json) ->
                GraphJson.type e = "IS"
                /\ In (GraphJson.source e) ids /\ In (GraphJson.target e) ids).
Proof.
  intros Hs json ids. unfold ids, json. rewrite toJSON_ids.
  split; [by apply reachable_NoDup_allNodes|].
  intros e He. simpl in He. apply in_flat_map in He as (n & Hn & He).
  apply in_map_iff in He as (p & <- & Hp). simpl.
  split; [done|]. split; [exact Hn|].
  apply has_key. destruct (reachable_closed s Hs) as (Hpar & _). by apply (Hpar n p).
Qed.

Lemma toJSON_well_formed_witness :
  NoDup
    (map GraphJson.id
       (GraphJson.nodes
          (GraphJson.toJSON (nodes (run 2 [IS "Orc" "Monster"]))
             (heap (run 2 [IS "Orc" "Monster"]))))).
Proof.
  apply (proj1 (toJSON_well_formed (run 2 [IS "Orc" "Monster"])
                  (reachable_execute _ _ _ (reachable_new noRandom)))).
Defined.

(** X16: The edges of the snapshot are exactly the parents lists, for any graph:
    there is an IS edge from [n] to [p] if and only if [p] is a parent of
    [n]. *)
Theorem toJSON_edges_are_the_parents (g : list (string * SongNode))
    (h : list (list string)) (n p : string) :
  In {| GraphJson.source := n; GraphJson.target := p; GraphJson.type := "IS" |}
    (GraphJson.edges (GraphJson.toJSON g h))
  <-> In p (Node.parentsOf g n).
Proof.
  simpl. rewrite in_flat_map. split.
  - intros (m & _ & Hm). apply in_map_iff in Hm as (q & [= -> ->] & Hq). exact Hq.
  - intros Hp. exists n. split; [|apply in_map_iff; by exists p].
    apply has_key. unfold OMap.has. unfold Node.parentsOf in Hp.
    by destruct (OMap.get g n).
Qed.

Lemma exportProperties_lookup k : forall entries (exported : gmap string Value),
  NoDup (OMap.keys entries) ->
  foldl
    (fun (exported : gmap string Value) (kv : string * Value) =>
       if negb (Js.startsWithUnderscore (fst kv))
          && negb (GraphJson.isNodeValue (snd kv))
       then <[fst kv := snd kv]> exported
       else exported)
    exported entries !! k
  = match OMap.get entries k with
    | Some v =>
        if negb (Js.startsWithUnderscore k) && negb (GraphJson.isNodeValue v)
        then Some v
        else exported !! k
    | None => exported !! k
    end.
Proof.
  unfold OMap.keys. induction entries as [|[k' v'] entries IH]; intros exported Hnd;
    simpl; [done|].
  apply NoDup_cons in Hnd as [Hk' Hnd]. rewrite IH by exact Hnd.
  destruct (String.eqb_spec k' k) as [->|Hne].
  - destruct (OMap.get entries k) eqn:E.
    { destruct Hk'. apply list_elem_of_In. apply get_In in E.
      apply in_map_iff. by exists (k, v). }
    destruct (negb (Js.startsWithUnderscore k) && negb (GraphJson.isNodeValue v'));
      [by rewrite lookup_insert_eq|done].
  - assert (Hsame : (if negb (Js.startsWithUnderscore k')
                        && negb (GraphJson.isNodeValue v')
                     then <[k' := v']> exported else exported) !! k = exported !! k).
    { destruct (_ && _); [by rewrite lookup_insert_ne|done]. }
    by rewrite Hsame.
Qed.

(** X17: What the snapshot shows of a node of a reachable state: its name as id
    and as name, and of its own properties exactly those whose key does not
    start with an underscore and whose value is not a reference to a node,
    each with the value stored. *)
Theorem toJSON_exports_plain_properties (s : Interpreter) (d : GraphJson.NodeData)
    (k : string) :
  reachable s ->
  In d (GraphJson.nodes (GraphJson.toJSON (nodes s) (heap s))) ->
  Graph.hasNode (nodes s) (GraphJson.id d) = true
  /\ GraphJson.name d = GraphJson.id d
  /\ GraphJson.properties d !! k
     = match OMap.get (Node.propertiesOf (nodes s) (GraphJson.id d)) k with
       | Some v =>
           if Js.startsWithUnderscore k || GraphJson.isNodeValue v then None
           else Some v
       | None => None
       end.
Proof.
  intros Hs Hd. simpl in Hd. apply in_map_iff in Hd as (n & <- & Hn). simpl.
  split; [by apply key_has|]. split; [done|].
  unfold GraphJson.exportProperties.
  rewrite exportProperties_lookup by apply (reachable_distinctKeys s Hs).
  destruct (OMap.get _ k) as [v|]; [|done].
  by destruct (Js.startsWithUnderscore k), (GraphJson.isNodeValue v).
Qed.

Lemma toJSON_exports_plain_properties_witness :
  GraphJson.properties
    {| GraphJson.id := "Orc"; GraphJson.name := "Orc";
       GraphJson.properties :=
         GraphJson.exportProperties
           (Node.propertiesOf
              (nodes (run 2 [SRelation "Orc" "HAS" [LString "_Secret"; LNumber 1]]))
              "Orc");
       GraphJson.abilities := [] |} !! "_Secret"
  = None.
Proof.
  apply (proj2 (proj2 (toJSON_exports_plain_properties
                         (run 2 [SRelation "Orc" "HAS" [LString "_Secret"; LNumber 1]])
                         _ "_Secret"
                         (reachable_execute _ _ _ (reachable_new noRandom))
                         (or_introl eq_refl)))).
Defined.

(** ** The loop variable of EACH *)

Lemma each_turns_unbind (exec : list Statement -> M unit) (variable : string)
    (body : list Statement) : forall children s s',
  children <> [] ->
  forEach
    (fun child =>
       contextSet variable (VNode child) ;; exec body ;; contextDelete variable)
    children s = (Normal tt, s') ->
  context s' !! variable = None.
Proof.
  induction children as [|child rest IH]; intros s s' Hne; [done|].
  simpl. unfold bind at 1.
  destruct ((contextSet variable (VNode child) ;; exec body ;; contextDelete variable) s)
    as [[[]|e|] s1] eqn:E; try discriminate.
  destruct rest as [|child' rest'].
  - simpl. intros [= <-]. revert E. unfold bind, contextSet, contextDelete, modify.
    destruct (exec body _) as [[[]|e|] s2]; try discriminate.
    intros [= <-]. simpl. apply lookup_delete_eq.
  - by apply IH.
Qed.

(** X18: EACH does not restore its loop variable, it removes it: after
    [EACH variable IN collection] has run its body on at least one child and
    ended normally, [variable] is unbound, also when it was bound before the
    loop. When the collection has no children, nothing changes at all. *)
Theorem each_leaves_variable_unbound (exec : list Statement -> M unit)
    (collection variable : string) (body : list Statement) (s s' : Interpreter) :
  executeEach exec collection variable body s = (Normal tt, s') ->
  ((exists child, In child (Graph.allNodes (nodes s))
                  /\ In collection (Node.parentsOf (nodes s) child)) ->
   context s' !! variable = None)
  /\ ((forall child, ~ In collection (Node.parentsOf (nodes s) child)) -> s' = s).
Proof.
  unfold executeEach. unfold bind at 1, graphGetNode at 1, gets at 1.
  destruct (Graph.hasNode (nodes s) collection); [|discriminate].
  unfold bind at 1, gets at 1. intros Hrun. split.
  - intros (child & Hin & Hpar). eapply each_turns_unbind; [|exact Hrun].
    intros Hnil.
    assert (Hc : In child
                   (List.filter
                      (fun n => Node.includes (Node.parentsOf (nodes s) n) collection)
                      (Graph.allNodes (nodes s)))).
    { apply filter_In. split; [exact Hin|]. by apply includes_In. }
    rewrite Hnil in Hc. destruct Hc.
  - intros Hnone.
    assert (Hnil : List.filter
                     (fun n => Node.includes (Node.parentsOf (nodes s) n) collection)
                     (Graph.allNodes (nodes s)) = []).
    { destruct (List.filter _ _) as [|child l] eqn:E; [done|].
      assert (Hc : In child (child :: l)) by (by left). rewrite <- E in Hc.
      apply filter_In in Hc as [_ Hc]. apply includes_In in Hc.
      by destruct (Hnone child). }
    rewrite Hnil in Hrun. simpl in Hrun. by injection Hrun.
Qed.

Lemma each_leaves_variable_unbound_witness :
  context
    (snd (executeEach (execute 1) "Monster" "m" []
            (set_context (<["m" := VNumber 7]> ∅) (run 2 [IS "Orc" "Monster"]))))
    !! "m"
  = None.
Proof.
  apply (proj1 (each_leaves_variable_unbound (execute 1) "Monster" "m" []
                  (set_context (<["m" := VNumber 7]> ∅) (run 2 [IS "Orc" "Monster"]))
                  _ eq_refl)).
  exists "Orc". split; vm_compute; by left.
Defined.

(** ** What a query can match *)

(** The loops that push the elements accepted: the result is a sublist of
    the list looped over. *)
Lemma filterM_sublist {A} (p : A -> M bool) : forall xs s l s',
  filterM p xs s = (Normal l, s') -> l `sublist_of` xs.
Proof.
  induction xs as [|x xs IH]; intros s l s'; simpl.
  - intros [= <- <-]. constructor.
  - unfold bind at 1. destruct (p x s) as [[keep|e|] s1]; try discriminate.
    unfold bind at 1. destruct (filterM p xs s1) as [[kept|e|] s2] eqn:E;
      try discriminate.
    intros [= <- <-]. apply IH in E.
    destruct keep; [by apply sublist_skip|by apply sublist_cons].
Qed.

(** X19: The matches of a query, after the WHERE filter too, are nodes of the
    graph as it was when the query started, each listed once, in the order
    in which the nodes were created. *)
Theorem query_matches_are_nodes (fuel : nat) (subject : QueryPattern)
    (relation : string) (target : option string) (targetValue : Literal)
    (whereCondition : option Expression) (matches : list string)
    (s s2 : Interpreter) :
  reachable s ->
  (found <- findMatchingNodes fuel relation target targetValue ;;
   match whereCondition with
   | Some e => filterByWhereCondition fuel found subject e
   | None => ret found
   end) s = (Normal matches, s2) ->
  matches `sublist_of` Graph.allNodes (nodes s)
  /\ NoDup matches
  /\ (forall n, In n matches -> Graph.hasNode (nodes s) n = true).
Proof.
  intros Hs Hrun.
  assert (Hsub : matches `sublist_of` Graph.allNodes (nodes s)).
  { revert Hrun. unfold bind at 1, findMatchingNodes.
    unfold bind at 1, graphAllNodes at 1, gets at 1.
    destruct (filterM _ (Graph.allNodes (nodes s)) s) as [[found|e|] s1] eqn:E;
      try discriminate.
    apply filterM_sublist in E. intros Hw.
    transitivity found; [|exact E].
    destruct whereCondition as [e|].
    - by apply filterM_sublist in Hw.
    - by injection Hw as <- _. }
  split; [exact Hsub|]. split.
  - eapply sublist_NoDup; [|exact Hsub]. by apply reachable_NoDup_allNodes.
  - intros n Hn. apply key_has, list_elem_of_In.
    eapply elem_of_sublist; [|exact Hsub]. by apply list_elem_of_In.
Qed.

Lemma query_matches_are_nodes_witness :
  ["Orc"; "Monster"] `sublist_of` Graph.allNodes (nodes (run 2 [IS "Orc" "Monster"])).
Proof.
  apply (proj1 (query_matches_are_nodes 2 (queryVar "m") "IS" (Some "Monster")
                  LNull None ["Orc"; "Monster"]
                  (run 2 [IS "Orc" "Monster"]) (run 2 [IS "Orc" "Monster"])
                  (reachable_execute _ _ _ (reachable_new noRandom))
                  eq_refl)).
Defined.
